(** * Mini-Brevo: contact import and campaign dispatch

    A shallow embedding of [app.py]: the Python string primitives the
    program relies on, the email regular expression, the SQLite tables
    as lists of rows, the SMTP transport as an oracle with a trace of
    attempts, and the page handlers that import contacts and send
    campaigns.  Definitions come first; the theorems follow. *)

From Stdlib Require Import List Ascii String Bool Arith ZArith Lia Sorted.
Import ListNotations.

Set Implicit Arguments.

(** ** Python [str]

    A [str] is a sequence of code points.  The model keeps the code
    points 0..255, one [ascii] each; on that range [lower], [strip],
    [splitlines] and the regular-expression classes below are closed
    and behave as CPython's do. *)

Definition str := list ascii.

Definition lit (s : string) : str := list_ascii_of_string s.

Module Py.

Definition code (c : ascii) : nat := nat_of_ascii c.

Definition between (lo hi : nat) (c : ascii) : bool :=
  (lo <=? code c) && (code c <=? hi).

Definition chr_eqb (a b : ascii) : bool := Ascii.eqb a b.

Fixpoint str_eqb (a b : str) : bool :=
  match a, b with
  | [], [] => true
  | x :: a', y :: b' => chr_eqb x y && str_eqb a' b'
  | _, _ => false
  end.

(** Truth value of a [str]: the empty string is falsy. *)
Definition truthy (s : str) : bool :=
  match s with [] => false | _ :: _ => true end.

(** Truth value of an optional [str] ([None] is falsy too). *)
Definition truthy_opt (o : option str) : bool :=
  match o with None => false | Some s => truthy s end.

(** [o or d] for an optional string [o]. *)
Definition or_else (o : option str) (d : str) : str :=
  match o with
  | Some s => if truthy s then s else d
  | None => d
  end.

(** [str.isspace] on one code point: TAB..CR, FS..US, space, NEL, NBSP. *)
Definition isspace (c : ascii) : bool :=
  between 9 13 c || between 28 32 c
  || (code c =? 133) || (code c =? 160).

(** [str.lower] on one code point: A-Z, and the Latin-1 capitals
    (all of U+00C0..U+00DE but the multiplication sign). *)
Definition lower_chr (c : ascii) : ascii :=
  if between 65 90 c
     || (between 192 222 c && negb (code c =? 215))
  then ascii_of_nat (code c + 32)
  else c.

Definition lower (s : str) : str := map lower_chr s.

Fixpoint lstrip (s : str) : str :=
  match s with
  | c :: t => if isspace c then lstrip t else s
  | [] => []
  end.

Definition rstrip (s : str) : str := rev (lstrip (rev s)).

Definition strip (s : str) : str := rstrip (lstrip s).

(** [c in s] for a one-character needle. *)
Definition contains_chr (c : ascii) (s : str) : bool :=
  existsb (chr_eqb c) s.

(** [s.split(sep)] for a one-character separator: every separator
    cuts, empty fields are kept. *)
Fixpoint split_chr (sep : ascii) (s : str) : list str :=
  match s with
  | [] => [[]]
  | c :: t =>
      if chr_eqb c sep then [] :: split_chr sep t
      else match split_chr sep t with
           | f :: fs => (c :: f) :: fs
           | [] => [[c]]
           end
  end.

(** [sep.join(parts)]. *)
Fixpoint join (sep : str) (parts : list str) : str :=
  match parts with
  | [] => []
  | [p] => p
  | p :: ps => p ++ sep ++ join sep ps
  end.

(** Line boundaries of [str.splitlines]: LF, VT, FF, CR, FS, GS, RS
    and NEL; CR LF counts once. *)
Definition is_linebreak (c : ascii) : bool :=
  between 10 13 c || between 28 30 c || (code c =? 133).

Fixpoint splitlines_from (cur : str) (s : str) : list str :=
  match s with
  | [] => match cur with [] => [] | _ => [rev cur] end
  | c :: t =>
      if is_linebreak c then
        match t with
        | d :: t' =>
            if (code c =? 13) && (code d =? 10)
            then rev cur :: splitlines_from [] t'
            else rev cur :: splitlines_from [] t
        | [] => rev cur :: splitlines_from [] t
        end
      else splitlines_from (c :: cur) t
  end.

Definition splitlines (s : str) : list str := splitlines_from [] s.

Fixpoint startswith (p s : str) : bool :=
  match p, s with
  | [], _ => true
  | x :: p', y :: s' => chr_eqb x y && startswith p' s'
  | _ :: _, [] => false
  end.

(** [s.replace(old, new)] for a non-empty [old]: scan from the left,
    replace each match and resume after it.  [skip] counts the
    characters of the match still to be passed over. *)
Fixpoint replace_from (old new : str) (skip : nat) (s : str) : str :=
  match s with
  | [] => []
  | c :: t =>
      match skip with
      | S k => replace_from old new k t
      | O =>
          if startswith old s
          then new ++ replace_from old new (Nat.pred (List.length old)) t
          else c :: replace_from old new 0 t
      end
  end.

(** With an empty [old], Python puts [new] before every character
    and at the end. *)
Definition replace (old new s : str) : str :=
  match old with
  | [] => new ++ flat_map (fun c => c :: new) s
  | _ :: _ => replace_from old new 0 s
  end.

End Py.

(** ** Regular expressions

    The fragment of [re] that the program's patterns use: character
    classes, concatenation, alternation, repetition.  Matching is by
    derivatives; whether [re.match] finds a match does not depend on
    the order in which a backtracking engine tries the alternatives. *)

Module Re.

Inductive regex : Type :=
| Void : regex
| Eps : regex
| Class : (ascii -> bool) -> regex
| Cat : regex -> regex -> regex
| Alt : regex -> regex -> regex
| Star : regex -> regex.

Definition Chr (c : ascii) : regex := Class (Py.chr_eqb c).

(** [r+] *)
Definition Plus (r : regex) : regex := Cat r (Star r).

(** [r{n,}] *)
Fixpoint AtLeast (n : nat) (r : regex) : regex :=
  match n with
  | O => Star r
  | S k => Cat r (AtLeast k r)
  end.

(** A closing [$] (no MULTILINE flag): the end of the string, or the
    position before a newline that ends the string.  As the last item
    of a pattern handed to [re.match], which does not ask the match to
    reach the end of the string, it lets the rest of the subject be
    empty or one newline. *)
Definition Dollar : regex := Alt Eps (Chr "010"%char).

Fixpoint nullable (r : regex) : bool :=
  match r with
  | Void => false
  | Eps => true
  | Class _ => false
  | Cat a b => nullable a && nullable b
  | Alt a b => nullable a || nullable b
  | Star _ => true
  end.

Fixpoint deriv (c : ascii) (r : regex) : regex :=
  match r with
  | Void => Void
  | Eps => Void
  | Class p => if p c then Eps else Void
  | Cat a b =>
      if nullable a
      then Alt (Cat (deriv c a) b) (deriv c b)
      else Cat (deriv c a) b
  | Alt a b => Alt (deriv c a) (deriv c b)
  | Star a => Cat (deriv c a) (Star a)
  end.

Fixpoint accepts (r : regex) (s : str) : bool :=
  match s with
  | [] => nullable r
  | c :: t => accepts (deriv c r) t
  end.

(** [re.match(r"^body$", s) is not None]: a leading [^] adds nothing
    to [re.match], which only tries position 0. *)
Definition match_anchored (body : regex) (s : str) : bool :=
  accepts (Cat body Dollar) s.

(** The words of a regular expression. *)
Inductive lang : regex -> str -> Prop :=
| lang_eps : lang Eps []
| lang_class p c : p c = true -> lang (Class p) [c]
| lang_cat a b u v : lang a u -> lang b v -> lang (Cat a b) (u ++ v)
| lang_alt_l a b u : lang a u -> lang (Alt a b) u
| lang_alt_r a b u : lang b u -> lang (Alt a b) u
| lang_star_nil a : lang (Star a) []
| lang_star_app a u v : lang a u -> lang (Star a) v -> lang (Star a) (u ++ v).

(** [re.split(pattern, s)] for a pattern [[...]+]: every maximal run
    of separator characters cuts once; the pieces before the first
    and after the last run are kept even when empty. *)
Fixpoint split_runs_from (sep : ascii -> bool) (cur : str) (in_run : bool)
         (s : str) : list str :=
  match s with
  | [] => [rev cur]
  | c :: t =>
      if sep c then
        if in_run then split_runs_from sep [] true t
        else rev cur :: split_runs_from sep [] true t
      else split_runs_from sep (c :: cur) false t
  end.

Definition split_runs (sep : ascii -> bool) (s : str) : list str :=
  split_runs_from sep [] false s.

End Re.

(** ** The email validator (nested in [page_contacts]) *)

Definition is_alpha (c : ascii) : bool :=
  Py.between 65 90 c || Py.between 97 122 c.

Definition is_alnum (c : ascii) : bool :=
  is_alpha c || Py.between 48 57 c.

(** [[A-Za-z0-9._%+-]] *)
Definition local_class (c : ascii) : bool :=
  is_alnum c || Py.contains_chr c (lit "._%+-").

(** [[A-Za-z0-9.-]] *)
Definition domain_class (c : ascii) : bool :=
  is_alnum c || Py.contains_chr c (lit ".-").

(** [[A-Za-z0-9._%+-]+@[A-Za-z0-9.-]+\.[A-Za-z]{2,}] *)
Definition EMAIL_BODY : Re.regex :=
  Re.Cat (Re.Plus (Re.Class local_class))
    (Re.Cat (Re.Chr "@"%char)
       (Re.Cat (Re.Plus (Re.Class domain_class))
          (Re.Cat (Re.Chr "."%char)
             (Re.AtLeast 2 (Re.Class is_alpha))))).

(** [re.match(r"^...$", s or "") is not None]; the argument may be
    [None]. *)
Definition is_valid_email (s : option str) : bool :=
  Re.match_anchored EMAIL_BODY (Py.or_else s []).

(** The shape the specification words: a local part, [@], a domain, a
    dot and a final label of two or more letters. *)
Definition email_shape (s : str) : Prop :=
  exists loc dom tld,
    s = loc ++ "@"%char :: dom ++ "."%char :: tld
    /\ loc <> [] /\ forallb local_class loc = true
    /\ dom <> [] /\ forallb domain_class dom = true
    /\ 2 <= List.length tld /\ forallb is_alpha tld = true.

(** ** Configuration (module level of [app.py]) *)

(** [os.environ], read once when the module is loaded. *)
Definition environ := str -> option str.

Definition getenv (env : environ) (key : string) : option str := env (lit key).

(** [os.getenv(key, default)]: a variable set to the empty string is
    returned as it is, the default is for an unset one only. *)
Definition getenv_default (env : environ) (key : string) (default : str) : str :=
  match env (lit key) with
  | Some v => v
  | None => default
  end.

Record Config : Type := mkConfig {
  SMTP_HOST : option str;
  SMTP_PORT : str;
  SMTP_USER : option str;
  SMTP_PASS : option str;
  FROM_EMAIL : str;
  FROM_NAME : str
}.

(** Lines 17-22.  The port is kept as the text handed to [int]: no
    handler looks at its value, it only travels to [smtplib.SMTP]. *)
Definition load_config (env : environ) : Config :=
  let user := getenv env "SMTP_USER" in
  {| SMTP_HOST := getenv env "SMTP_HOST";
     SMTP_PORT := getenv_default env "SMTP_PORT" (lit "587");
     SMTP_USER := user;
     SMTP_PASS := getenv env "SMTP_PASS";
     FROM_EMAIL :=
       getenv_default env "FROM_EMAIL" (Py.or_else user (lit "demo@example.com"));
     FROM_NAME := getenv_default env "FROM_NAME" (lit "Mini-Brevo Demo") |}.

(** ** Tables *)

Module Contact.
Record t : Type := mk {
  id : Z;
  name : option str;
  email : str;
  tags : option str;
  created_at : str
}.
End Contact.

Module Campaign.
Record t : Type := mk {
  id : Z;
  subject : str;
  body : str;
  created_at : str
}.
End Campaign.

Module SendRecord.
Record t : Type := mk {
  id : Z;
  campaign_id : option Z;
  contact_id : option Z;
  email : str;
  status : str;
  error : str;
  sent_at : str
}.
End SendRecord.

(** The database file: the rows of [contacts] and [sends] in rowid
    order, and for each table the last id AUTOINCREMENT handed out. *)
Record DB : Type := mkDB {
  contacts : list Contact.t;
  contacts_seq : Z;
  sends : list SendRecord.t;
  sends_seq : Z
}.

(** One pass through the [try] block of [send_email_smtp]: the message
    and the SMTP session it asks for. *)
Record SmtpAttempt : Type := mkAttempt {
  att_host : str;
  att_port : str;
  att_user : str;
  att_pass : str;
  att_from_name : str;
  att_from_email : str;
  att_to : str;
  att_subject : str;
  att_body_html : str
}.

(** Everything a handler can change: the database, the number of times
    the clock was read, and the SMTP attempts made so far. *)
Record World : Type := mkWorld {
  db : DB;
  clock : nat;
  attempts : list SmtpAttempt
}.

Definition with_db (w : World) (d : DB) : World :=
  {| db := d; clock := clock w; attempts := attempts w |}.

Definition tick (w : World) : World :=
  {| db := db w; clock := S (clock w); attempts := attempts w |}.

Definition with_attempt (w : World) (a : SmtpAttempt) : World :=
  {| db := db w; clock := clock w; attempts := attempts w ++ [a] |}.

(** A call either returns or raises. *)
Inductive outcome (A : Type) : Type :=
| Returned : A -> outcome A
| Raised : str -> outcome A.

Arguments Returned {A} _.
Arguments Raised {A} _.

(** Conflict clause of an INSERT. *)
Inductive on_conflict : Type := OrAbort | OrIgnore.

(** Some row of [contacts] holds this address already. *)
Definition email_taken (email : str) (d : DB) : bool :=
  existsb (fun c => Py.str_eqb (Contact.email c) email) (contacts d).

(** INSERT into [contacts], whose [email] column is UNIQUE and whose
    [id] is AUTOINCREMENT.  SQLite picks the row id before it looks at
    the constraint: a row that OR IGNORE drops has used its id up, and
    the counter stays advanced; a statement that fails is undone as a
    whole, counter included. *)
Definition execute_insert_contact (clause : on_conflict)
           (name email tags created_at : str) (d : DB) : DB * outcome unit :=
  let rowid := (contacts_seq d + 1)%Z in
  if email_taken email d then
    match clause with
    | OrIgnore => ({| contacts := contacts d;
                      contacts_seq := rowid;
                      sends := sends d;
                      sends_seq := sends_seq d |}, Returned tt)
    | OrAbort => (d, Raised (lit "UNIQUE constraint failed: contacts.email"))
    end
  else
    ({| contacts := contacts d ++
                    [Contact.mk rowid (Some name) email (Some tags) created_at];
        contacts_seq := rowid;
        sends := sends d;
        sends_seq := sends_seq d |}, Returned tt).

(** INSERT into [sends], which has no constraint to violate. *)
Definition execute_insert_send (campaign_id contact_id : option Z)
           (email status error sent_at : str) (d : DB) : DB :=
  let rowid := (sends_seq d + 1)%Z in
  {| contacts := contacts d;
     contacts_seq := contacts_seq d;
     sends := sends d ++
              [SendRecord.mk rowid campaign_id contact_id email status error sent_at];
     sends_seq := rowid |}.

(** ** Data frames

    A frame is its column labels and its rows, each row one cell per
    label; a cell is held as the text [str] gives for it. *)
Record DataFrame : Type := mkFrame {
  columns : list str;
  rows : list (list str)
}.

Module Pd.

(** [{c.lower(): c for c in df.columns}.get(key)]: a later column
    replaces an earlier one under the same key. *)
Definition cols_lower_get (cols : list str) (key : str) : option str :=
  find (fun c => Py.str_eqb (Py.lower c) key) (rev cols).

(** The cells of [row] under [label], one per column so labelled. *)
Fixpoint cells_at (cols : list str) (row : list str) (label : str) : list str :=
  match cols, row with
  | c :: cols', x :: row' =>
      if Py.str_eqb c label then x :: cells_at cols' row' label
      else cells_at cols' row' label
  | _, _ => []
  end.

(** The cell of [row] under a label that names one column. *)
Definition cell (cols : list str) (row : list str) (label : str) : str :=
  match cells_at cols row label with
  | x :: _ => x
  | [] => []
  end.

Definition has_column (df : DataFrame) (label : str) : bool :=
  existsb (fun c => Py.str_eqb c label) (columns df).

(** [df[label] = value] with a scalar: every column so labelled is
    overwritten, or a new last column is added. *)
Fixpoint overwrite (cols : list str) (label value : str) (row : list str)
  : list str :=
  match cols, row with
  | c :: cols', x :: row' =>
      (if Py.str_eqb c label then value else x) :: overwrite cols' label value row'
  | _, _ => row
  end.

Definition assign_scalar (df : DataFrame) (label value : str) : DataFrame :=
  if has_column df label then
    {| columns := columns df;
       rows := map (overwrite (columns df) label value) (rows df) |}
  else
    {| columns := columns df ++ [label];
       rows := map (fun r => r ++ [value]) (rows df) |}.

(** [df.rename(columns=mapping)]; in a dict literal a repeated key
    keeps its last value. *)
Definition rename_label (mapping : list (str * str)) (c : str) : str :=
  match find (fun kv => Py.str_eqb (fst kv) c) (rev mapping) with
  | Some kv => snd kv
  | None => c
  end.

Definition rename (df : DataFrame) (mapping : list (str * str)) : DataFrame :=
  {| columns := map (rename_label mapping) (columns df); rows := rows df |}.

(** [df[label]] where a Series is needed: the label has to name one
    column, two give a DataFrame (no [.str]) and none a KeyError. *)
Definition series (df : DataFrame) (label : str) : option (list str) :=
  match filter (fun c => Py.str_eqb c label) (columns df) with
  | [_] =>
      Some (map (fun r => cell (columns df) r label) (rows df))
  | _ => None
  end.

(** [df[label] = values] for a label naming one column. *)
Definition assign_series (df : DataFrame) (label : str) (values : list str)
  : DataFrame :=
  {| columns := columns df;
     rows := map (fun rv => overwrite (columns df) label (snd rv) (fst rv))
                 (combine (rows df) values) |}.

(** [df[mask]] *)
Fixpoint select {A : Type} (mask : list bool) (xs : list A) : list A :=
  match mask, xs with
  | m :: mask', x :: xs' => if m then x :: select mask' xs' else select mask' xs'
  | _, _ => []
  end.

Definition mask_rows (df : DataFrame) (mask : list bool) : DataFrame :=
  {| columns := columns df; rows := select mask (rows df) |}.

(** [df.empty]: no row or no column. *)
Definition empty (df : DataFrame) : bool :=
  match columns df, rows df with
  | [], _ => true
  | _, [] => true
  | _, _ => false
  end.

(** [df.drop_duplicates(subset=[label], keep="first")]: a row goes
    when an earlier row has the same cell under [label]. *)
Fixpoint drop_dups_from (cols : list str) (label : str) (seen : list str)
         (rs : list (list str)) : list (list str) :=
  match rs with
  | [] => []
  | r :: rs' =>
      let k := cell cols r label in
      if existsb (Py.str_eqb k) seen
      then drop_dups_from cols label seen rs'
      else r :: drop_dups_from cols label (k :: seen) rs'
  end.

Definition drop_duplicates (df : DataFrame) (label : str) : DataFrame :=
  {| columns := columns df;
     rows := drop_dups_from (columns df) label [] (rows df) |}.

End Pd.

(** ** The program *)

Definition SENT : str := lit "SENT".
Definition ERROR : str := lit "ERROR".
Definition SIMULATED : str := lit "SIMULATED".
Definition PLACEHOLDER : str := lit "{{name}}".

Section App.

(** [datetime.utcnow().isoformat()] at the n-th reading of the clock. *)
Variable utcnow : nat -> str.

(** What the [try] block of [send_email_smtp] meets, given the
    attempts made before: [None] when it runs to its end, [Some e]
    when building the message or the SMTP session raises an
    exception whose text is [e]. *)
Variable smtp_try : list SmtpAttempt -> SmtpAttempt -> option str.

(** [str] of the Series that [row.get] returns for a label carried
    by several columns. *)
Variable str_of_series : list str -> str.

Variable cfg : Config.

Definition insert_contact (name email tags : str) (w : World)
  : World * outcome unit :=
  let now := utcnow (clock w) in
  let '(d, res) :=
    execute_insert_contact OrIgnore
      (Py.strip name) (Py.lower (Py.strip email)) (Py.strip tags) now (db w) in
  (with_db (tick w) d, res).

(** [str(row.get(label, default))] *)
Definition row_get (cols : list str) (row : list str) (label : string)
           (default : str) : str :=
  match Pd.cells_at cols row (lit label) with
  | [] => default
  | [x] => x
  | xs => str_of_series xs
  end.

Fixpoint import_rows (cols : list str) (rs : list (list str)) (count : nat)
         (w : World) : nat * World :=
  match rs with
  | [] => (count, w)
  | row :: rs' =>
      let name := Py.strip (row_get cols row "name" []) in
      let email := Py.lower (Py.strip (row_get cols row "email" [])) in
      let tags := Py.strip (row_get cols row "tags" []) in
      if Py.truthy email then
        match insert_contact name email tags w with
        | (w', Returned _) => import_rows cols rs' (S count) w'
        | (w', Raised _) => import_rows cols rs' count w'
        end
      else import_rows cols rs' count w
  end.

Definition bulk_import_contacts (df : DataFrame) (w : World) : nat * World :=
  import_rows (columns df) (rows df) 0 w.

Definition log_send (campaign_id contact_id : option Z)
           (email status error : str) (w : World) : World :=
  let now := utcnow (clock w) in
  with_db (tick w)
    (execute_insert_send campaign_id contact_id email status error now (db w)).

(** [SMTP_HOST and SMTP_USER and SMTP_PASS and FROM_EMAIL], as a
    truth value. *)
Definition credentials_set : bool :=
  Py.truthy_opt (SMTP_HOST cfg) && Py.truthy_opt (SMTP_USER cfg)
  && Py.truthy_opt (SMTP_PASS cfg) && Py.truthy (FROM_EMAIL cfg).

Definition send_email_smtp (to_email subject body_html : str) (w : World)
  : (bool * str) * World :=
  if negb credentials_set
  then ((true, SIMULATED), w)
  else
    let a := {| att_host := Py.or_else (SMTP_HOST cfg) [];
                att_port := SMTP_PORT cfg;
                att_user := Py.or_else (SMTP_USER cfg) [];
                att_pass := Py.or_else (SMTP_PASS cfg) [];
                att_from_name := FROM_NAME cfg;
                att_from_email := FROM_EMAIL cfg;
                att_to := to_email;
                att_subject := subject;
                att_body_html := body_html |} in
    match smtp_try (attempts w) a with
    | None => ((true, []), with_attempt w a)
    | Some e => ((false, e), with_attempt w a)
    end.

(** *** [page_contacts]: the upload block *)

(** Lines 206-209 and 232-235: clean the [email] column, validate it,
    count and drop the rows that fail.  [None] when pandas raises. *)
Definition validate_emails (df : DataFrame) : option (DataFrame * nat) :=
  match Pd.series df (lit "email") with
  | None => None
  | Some col =>
      let cleaned := map (fun e => Py.lower (Py.strip e)) col in
      let df1 := Pd.assign_series df (lit "email") cleaned in
      let mask_valid := map (fun e => is_valid_email (Some e)) cleaned in
      let skipped := List.length (filter negb mask_valid) in
      Some (Pd.mask_rows df1 mask_valid, skipped)
  end.

(** What the CSV branch leaves behind. *)
Inductive parsed : Type :=
| Refused : str -> parsed                 (* [st.error] and [return] *)
| Broke : parsed                          (* pandas raised, the run stops *)
| Frame : DataFrame -> nat -> parsed.     (* [df] and [skipped] *)

Definition MISSING_EMAIL : str := lit "El CSV debe incluir una columna 'email'.".

Definition csv_branch (df : DataFrame) : parsed :=
  let email_col := Pd.cols_lower_get (columns df) (lit "email") in
  let name_col := Pd.cols_lower_get (columns df) (lit "name") in
  let tags_col := Pd.cols_lower_get (columns df) (lit "tags") in
  match email_col with
  | None => Refused MISSING_EMAIL
  | Some email_col =>
      let '(df, name_col) :=
        match name_col with
        | None => (Pd.assign_scalar df (lit "name") [], lit "name")
        | Some c => (df, c)
        end in
      let '(df, tags_col) :=
        match tags_col with
        | None => (Pd.assign_scalar df (lit "tags") [], lit "tags")
        | Some c => (df, c)
        end in
      let df := Pd.rename df [(email_col, lit "email");
                              (name_col, lit "name");
                              (tags_col, lit "tags")] in
      match validate_emails df with
      | None => Broke
      | Some (df, skipped) => Frame df skipped
      end
  end.

(** [[,\s;]] *)
Definition token_sep (c : ascii) : bool :=
  Py.chr_eqb c ","%char || Py.isspace c || Py.chr_eqb c ";"%char.

(** One stripped, non-empty line of a TXT upload. *)
Definition txt_line (ln : str) : list (list str) :=
  if Py.contains_chr ";"%char ln then
    let partes := map Py.strip (Py.split_chr ";"%char ln) in
    let email := Py.lower (if 1 <=? List.length partes then nth 0 partes [] else []) in
    let name := if 2 <=? List.length partes then nth 1 partes [] else [] in
    let tags_ := if 3 <=? List.length partes
                 then Py.join (lit ";") (skipn 2 partes) else [] in
    [[email; name; tags_]]
  else
    let tokens := Re.split_runs token_sep ln in
    map (fun tok => [tok; []; []])
        (map (fun t => Py.lower (Py.strip t))
             (filter (fun t => Py.truthy (Py.strip t)) tokens)).

Definition txt_rows (text : str) : list (list str) :=
  flat_map txt_line
    (map Py.strip (filter (fun l => Py.truthy (Py.strip l)) (Py.splitlines text))).

(** [pd.DataFrame(rows)] for a list of dicts with the keys [email],
    [name], [tags]; no dict, no column. *)
Definition frame_of_rows (rs : list (list str)) : DataFrame :=
  match rs with
  | [] => {| columns := []; rows := [] |}
  | _ => {| columns := [lit "email"; lit "name"; lit "tags"]; rows := rs |}
  end.

Definition txt_branch (text : str) : parsed :=
  let df := frame_of_rows (txt_rows text) in
  let step1 :=
    if negb (Pd.empty df) then
      match validate_emails df with
      | None => None
      | Some (df', skipped) => Some (df', skipped)
      end
    else Some (df, 0) in
  match step1 with
  | None => Broke
  | Some (df, skipped) =>
      let df := if negb (Pd.empty df)
                then Pd.drop_duplicates df (lit "email") else df in
      Frame df skipped
  end.

(** The uploaded file: a [.csv] as [pd.read_csv] returns it, a
    [.txt] as its decoded text, or a name with neither ending. *)
Inductive upload : Type :=
| CsvFile : DataFrame -> upload
| TxtFile : str -> upload
| OtherFile : upload.

(** What the block ends on. *)
Inductive shown : Type :=
| ShownError : str -> shown               (* the refusal; nothing below it runs *)
| ShownTraceback : shown                  (* an exception nobody caught *)
| ShownNoValid : shown                    (* "No se detectaron contactos ..." *)
| ShownPreview : DataFrame -> nat -> shown    (* table, warning if [skipped > 0] *)
| ShownImported : nat -> nat -> shown.    (* "Importados {count} contactos." *)

Definition page_contacts_upload (file : upload) (import_pressed : bool)
           (w : World) : shown * World :=
  let branch :=
    match file with
    | CsvFile df => Some (csv_branch df)
    | TxtFile text => Some (txt_branch text)
    | OtherFile => None
    end in
  match branch with
  | Some (Refused msg) => (ShownError msg, w)
  | Some Broke => (ShownTraceback, w)
  | None => (ShownNoValid, w)
  | Some (Frame df skipped) =>
      if negb (Pd.empty df) then
        if import_pressed then
          let '(count, w') := bulk_import_contacts df w in
          (ShownImported count skipped, w')
        else (ShownPreview df skipped, w)
      else (ShownNoValid, w)
  end.

(** *** [page_send] *)

(** [campaign.body.replace("{{name}}", name)] *)
Definition render (body name : str) : str := Py.replace PLACEHOLDER name body.

(** The button "Enviar a TODOS los seleccionados": the [for] loop. *)
Fixpoint send_loop (campaign : Campaign.t) (recipients : list Contact.t)
         (sent_ok : nat) (w : World) : nat * World :=
  match recipients with
  | [] => (sent_ok, w)
  | r :: rest =>
      let personalized := render (Campaign.body campaign)
                                 (Py.or_else (Contact.name r) []) in
      let '((ok, err), w1) :=
        send_email_smtp (Contact.email r) (Campaign.subject campaign) personalized w in
      let status := if ok then SENT else ERROR in
      let w2 := log_send (Some (Campaign.id campaign)) (Some (Contact.id r))
                         (Contact.email r) status err w1 in
      send_loop campaign rest (if ok then S sent_ok else sent_ok) w2
  end.

(** Returns the two numbers of "Enviados OK: {sent_ok}/{len(recipients)}". *)
Definition page_send_all (campaign : Campaign.t) (recipients : list Contact.t)
           (w : World) : (nat * nat) * World :=
  let '(sent_ok, w') := send_loop campaign recipients 0 w in
  ((sent_ok, List.length recipients), w').

(** The button "Enviar PRUEBA"; [None] stands for the hint to type
    an address, else the transport's answer. *)
Definition page_send_test (campaign : Campaign.t) (test_email : str) (w : World)
  : option (bool * str) * World :=
  if Py.truthy test_email then
    let body := render (Campaign.body campaign) (lit "Prueba") in
    let '((ok, err), w1) :=
      send_email_smtp test_email (Campaign.subject campaign) body w in
    let status := if ok then SENT else ERROR in
    let w2 := log_send (Some (Campaign.id campaign)) None test_email status err w1 in
    (Some (ok, err), w2)
  else (None, w).

End App.

(** ** The rest of the pages *)

Module PyNum.

(** [str.isdigit] on one code point: 0-9 and the superscripts two,
    three and one of Latin-1. *)
Definition isdigit_chr (c : ascii) : bool :=
  Py.between 48 57 c
  || (Py.code c =? 178) || (Py.code c =? 179) || (Py.code c =? 185).

(** [s.isdigit()]: at least one character, digits all. *)
Definition isdigit (s : str) : bool := Py.truthy s && forallb isdigit_chr s.

Definition digit_value (c : ascii) : Z := Z.of_nat (Py.code c - 48).

(** [int(s)] for an [s] that passed [isdigit]: the decimal value, or
    [None] for the ValueError that a superscript digit, or more than
    4300 digits, brings. *)
Definition int_of_digits (s : str) : option Z :=
  if forallb (Py.between 48 57) s && (List.length s <=? 4300)
  then Some (fold_left (fun acc c => (acc * 10 + digit_value c)%Z) s 0%Z)
  else None.

(** The largest integer SQLite stores; binding a larger one raises
    OverflowError. *)
Definition SQLITE_MAX : Z := 9223372036854775807.

End PyNum.

(** UPDATE of one contact by id.  The row keeps [created_at]; the
    UNIQUE column refuses an address another row holds. *)
Definition execute_update_contact (rid : Z) (email name tags : str) (d : DB)
  : DB * outcome unit :=
  let hit := filter (fun c => Z.eqb (Contact.id c) rid) (contacts d) in
  let others := filter (fun c => negb (Z.eqb (Contact.id c) rid)) (contacts d) in
  let refused := (d, Raised (lit "UNIQUE constraint failed: contacts.email")) in
  match hit with
  | [] => (d, Returned tt)
  | [_] =>
      if existsb (fun c => Py.str_eqb (Contact.email c) email) others then refused
      else
        ({| contacts :=
              map (fun c => if Z.eqb (Contact.id c) rid
                            then Contact.mk rid (Some name) email (Some tags)
                                            (Contact.created_at c)
                            else c) (contacts d);
            contacts_seq := contacts_seq d;
            sends := sends d;
            sends_seq := sends_seq d |}, Returned tt)
  | _ :: _ :: _ => refused
  end.

(** DELETE of the contacts with one id; AUTOINCREMENT does not give
    the id out again. *)
Definition execute_delete_contact (rid : Z) (d : DB) : DB :=
  {| contacts := filter (fun c => negb (Z.eqb (Contact.id c) rid)) (contacts d);
     contacts_seq := contacts_seq d;
     sends := sends d;
     sends_seq := sends_seq d |}.

(** The table [campaigns]. *)
Record CampaignTable : Type := mkCampaigns {
  campaign_rows : list Campaign.t;
  campaigns_seq : Z
}.

(** A row of the table editor, each cell as [str] gives it. *)
Record EditedRow : Type := mkEdited {
  ed_id : Z;
  ed_email : str;
  ed_name : str;
  ed_tags : str
}.

(** The entries of [errors], before they are put into words. *)
Inductive edit_error : Type :=
| InvalidEmail : Z -> str -> edit_error      (* "ID {rid}: email ... '{new_email}'" *)
| UpdateFailed : Z -> str -> edit_error.     (* "ID {rid}: {e}" *)

(** One line of the history: id, time, status, error, address, and the
    subject of the campaign when there is one. *)
Record HistoryRow : Type := mkHistory {
  h_id : Z;
  h_sent_at : str;
  h_status : str;
  h_error : str;
  h_email : str;
  h_subject : option str
}.

Section Pages.

Variable utcnow : nat -> str.

(** *** [page_contacts]: the form for one contact (lines 152-164) *)

Inductive form_notice : Type :=
| FormEmailRequired : form_notice
| FormEmailInvalid : form_notice
| FormSaved : str -> form_notice
| FormRaised : str -> form_notice.

Definition page_contacts_add (name email tags : str) (w : World)
  : form_notice * World :=
  if negb (Py.truthy email) then (FormEmailRequired, w)
  else if negb (is_valid_email (Some email)) then (FormEmailInvalid, w)
  else match insert_contact utcnow name email tags w with
       | (w', Returned _) => (FormSaved email, w')
       | (w', Raised e) => (FormRaised e, w')
       end.

(** *** [page_contacts]: saving the table editor (lines 283-316) *)

(** [original.at[rid, column] != new] for the three columns. *)
Definition row_changed (o : Contact.t) (new_email new_name new_tags : str) : bool :=
  negb (Py.str_eqb (Contact.email o) new_email)
  || match Contact.name o with
     | Some n => negb (Py.str_eqb n new_name)
     | None => true
     end
  || match Contact.tags o with
     | Some t => negb (Py.str_eqb t new_tags)
     | None => true
     end.

(** The loop over the edited rows; [None] when [original.at] finds no
    row with the id and raises KeyError. *)
Fixpoint save_loop (original : list Contact.t) (edited : list EditedRow)
         (updates : nat) (errors : list edit_error) (d : DB)
  : option (nat * list edit_error * DB) :=
  match edited with
  | [] => Some (updates, errors, d)
  | row :: rest =>
      let rid := ed_id row in
      let new_email := Py.lower (Py.strip (ed_email row)) in
      let new_name := Py.strip (ed_name row) in
      let new_tags := Py.strip (ed_tags row) in
      if negb (is_valid_email (Some new_email)) then
        save_loop original rest updates (errors ++ [InvalidEmail rid new_email]) d
      else
        match find (fun c => Z.eqb (Contact.id c) rid) original with
        | None => None
        | Some o =>
            if row_changed o new_email new_name new_tags then
              match execute_update_contact rid new_email new_name new_tags d with
              | (d', Returned _) => save_loop original rest (S updates) errors d'
              | (d', Raised e) =>
                  save_loop original rest updates (errors ++ [UpdateFailed rid e]) d'
              end
            else save_loop original rest updates errors d
        end
  end.

Inductive save_notice : Type :=
| SaveDone : nat -> list edit_error -> save_notice
| SaveKeyError : save_notice.

(** [original] is the table as read for this run of the page; the
    commit comes after the loop, so a KeyError loses what the loop had
    written. *)
Definition page_contacts_save (edited : list EditedRow) (w : World)
  : save_notice * World :=
  match save_loop (contacts (db w)) edited 0 [] (db w) with
  | Some (updates, errors, d') => (SaveDone updates errors, with_db w d')
  | None => (SaveKeyError, w)
  end.

(** *** [page_contacts]: deleting by id (lines 326-334) *)

Inductive delete_notice : Type :=
| DeleteDone : str -> delete_notice
| DeleteNeedsNumber : delete_notice
| DeleteRaised : delete_notice.

Definition page_contacts_delete_by_id (delete_id : str) (w : World)
  : delete_notice * World :=
  if PyNum.isdigit delete_id then
    match PyNum.int_of_digits delete_id with
    | None => (DeleteRaised, w)
    | Some n =>
        if (n <=? PyNum.SQLITE_MAX)%Z
        then (DeleteDone delete_id, with_db w (execute_delete_contact n (db w)))
        else (DeleteRaised, w)
    end
  else (DeleteNeedsNumber, w).

(** *** [page_campaigns] (lines 90-97 and 364-376) *)

Definition insert_campaign (subject body : str) (w : World) (t : CampaignTable)
  : World * CampaignTable :=
  let now := utcnow (clock w) in
  let rowid := (campaigns_seq t + 1)%Z in
  (tick w,
   {| campaign_rows := campaign_rows t ++ [Campaign.mk rowid (Py.strip subject) body now];
      campaigns_seq := rowid |}).

(** The form: [true] for "created", [false] for the refusal. *)
Definition page_campaigns_submit (subject body : str) (w : World) (t : CampaignTable)
  : bool * (World * CampaignTable) :=
  if Py.truthy subject && Py.truthy body
  then (true, insert_campaign subject body w t)
  else (false, (w, t)).

End Pages.

(** *** The history (lines 423-427, 445-449, 470-474) *)

(** [sends s LEFT JOIN campaigns c ON s.campaign_id = c.id]: a send
    pairs with every campaign of its id, or stands alone. *)
Definition left_join_campaigns (t : CampaignTable) (s : SendRecord.t)
  : list HistoryRow :=
  let line := mkHistory (SendRecord.id s) (SendRecord.sent_at s) (SendRecord.status s)
                        (SendRecord.error s) (SendRecord.email s) in
  match SendRecord.campaign_id s with
  | None => [line None]
  | Some cid =>
      match filter (fun c => Z.eqb (Campaign.id c) cid) (campaign_rows t) with
      | [] => [line None]
      | cs => map (fun c => line (Some (Campaign.subject c))) cs
      end
  end.

(** [ORDER BY s.id DESC], by insertion. *)
Fixpoint insert_desc (x : HistoryRow) (l : list HistoryRow) : list HistoryRow :=
  match l with
  | [] => [x]
  | y :: rest => if (h_id y <? h_id x)%Z then x :: l else y :: insert_desc x rest
  end.

Definition order_by_id_desc (l : list HistoryRow) : list HistoryRow :=
  fold_right insert_desc [] l.

(** The query behind [sends_df], [LIMIT 500] included. *)
Definition sends_history (t : CampaignTable) (d : DB) : list HistoryRow :=
  firstn 500 (order_by_id_desc (flat_map (left_join_campaigns t) (sends d))).

(** * Vocabulary of the statements *)

(** A character that can occur in a string of the email shape. *)
Definition shape_chr (c : ascii) : bool :=
  local_class c || Py.chr_eqb c "@"%char.

(** [pat] occurs somewhere in [s]. *)
Definition occurs (pat s : str) : Prop := exists u v, s = u ++ pat ++ v.

(** The attempt [send_email_smtp] makes for one message. *)
Definition attempt_of (cfg : Config) (to_email subject body_html : str) : SmtpAttempt :=
  {| att_host := Py.or_else (SMTP_HOST cfg) [];
     att_port := SMTP_PORT cfg;
     att_user := Py.or_else (SMTP_USER cfg) [];
     att_pass := Py.or_else (SMTP_PASS cfg) [];
     att_from_name := FROM_NAME cfg;
     att_from_email := FROM_EMAIL cfg;
     att_to := to_email;
     att_subject := subject;
     att_body_html := body_html |}.

(** The attempt the send loop makes for recipient [r]. *)
Definition attempt_for (cfg : Config) (campaign : Campaign.t) (r : Contact.t)
  : SmtpAttempt :=
  attempt_of cfg (Contact.email r) (Campaign.subject campaign)
    (render (Campaign.body campaign) (Py.or_else (Contact.name r) [])).

(** The transport's answers to the recipients in turn, the log left
    aside: the transport does not read the database. *)
Fixpoint transport_answers (smtp_try : list SmtpAttempt -> SmtpAttempt -> option str)
         (cfg : Config) (campaign : Campaign.t) (recipients : list Contact.t)
         (w : World) : list (bool * str) :=
  match recipients with
  | [] => []
  | r :: rest =>
      let '(answer, w1) :=
        send_email_smtp smtp_try cfg (Contact.email r) (Campaign.subject campaign)
          (render (Campaign.body campaign) (Py.or_else (Contact.name r) [])) w in
      answer :: transport_answers smtp_try cfg campaign rest w1
  end.

(** The rows of [sends] a run over [recipients] is to leave, given the
    transport's answers, the last id handed out and the clock. *)
Fixpoint logged (utcnow : nat -> str) (campaign_id : Z)
         (recipients : list Contact.t) (answers : list (bool * str))
         (seq : Z) (clk : nat) : list SendRecord.t :=
  match recipients, answers with
  | r :: rest, a :: answers' =>
      SendRecord.mk (seq + 1) (Some campaign_id) (Some (Contact.id r))
                    (Contact.email r) (if fst a then SENT else ERROR) (snd a)
                    (utcnow clk)
      :: logged utcnow campaign_id rest answers' (seq + 1) (S clk)
  | _, _ => []
  end.

Definition has_status (s : str) (r : SendRecord.t) : bool :=
  Py.str_eqb (SendRecord.status r) s.

Definition failed (a : bool * str) : bool := negb (fst a).

(** The rows of [sends] that [w'] has beyond those of [w]. *)
Definition appended_sends (w w' : World) : list SendRecord.t :=
  skipn (List.length (sends (db w))) (sends (db w')).

(** ** Sample data *)

Definition empty_world : World :=
  {| db := {| contacts := []; contacts_seq := 0; sends := []; sends_seq := 0 |};
     clock := 0;
     attempts := [] |}.

Definition sample_clock (n : nat) : str := lit "2024-01-01T00:00:00".

(** No variable set: the demo as it starts out of the box. *)
Definition bare_env : environ := fun _ => None.

(** Host, user and password set, [FROM_EMAIL] left unset. *)
Definition smtp_env : environ :=
  fun key =>
    if Py.str_eqb key (lit "SMTP_HOST") then Some (lit "smtp.example.com")
    else if Py.str_eqb key (lit "SMTP_USER") then Some (lit "ana@example.com")
    else if Py.str_eqb key (lit "SMTP_PASS") then Some (lit "secret")
    else None.

Definition server_down (_ : list SmtpAttempt) (_ : SmtpAttempt) : option str :=
  Some (lit "Connection refused").

Definition server_up (_ : list SmtpAttempt) (_ : SmtpAttempt) : option str := None.

Definition sample_campaign : Campaign.t :=
  Campaign.mk 7 (lit "Hola") (lit "Hola {{name}}") (lit "2024-01-01T00:00:00").

(** A row of [sends] as the handlers write it under [cfg]: SENT with
    the text a successful transport returns, or ERROR. *)
Definition record_ok (cfg : Config) (r : SendRecord.t) : Prop :=
  (SendRecord.status r = SENT
   /\ SendRecord.error r = if credentials_set cfg then [] else SIMULATED)
  \/ SendRecord.status r = ERROR.

(** A server that turns down one address and takes the others. *)
Definition server_rejecting (bad : str) (_ : list SmtpAttempt) (a : SmtpAttempt)
  : option str :=
  if Py.str_eqb (att_to a) bad then Some (lit "550 mailbox unavailable") else None.

Definition sample_recipients : list Contact.t :=
  [Contact.mk 1 (Some (lit "Ana")) (lit "ana@example.com") (Some []) (lit "t1");
   Contact.mk 2 None (lit "bob@example.org") (Some []) (lit "t2");
   Contact.mk 3 (Some []) (lit "eve@example.net") (Some []) (lit "t3")].

(** A store that holds Ana already. *)
Definition world_with_ana : World :=
  {| db := {| contacts := [Contact.mk 1 (Some (lit "Ana")) (lit "ana@example.com")
                                      (Some (lit "vip")) (lit "2023-12-31T09:00:00")];
              contacts_seq := 1;
              sends := [];
              sends_seq := 0 |};
     clock := 0;
     attempts := [] |}.

(** The address [bulk_import_contacts] reads off a row. *)
Definition row_email (str_of_series : list str -> str) (cols : list str)
           (row : list str) : str :=
  Py.lower (Py.strip (row_get str_of_series cols row "email" [])).

(** [if email:] for the address of a row. *)
Definition has_address (str_of_series : list str -> str) (cols : list str)
           (row : list str) : bool :=
  Py.truthy (row_email str_of_series cols row).

(** The rows whose address is not empty: the ones the import tries. *)
Definition attempted (str_of_series : list str -> str) (df : DataFrame)
  : list (list str) :=
  filter (has_address str_of_series (columns df)) (rows df).

(** The call of [insert_contact] that the import makes for a row it
    tries, and the world that call leaves. *)
Definition insert_row (utcnow : nat -> str) (str_of_series : list str -> str)
           (cols : list str) (w : World) (row : list str) : World :=
  fst (insert_contact utcnow
         (Py.strip (row_get str_of_series cols row "name" []))
         (row_email str_of_series cols row)
         (Py.strip (row_get str_of_series cols row "tags" [])) w).

(** A database in which one more contact id is used up and no row has
    changed: what an insert leaves when its address is held already. *)
Definition id_used_up (d : DB) : DB :=
  {| contacts := contacts d;
     contacts_seq := (contacts_seq d + 1)%Z;
     sends := sends d;
     sends_seq := sends_seq d |}.

(** The addresses of a run of inserts that become rows of a table
    holding the addresses [held]: each address that is not held yet,
    once, at the place where it first comes. *)
Fixpoint new_addresses (held : list str) (offered : list str) : list str :=
  match offered with
  | [] => []
  | e :: rest =>
      if existsb (fun x => Py.str_eqb x e) held
      then new_addresses held rest
      else e :: new_addresses (held ++ [e]) rest
  end.

Definition no_series (_ : list str) : str := [].

(** A batch of three rows: Ana again under another spelling, a row
    without address, and a new contact. *)
Definition sample_batch : DataFrame :=
  {| columns := [lit "email"; lit "name"; lit "tags"];
     rows := [[lit "ANA@example.com"; lit "Ana"; []];
              [lit "   "; lit "Nobody"; []];
              [lit "bob@example.org"; lit "Bob"; []]] |}.

(** ** Vocabulary of the import statements *)

Definition TXT_COLUMNS : list str := [lit "email"; lit "name"; lit "tags"].

(** The first cell of a TXT row is its address. *)
Definition address (row : list str) : str := hd [] row.

(** A TXT row with its address trimmed and lower-cased. *)
Definition clean_row (row : list str) : list str :=
  match row with
  | [] => []
  | e :: rest => Py.lower (Py.strip e) :: rest
  end.

Definition valid_row (row : list str) : bool := is_valid_email (Some (address row)).

(** No row before position [i] has the address of row [i]. *)
Definition first_with_its_address (l : list (list str)) (i : nat) : bool :=
  negb (existsb (fun r => Py.str_eqb (address r) (address (nth i l []))) (firstn i l)).

(** Deduplication by address as the specification words it: a row
    stays when it is the first with its address, and the rows that stay
    keep their order. *)
Definition keep_first_occurrences (l : list (list str)) : list (list str) :=
  map (fun i => nth i l [])
      (filter (first_with_its_address l) (seq 0 (List.length l))).

(** Every row has one cell per column. *)
Definition well_formed (df : DataFrame) : Prop :=
  Forall (fun r => List.length r = List.length (columns df)) (rows df).

(** Every row of [df] has, under [label], one cell and that cell
    empty. *)
Definition empty_under (label : str) (df : DataFrame) : Prop :=
  Forall (fun r => Pd.cells_at (columns df) r label = [[]]) (rows df).

(** The frame of the CSV branch once the missing columns are added and
    the three columns carry their standard names, [email_col] being the
    column found for [email]. *)
Definition csv_renamed (df : DataFrame) (email_col : str) : DataFrame :=
  let name_col := Pd.cols_lower_get (columns df) (lit "name") in
  let tags_col := Pd.cols_lower_get (columns df) (lit "tags") in
  let df1 := match name_col with
             | None => Pd.assign_scalar df (lit "name") []
             | Some _ => df
             end in
  let df2 := match tags_col with
             | None => Pd.assign_scalar df1 (lit "tags") []
             | Some _ => df1
             end in
  Pd.rename df2 [(email_col, lit "email");
                 (match name_col with None => lit "name" | Some c => c end, lit "name");
                 (match tags_col with None => lit "tags" | Some c => c end, lit "tags")].

(** A CSV without address column, one with only that column, under a
    capitalised header. *)
Definition csv_name_tags : DataFrame :=
  {| columns := [lit "name"; lit "tags"];
     rows := [[lit "Ana"; lit "vip"]; [lit "Bob"; []]] |}.

Definition csv_email_only : DataFrame :=
  {| columns := [lit "Email"];
     rows := [[lit " Ana@Example.com "]; [lit "not an address"]] |}.

(** ** Vocabulary of the further statements *)

(** The rows of [sends] stand in the order of their ids, none above
    the last id handed out. *)
Definition log_ok (d : DB) : Prop :=
  StronglySorted Z.lt (map SendRecord.id (sends d))
  /\ Forall (fun r => (SendRecord.id r <= sends_seq d)%Z) (sends d).

(** A log of two rows, for campaign 7 and for a test. *)
Definition world_with_log : World :=
  {| db := {| contacts := [];
              contacts_seq := 0;
              sends := [SendRecord.mk 1 (Some 7%Z) (Some 1%Z) (lit "ana@example.com")
                                      SENT SIMULATED (lit "t1");
                        SendRecord.mk 4 (Some 7%Z) None (lit "qa@example.com")
                                      ERROR (lit "refused") (lit "t2")];
              sends_seq := 4 |};
     clock := 2;
     attempts := [] |}.

(** The contacts carry pairwise distinct addresses and stand in the
    order of their ids, none above the last id handed out. *)
Definition keys_ok (d : DB) : Prop :=
  NoDup (map Contact.email (contacts d))
  /\ StronglySorted Z.lt (map Contact.id (contacts d))
  /\ Forall (fun c => (Contact.id c <= contacts_seq d)%Z) (contacts d).

(** Every address in the contact table is of the shape. *)
Definition addresses_ok (d : DB) : Prop :=
  Forall (fun c => email_shape (Contact.email c)) (contacts d).

(** A CSV that names Ana twice, under two spellings. *)
Definition csv_ana_twice : DataFrame :=
  {| columns := [lit "email"; lit "name"];
     rows := [[lit "ana@example.com"; lit "Ana"];
              [lit " ANA@example.com"; lit "Ana B."];
              [lit "nobody"; lit "N"]] |}.

(** A contact as the program writes it: the address cleaned and
    accepted by the validator, name and tags present and trimmed. *)
Definition row_clean (c : Contact.t) : Prop :=
  is_valid_email (Some (Contact.email c)) = true
  /\ Py.lower (Py.strip (Contact.email c)) = Contact.email c
  /\ (exists n, Contact.name c = Some n /\ Py.strip n = n)
  /\ (exists t, Contact.tags c = Some t /\ Py.strip t = t).

Definition rows_clean (d : DB) : Prop := Forall row_clean (contacts d).

(** The row of the table editor for a contact nobody touched. *)
Definition as_edited (c : Contact.t) : EditedRow :=
  {| ed_id := Contact.id c;
     ed_email := Contact.email c;
     ed_name := match Contact.name c with Some n => n | None => lit "None" end;
     ed_tags := match Contact.tags c with Some t => t | None => lit "None" end |}.

(** Ana and Bob, as the form would have stored them. *)
Definition world_with_two : World :=
  {| db := {| contacts := [Contact.mk 1 (Some (lit "Ana")) (lit "ana@example.com")
                                      (Some (lit "vip")) (lit "2023-12-31T09:00:00");
                           Contact.mk 2 (Some (lit "Bob")) (lit "bob@example.org")
                                      (Some []) (lit "2023-12-31T09:05:00")];
              contacts_seq := 2;
              sends := [];
              sends_seq := 0 |};
     clock := 2;
     attempts := [] |}.

(** The campaigns stand in the order of their ids, none above the
    last id handed out. *)
Definition campaigns_ok (t : CampaignTable) : Prop :=
  StronglySorted Z.lt (map Campaign.id (campaign_rows t))
  /\ Forall (fun c => (Campaign.id c <= campaigns_seq t)%Z) (campaign_rows t).

(** The line of the history for one send: the subject of its campaign
    when the campaign is there. *)
Definition history_line (t : CampaignTable) (s : SendRecord.t) : HistoryRow :=
  mkHistory (SendRecord.id s) (SendRecord.sent_at s) (SendRecord.status s)
            (SendRecord.error s) (SendRecord.email s)
            match SendRecord.campaign_id s with
            | None => None
            | Some cid =>
                option_map Campaign.subject
                  (find (fun c => Z.eqb (Campaign.id c) cid) (campaign_rows t))
            end.

Definition no_campaigns : CampaignTable :=
  {| campaign_rows := []; campaigns_seq := 0 |}.

Definition one_campaign : CampaignTable :=
  {| campaign_rows := [sample_campaign]; campaigns_seq := 7 |}.

(** * Theorems *)

(** Splits a conjunction into all its parts, and nothing else. *)
Ltac split_all := repeat match goal with |- _ /\ _ => split end.

(** ** Strings *)

Lemma chr_eqb_eq (a b : ascii) : Py.chr_eqb a b = true <-> a = b.
Proof. unfold Py.chr_eqb. apply Ascii.eqb_eq. Qed.

Lemma str_eqb_eq (a b : str) : Py.str_eqb a b = true <-> a = b.
Proof.
  revert b. induction a as [|x a IH]; intros [|y b]; simpl; split;
    try congruence; try reflexivity.
  - intros H. apply andb_true_iff in H as [Hx Hs].
    apply chr_eqb_eq in Hx. apply IH in Hs. congruence.
  - intros H. injection H as -> ->. apply andb_true_iff. split.
    + now apply chr_eqb_eq.
    + now apply IH.
Qed.

Lemma str_eqb_refl (a : str) : Py.str_eqb a a = true.
Proof. now apply str_eqb_eq. Qed.

Lemma str_eqb_neq (a b : str) : Py.str_eqb a b = false <-> a <> b.
Proof.
  split.
  - intros H E. apply str_eqb_eq in E. congruence.
  - intros H. destruct (Py.str_eqb a b) eqn:E; [|reflexivity].
    apply str_eqb_eq in E. contradiction.
Qed.

Lemma or_else_some_nil (s : str) : Py.or_else (Some s) [] = s.
Proof. destruct s; reflexivity. Qed.

(** ** Regular expressions: the matcher decides the language *)

Module ReFacts.
Import Re.

Lemma lang_void s : ~ lang Void s.
Proof. intros H. inversion H. Qed.

Lemma lang_eps_iff s : lang Eps s <-> s = [].
Proof. split; [intros H; now inversion H | intros ->; constructor]. Qed.

Lemma lang_class_iff p s : lang (Class p) s <-> exists c, s = [c] /\ p c = true.
Proof.
  split.
  - intros H. inversion H; subst. eauto.
  - intros (c & -> & Hc). now constructor.
Qed.

Lemma lang_cat_iff a b s :
  lang (Cat a b) s <-> exists u v, s = u ++ v /\ lang a u /\ lang b v.
Proof.
  split.
  - intros H. inversion H; subst. eauto.
  - intros (u & v & -> & Ha & Hb). now constructor.
Qed.

Lemma lang_alt_iff a b s : lang (Alt a b) s <-> lang a s \/ lang b s.
Proof.
  split.
  - intros H. inversion H; subst; auto.
  - intros [H|H]; [now apply lang_alt_l | now apply lang_alt_r].
Qed.

Lemma nullable_lang r : nullable r = true <-> lang r [].
Proof.
  induction r as [| |p|a IHa b IHb|a IHa b IHb|a IHa]; simpl.
  - split; [discriminate | intros H; inversion H].
  - split; [constructor | reflexivity].
  - split; [discriminate | intros H; inversion H].
  - rewrite andb_true_iff, IHa, IHb, lang_cat_iff. split.
    + intros [Ha Hb]. exists [], []. auto.
    + intros (u & v & E & Ha & Hb). symmetry in E.
      apply app_eq_nil in E as [-> ->]. auto.
  - rewrite orb_true_iff, IHa, IHb, lang_alt_iff. tauto.
  - split; [constructor | reflexivity].
Qed.

(** A non-empty word of [a*] starts with a non-empty word of [a]. *)
Lemma lang_star_cons a c s :
  lang (Star a) (c :: s) ->
  exists u v, s = u ++ v /\ lang a (c :: u) /\ lang (Star a) v.
Proof.
  intros H. remember (Star a) as r eqn:Er. remember (c :: s) as w eqn:Ew.
  revert a c s Er Ew.
  induction H as [ |p x Hx|a0 b u v Hu _ Hv _|a0 b u Hu _|a0 b u Hu _
                  |a0|a0 u v Hu _ Hv IHv]; intros a c s Er Ew; try discriminate.
  injection Er as ->.
  destruct u as [|x u].
  - simpl in Ew. now apply IHv.
  - simpl in Ew. injection Ew as -> <-. eauto.
Qed.

Lemma deriv_lang c r s : lang (deriv c r) s <-> lang r (c :: s).
Proof.
  revert s. induction r as [| |p|a IHa b IHb|a IHa b IHb|a IHa]; intros s; simpl.
  - split; intros H; inversion H.
  - split; intros H; inversion H.
  - destruct (p c) eqn:Hp.
    + rewrite lang_eps_iff, lang_class_iff. split.
      * intros ->. eauto.
      * intros (x & E & _). now injection E.
    + rewrite lang_class_iff. split.
      * intros H. inversion H.
      * intros (x & E & Hx). injection E as <- _. congruence.
  - assert (Hcat : lang (Cat (deriv c a) b) s <->
                   exists u v, s = u ++ v /\ lang a (c :: u) /\ lang b v).
    { rewrite lang_cat_iff. split; intros (u & v & E & Ha & Hb);
        exists u, v; repeat split; auto; now apply IHa. }
    destruct (nullable a) eqn:Na.
    + rewrite lang_alt_iff, Hcat, IHb, lang_cat_iff. split.
      * intros [(u & v & -> & Ha & Hb) | Hb].
        -- exists (c :: u), v. auto.
        -- exists [], (c :: s). repeat split; auto. now apply nullable_lang.
      * intros (u & v & E & Ha & Hb). destruct u as [|x u].
        -- simpl in E. subst v. now right.
        -- simpl in E. injection E as <- ->. left. eauto.
    + rewrite Hcat, lang_cat_iff. split.
      * intros (u & v & -> & Ha & Hb). exists (c :: u), v. auto.
      * intros (u & v & E & Ha & Hb). destruct u as [|x u].
        -- apply nullable_lang in Ha. congruence.
        -- simpl in E. injection E as <- ->. eauto.
  - rewrite !lang_alt_iff, IHa, IHb. tauto.
  - rewrite lang_cat_iff. split.
    + intros (u & v & -> & Ha & Hs). apply IHa in Ha.
      change (c :: u ++ v) with ((c :: u) ++ v). now constructor.
    + intros H. apply lang_star_cons in H as (u & v & -> & Ha & Hs).
      exists u, v. repeat split; auto. now apply IHa.
Qed.

Lemma accepts_lang r s : accepts r s = true <-> lang r s.
Proof.
  revert r. induction s as [|c s IH]; intros r; simpl.
  - apply nullable_lang.
  - rewrite IH. apply deriv_lang.
Qed.

Lemma lang_chr_iff c s : lang (Chr c) s <-> s = [c].
Proof.
  unfold Chr. rewrite lang_class_iff. split.
  - intros (x & -> & Hx). apply chr_eqb_eq in Hx. now subst.
  - intros ->. exists c. split; [reflexivity | now apply chr_eqb_eq].
Qed.

Lemma lang_star_class p s : lang (Star (Class p)) s <-> forallb p s = true.
Proof.
  split.
  - induction s as [|c s IH]; intros H; [reflexivity|].
    apply lang_star_cons in H as (u & v & -> & Hc & Hv).
    apply lang_class_iff in Hc as (x & E & Hx). injection E as -> ->.
    simpl in *. rewrite Hx. now apply IH.
  - induction s as [|c s IH]; intros H; [constructor|].
    simpl in H. apply andb_true_iff in H as [Hc Hs].
    change (c :: s) with ([c] ++ s). constructor; [now constructor | auto].
Qed.

Lemma lang_plus_class p s :
  lang (Plus (Class p)) s <-> s <> [] /\ forallb p s = true.
Proof.
  unfold Plus. rewrite lang_cat_iff. split.
  - intros (u & v & -> & Hu & Hv). apply lang_class_iff in Hu as (c & -> & Hc).
    apply lang_star_class in Hv. simpl. rewrite Hc. split; [discriminate | auto].
  - intros [Hne H]. destruct s as [|c s]; [contradiction|].
    simpl in H. apply andb_true_iff in H as [Hc Hs].
    exists [c], s. repeat split; [now constructor | now apply lang_star_class].
Qed.

Lemma lang_atleast_class n p s :
  lang (AtLeast n (Class p)) s <-> n <= List.length s /\ forallb p s = true.
Proof.
  revert s. induction n as [|n IH]; intros s; simpl.
  - rewrite lang_star_class. split; [intros H; split; [lia | auto] | tauto].
  - rewrite lang_cat_iff. split.
    + intros (u & v & -> & Hu & Hv). apply lang_class_iff in Hu as (c & -> & Hc).
      apply IH in Hv as [Hn Hv]. simpl. rewrite Hc. split; [lia | auto].
    + intros [Hn H]. destruct s as [|c s]; [simpl in Hn; lia|].
      simpl in H, Hn. apply andb_true_iff in H as [Hc Hs].
      exists [c], s. repeat split; [now constructor|]. apply IH. split; [lia | auto].
Qed.

Lemma lang_dollar_iff s : lang Dollar s <-> s = [] \/ s = ["010"%char].
Proof. unfold Dollar. now rewrite lang_alt_iff, lang_eps_iff, lang_chr_iff. Qed.

End ReFacts.

(** ** The email validator *)

Lemma email_body_shape (s : str) : Re.lang EMAIL_BODY s <-> email_shape s.
Proof.
  unfold EMAIL_BODY, email_shape. split.
  - intros H.
    apply ReFacts.lang_cat_iff in H as (loc & r1 & -> & Hloc & H).
    apply ReFacts.lang_cat_iff in H as (at_ & r2 & -> & Hat & H).
    apply ReFacts.lang_cat_iff in H as (dom & r3 & -> & Hdom & H).
    apply ReFacts.lang_cat_iff in H as (dot & tld & -> & Hdot & Htld).
    apply ReFacts.lang_chr_iff in Hat, Hdot. subst at_ dot.
    apply ReFacts.lang_plus_class in Hloc as [? ?], Hdom as [? ?].
    apply ReFacts.lang_atleast_class in Htld as [? ?].
    exists loc, dom, tld. simpl. repeat split; auto.
  - intros (loc & dom & tld & -> & Hl1 & Hl2 & Hd1 & Hd2 & Ht1 & Ht2).
    apply ReFacts.lang_cat_iff. exists loc, ("@"%char :: dom ++ "."%char :: tld).
    repeat split; [now apply ReFacts.lang_plus_class|].
    apply ReFacts.lang_cat_iff. exists ["@"%char], (dom ++ "."%char :: tld).
    repeat split; [now apply ReFacts.lang_chr_iff|].
    apply ReFacts.lang_cat_iff. exists dom, ("."%char :: tld).
    repeat split; [now apply ReFacts.lang_plus_class|].
    apply ReFacts.lang_cat_iff. exists ["."%char], tld.
    repeat split; [now apply ReFacts.lang_chr_iff|].
    now apply ReFacts.lang_atleast_class.
Qed.

(** What the validator accepts: the shape, or the shape followed by
    one newline. *)
Lemma is_valid_email_accepts (s : str) :
  is_valid_email (Some s) = true <->
  email_shape s \/ exists t, s = t ++ ["010"%char] /\ email_shape t.
Proof.
  unfold is_valid_email, Re.match_anchored. rewrite or_else_some_nil.
  rewrite ReFacts.accepts_lang, ReFacts.lang_cat_iff. split.
  - intros (u & v & -> & Hu & Hv). apply email_body_shape in Hu.
    apply ReFacts.lang_dollar_iff in Hv as [-> | ->].
    + left. now rewrite app_nil_r.
    + right. eauto.
  - intros [H | (t & -> & H)].
    + exists s, []. rewrite app_nil_r. repeat split.
      * now apply email_body_shape.
      * apply ReFacts.lang_dollar_iff. now left.
    + exists t, ["010"%char]. repeat split.
      * now apply email_body_shape.
      * apply ReFacts.lang_dollar_iff. now right.
Qed.

Lemma domain_class_local (c : ascii) : domain_class c = true -> local_class c = true.
Proof.
  unfold domain_class, local_class. intros H.
  apply orb_true_iff in H as [H | H]; [now rewrite H|].
  apply orb_true_iff. right. simpl in *.
  repeat (apply orb_true_iff in H as [H | H]; [rewrite H; now rewrite ?orb_true_r|]).
  discriminate.
Qed.

Lemma is_alpha_local (c : ascii) : is_alpha c = true -> local_class c = true.
Proof. unfold local_class, is_alnum. now intros ->. Qed.

Lemma forallb_impl {A : Type} (p q : A -> bool) (l : list A) :
  (forall x, p x = true -> q x = true) -> forallb p l = true -> forallb q l = true.
Proof.
  intros Hpq H. apply forallb_forall. intros x Hx.
  apply Hpq. eapply forallb_forall in H; eauto.
Qed.

(** Every character of a well-shaped address is from the local class
    or is the at sign. *)
Lemma email_shape_chars (s : str) : email_shape s -> forallb shape_chr s = true.
Proof.
  intros (loc & dom & tld & -> & _ & Hl & _ & Hd & _ & Ht).
  assert (L : forall x, local_class x = true -> shape_chr x = true).
  { intros x Hx. unfold shape_chr. now rewrite Hx. }
  rewrite forallb_app. simpl. rewrite forallb_app. simpl.
  rewrite (forallb_impl _ _ _ L Hl).
  rewrite (forallb_impl _ shape_chr _ (fun x H => L x (domain_class_local x H)) Hd).
  rewrite (forallb_impl _ shape_chr _ (fun x H => L x (is_alpha_local x H)) Ht).
  reflexivity.
Qed.

Lemma email_shape_has_at (s : str) : email_shape s -> In "@"%char s.
Proof.
  intros (loc & dom & tld & -> & _). apply in_or_app. right. now left.
Qed.

(** The validator turns down the empty string and [None]. *)
Lemma is_valid_email_empty :
  is_valid_email (Some []) = false /\ is_valid_email None = false.
Proof. split; reflexivity. Qed.

(** The validator turns down every string without an at sign. *)
Lemma is_valid_email_needs_at (s : str) :
  ~ In "@"%char s -> is_valid_email (Some s) = false.
Proof.
  intros H. destruct (is_valid_email (Some s)) eqn:E; [|reflexivity].
  apply is_valid_email_accepts in E as [E | (t & -> & E)];
    apply email_shape_has_at in E; exfalso; apply H; auto.
  apply in_or_app. now left.
Qed.

(** The validator turns down every string with a space in it. *)
Lemma is_valid_email_no_space (s : str) :
  In " "%char s -> is_valid_email (Some s) = false.
Proof.
  intros H. destruct (is_valid_email (Some s)) eqn:E; [|reflexivity].
  exfalso.
  assert (Hs : forall t, email_shape t -> ~ In " "%char t).
  { intros t Ht Hin. apply email_shape_chars in Ht.
    eapply forallb_forall in Ht; eauto. discriminate. }
  apply is_valid_email_accepts in E as [E | (t & -> & E)].
  - now apply (Hs s).
  - apply in_app_or in H as [H | [H | []]]; [now apply (Hs t) | discriminate].
Qed.

(** A well-shaped address has no newline in it. *)
Lemma email_shape_no_newline (s : str) : email_shape s -> ~ In "010"%char s.
Proof.
  intros Hs Hin. apply email_shape_chars in Hs.
  eapply forallb_forall in Hs; eauto. discriminate.
Qed.

(** C1: the validator is meant to accept exactly the strings of the
    [local@domain.tld] shape, but its closing [$] also matches before a
    final newline: ["a@b.co\n"] is accepted although it is not of the
    shape. *)
Theorem is_valid_email_trailing_newline :
  is_valid_email (Some (lit "a@b.co" ++ ["010"%char])) = true
  /\ ~ email_shape (lit "a@b.co" ++ ["010"%char]).
Proof.
  split; [reflexivity|].
  intros H. apply email_shape_no_newline in H. apply H.
  apply in_or_app. right. now left.
Qed.

(** ** [str.replace] and the template *)

Lemma replace_from_skip (old new u rest : str) :
  Py.replace_from old new (List.length u) (u ++ rest)
  = Py.replace_from old new 0 rest.
Proof. induction u as [|x u IH]; simpl; [reflexivity | exact IH]. Qed.

Section Replace.

Variables old new : str.
Hypothesis old_not_empty : old <> [].

Lemma startswith_iff (p s : str) :
  Py.startswith p s = true <-> exists rest, s = p ++ rest.
Proof.
  revert s. induction p as [|x p IH]; intros s; simpl.
  - split; [eauto | reflexivity].
  - destruct s as [|y s].
    + split; [discriminate | intros (r & E); discriminate].
    + rewrite andb_true_iff, chr_eqb_eq, IH. split.
      * intros (-> & r & ->). eauto.
      * intros (r & E). injection E as -> ->. eauto.
Qed.

Lemma replace_from_match (rest : str) :
  Py.replace_from old new 0 (old ++ rest)
  = new ++ Py.replace_from old new 0 rest.
Proof.
  destruct old as [|o old'] eqn:E; [contradiction|].
  change ((o :: old') ++ rest) with (o :: old' ++ rest).
  cbn [Py.replace_from].
  assert (S : Py.startswith (o :: old') (o :: old' ++ rest) = true).
  { apply startswith_iff. now exists rest. }
  rewrite S. cbn [List.length Nat.pred]. now rewrite replace_from_skip.
Qed.

Lemma replace_from_step (c : ascii) (t : str) :
  Py.startswith old (c :: t) = false ->
  Py.replace_from old new 0 (c :: t) = c :: Py.replace_from old new 0 t.
Proof. intros H. cbn [Py.replace_from]. now rewrite H. Qed.

(** Induction along the scan: a match is passed over as a whole, any
    other character one at a time. *)
Lemma scan_ind (P : str -> Prop) :
  P [] ->
  (forall rest, P rest -> P (old ++ rest)) ->
  (forall c t, Py.startswith old (c :: t) = false -> P t -> P (c :: t)) ->
  forall s, P s.
Proof.
  intros Hnil Hmatch Hstep s.
  remember (List.length s) as n eqn:En. revert s En.
  induction n as [n IH] using lt_wf_ind. intros s En.
  destruct s as [|c t]; [exact Hnil|].
  destruct (Py.startswith old (c :: t)) eqn:E.
  - apply startswith_iff in E as (rest & E). rewrite E.
    apply Hmatch. apply (IH (List.length rest)); [|reflexivity].
    subst n. rewrite E, length_app.
    destruct old; [contradiction | simpl; lia].
  - apply Hstep; [exact E|]. apply (IH (List.length t)); [|reflexivity].
    subst n. simpl. lia.
Qed.

Lemma join_cons (sep p : str) (ps : list str) :
  ps <> [] -> Py.join sep (p :: ps) = p ++ sep ++ Py.join sep ps.
Proof. destruct ps; [contradiction | reflexivity]. Qed.

Lemma occurs_start (pre s : str) :
  occurs old pre ->
  exists i, i < List.length pre /\ Py.startswith old (skipn i (pre ++ s)) = true.
Proof.
  intros (u & v & ->). exists (List.length u). split.
  - rewrite !length_app. destruct old; [contradiction | simpl; lia].
  - rewrite <- !app_assoc, skipn_app, skipn_all, Nat.sub_diag. simpl.
    apply startswith_iff. eauto.
Qed.

(** The scan cuts [s] at the matches; between the cuts nothing
    matches, and the result is the pieces put together again with
    [new] where [old] was. *)
Lemma replace_from_pieces (s pre : str) :
  (forall i, i < List.length pre -> Py.startswith old (skipn i (pre ++ s)) = false) ->
  exists pieces,
    pieces <> []
    /\ Forall (fun p => ~ occurs old p) pieces
    /\ pre ++ s = Py.join old pieces
    /\ pre ++ Py.replace_from old new 0 s = Py.join new pieces.
Proof.
  revert pre. induction s as [|rest IH|c t Hc IH] using scan_ind; intros pre Hpre.
  - exists [pre]. simpl. rewrite app_nil_r. repeat split; [discriminate|].
    constructor; [|constructor]. intros Ho.
    apply (occurs_start []) in Ho as (i & Hi & Hs).
    rewrite Hpre in Hs; [discriminate | exact Hi].
  - destruct (IH []) as (ps & Hne & Hocc & Hj & Hr).
    { simpl. intros i Hi. lia. }
    exists (pre :: ps). repeat split.
    + discriminate.
    + constructor; [|exact Hocc]. intros Ho.
      apply (occurs_start (old ++ rest)) in Ho as (i & Hi & Hs).
      rewrite Hpre in Hs; [discriminate | exact Hi].
    + rewrite join_cons by exact Hne. simpl in Hj. now rewrite <- Hj.
    + rewrite join_cons by exact Hne. rewrite replace_from_match.
      simpl in Hr. now rewrite <- Hr.
  - destruct (IH (pre ++ [c])) as (ps & Hne & Hocc & Hj & Hr).
    { intros i Hi. rewrite <- app_assoc. simpl.
      rewrite length_app in Hi. simpl in Hi.
      destruct (Nat.eq_dec i (List.length pre)) as [-> | Hneq].
      - rewrite skipn_app, skipn_all, Nat.sub_diag. simpl. exact Hc.
      - apply Hpre. lia. }
    exists ps. repeat split; auto.
    + rewrite <- Hj, <- app_assoc. reflexivity.
    + rewrite <- Hr, <- app_assoc, replace_from_step by exact Hc. reflexivity.
Qed.

End Replace.

(** C7: rendering cuts the body at the occurrences of [{{name}}] and
    puts the recipient's name (the empty string for an absent one) in
    their place: the pieces between the occurrences hold no placeholder
    and come out unchanged.  ["Hi {{name}}!"] gives ["Hi !"] for the
    empty name and ["Hi Ana!"] for Ana. *)
Theorem render_replaces_every_placeholder (body : str) (name : option str) :
  let who := Py.or_else name [] in
  (exists pieces,
      pieces <> []
      /\ Forall (fun p => ~ occurs PLACEHOLDER p) pieces
      /\ body = Py.join PLACEHOLDER pieces
      /\ render body who = Py.join who pieces)
  /\ render (lit "Hi {{name}}!") (Py.or_else (Some []) []) = lit "Hi !"
  /\ render (lit "Hi {{name}}!") (Py.or_else None []) = lit "Hi !"
  /\ render (lit "Hi {{name}}!") (Py.or_else (Some (lit "Ana")) []) = lit "Hi Ana!".
Proof.
  intros who. split; [|repeat split; reflexivity].
  assert (Hne : PLACEHOLDER <> []) by discriminate.
  destruct (replace_from_pieces who Hne body [])
    as (ps & H1 & H2 & H3 & H4).
  { simpl. intros i Hi. lia. }
  exists ps. repeat split; auto.
Qed.

(** ** The mail transport *)

Section Transport.

Variable smtp_try : list SmtpAttempt -> SmtpAttempt -> option str.
Variable cfg : Config.

Lemma send_simulated (to_email subject body : str) (w : World) :
  credentials_set cfg = false ->
  send_email_smtp smtp_try cfg to_email subject body w = ((true, SIMULATED), w).
Proof. intros H. unfold send_email_smtp. now rewrite H. Qed.

Lemma send_real (to_email subject body : str) (w : World) :
  credentials_set cfg = true ->
  send_email_smtp smtp_try cfg to_email subject body w
  = (match smtp_try (attempts w) (attempt_of cfg to_email subject body) with
     | None => (true, [])
     | Some e => (false, e)
     end,
     with_attempt w (attempt_of cfg to_email subject body)).
Proof.
  intros H. unfold send_email_smtp. rewrite H. simpl.
  fold (attempt_of cfg to_email subject body).
  now destruct (smtp_try _ _).
Qed.

(** The transport leaves the database and the clock alone and adds at
    most its own attempt to the trace. *)
Lemma send_frame (to_email subject body : str) (w : World) :
  let w1 := snd (send_email_smtp smtp_try cfg to_email subject body w) in
  db w1 = db w /\ clock w1 = clock w
  /\ attempts w1 = attempts w ++
                   (if credentials_set cfg
                    then [attempt_of cfg to_email subject body] else []).
Proof.
  destruct (credentials_set cfg) eqn:H.
  - rewrite send_real by exact H. simpl. auto.
  - rewrite send_simulated by exact H. simpl. now rewrite app_nil_r.
Qed.

(** Its answer depends on the world through the trace only. *)
Lemma send_answer_ext (to_email subject body : str) (w w' : World) :
  attempts w = attempts w' ->
  fst (send_email_smtp smtp_try cfg to_email subject body w)
  = fst (send_email_smtp smtp_try cfg to_email subject body w').
Proof.
  intros E. destruct (credentials_set cfg) eqn:H.
  - rewrite !send_real by exact H. simpl. now rewrite E.
  - now rewrite !send_simulated by exact H.
Qed.

(** An answer of success carries the empty text or the marker of the
    simulated mode, according to the configuration. *)
Lemma send_success_text (to_email subject body : str) (w : World) :
  let answer := fst (send_email_smtp smtp_try cfg to_email subject body w) in
  fst answer = true ->
  snd answer = if credentials_set cfg then [] else SIMULATED.
Proof.
  destruct (credentials_set cfg) eqn:H.
  - rewrite send_real by exact H. simpl. now destruct (smtp_try _ _).
  - now rewrite send_simulated by exact H.
Qed.

Lemma transport_answers_ext (campaign : Campaign.t) (rs : list Contact.t)
      (w w' : World) :
  attempts w = attempts w' ->
  transport_answers smtp_try cfg campaign rs w
  = transport_answers smtp_try cfg campaign rs w'.
Proof.
  revert w w'. induction rs as [|r rs IH]; intros w w' E; [reflexivity|].
  simpl.
  pose proof (send_answer_ext (Contact.email r) (Campaign.subject campaign)
                (render (Campaign.body campaign) (Py.or_else (Contact.name r) []))
                w w' E) as Ha.
  pose proof (send_frame (Contact.email r) (Campaign.subject campaign)
                (render (Campaign.body campaign) (Py.or_else (Contact.name r) []))
                w) as (_ & _ & A1).
  pose proof (send_frame (Contact.email r) (Campaign.subject campaign)
                (render (Campaign.body campaign) (Py.or_else (Contact.name r) []))
                w') as (_ & _ & A2).
  destruct (send_email_smtp smtp_try cfg _ _ _ w) as [a w1].
  destruct (send_email_smtp smtp_try cfg _ _ _ w') as [a' w1'].
  simpl in *. subst a'. f_equal. apply IH. now rewrite A1, A2, E.
Qed.

Lemma transport_answers_length (campaign : Campaign.t) (rs : list Contact.t)
      (w : World) :
  List.length (transport_answers smtp_try cfg campaign rs w) = List.length rs.
Proof.
  revert w. induction rs as [|r rs IH]; intros w; [reflexivity|].
  simpl. destruct (send_email_smtp _ _ _ _ _ w) as [a w1]. simpl. now rewrite IH.
Qed.

End Transport.

(** C3, as stated, fails: with host, user and password set and
    [FROM_EMAIL] unset, the sender falls back on the user name and the
    transport does go to the network. *)
Lemma unset_from_address_still_sends :
  getenv smtp_env "FROM_EMAIL" = None
  /\ send_email_smtp server_down (load_config smtp_env)
       (lit "bob@example.org") (lit "Hola") (lit "Hola Bob") empty_world
     <> ((true, SIMULATED), empty_world).
Proof. split; [reflexivity | discriminate]. Qed.

(** C3, amended: when the host, the user or the password is unset or
    empty, or [FROM_EMAIL] is set to the empty string, the transport
    answers [(True, "SIMULATED")] and leaves the world as it was: no
    attempt is made. *)
Theorem simulated_without_credentials
        (smtp_try : list SmtpAttempt -> SmtpAttempt -> option str)
        (env : environ) (to_email subject body : str) (w : World) :
  Py.truthy_opt (getenv env "SMTP_HOST") = false
  \/ Py.truthy_opt (getenv env "SMTP_USER") = false
  \/ Py.truthy_opt (getenv env "SMTP_PASS") = false
  \/ getenv env "FROM_EMAIL" = Some [] ->
  send_email_smtp smtp_try (load_config env) to_email subject body w
  = ((true, SIMULATED), w).
Proof.
  intros H. apply send_simulated. unfold credentials_set, load_config. simpl.
  destruct H as [H | [H | [H | H]]].
  - now rewrite H.
  - rewrite H. now rewrite andb_false_r.
  - rewrite H. now rewrite andb_false_r.
  - unfold getenv_default. unfold getenv in H. rewrite H. simpl.
    now rewrite andb_false_r.
Qed.

Lemma simulated_without_credentials_witness :
  send_email_smtp server_down (load_config bare_env)
    (lit "bob@example.org") (lit "Hola") (lit "Hola Bob") empty_world
  = ((true, SIMULATED), empty_world).
Proof.
  apply (simulated_without_credentials server_down bare_env).
  left. reflexivity.
Defined.

(** With the three credentials in place and a sender left, the
    transport makes its attempt whatever the message. *)
Lemma real_send_with_credentials
      (smtp_try : list SmtpAttempt -> SmtpAttempt -> option str)
      (env : environ) (to_email subject body : str) (w : World) :
  Py.truthy_opt (getenv env "SMTP_HOST") = true ->
  Py.truthy_opt (getenv env "SMTP_USER") = true ->
  Py.truthy_opt (getenv env "SMTP_PASS") = true ->
  getenv env "FROM_EMAIL" <> Some [] ->
  attempts (snd (send_email_smtp smtp_try (load_config env) to_email subject body w))
  = attempts w ++ [attempt_of (load_config env) to_email subject body].
Proof.
  intros Hh Hu Hp Hf.
  assert (C : credentials_set (load_config env) = true).
  { unfold credentials_set, load_config.
    cbn [SMTP_HOST SMTP_USER SMTP_PASS FROM_EMAIL].
    rewrite Hh, Hu, Hp. cbn [andb].
    unfold getenv_default, getenv in *.
    destruct (env (lit "FROM_EMAIL")) as [[|c f]|]; [now elim Hf | reflexivity |].
    destruct (env (lit "SMTP_USER")) as [[|c u]|];
      [discriminate | reflexivity | discriminate]. }
  rewrite send_real by exact C. reflexivity.
Qed.

(** ** The dispatcher *)

Lemma filter_split_length {A : Type} (f : A -> bool) (l : list A) :
  List.length (filter f l) + List.length (filter (fun x => negb (f x)) l)
  = List.length l.
Proof.
  induction l as [|x l IH]; [reflexivity|].
  simpl. destruct (f x); simpl; lia.
Qed.

Lemma has_status_outcome (i : Z) (c k : option Z) (e : str) (ok : bool)
      (err t : str) :
  has_status SENT (SendRecord.mk i c k e (if ok then SENT else ERROR) err t) = ok
  /\ has_status ERROR (SendRecord.mk i c k e (if ok then SENT else ERROR) err t)
     = negb ok.
Proof. destruct ok; split; reflexivity. Qed.

Section Logged.

Variable utcnow : nat -> str.
Variable cid : Z.

Lemma logged_shape (rs : list Contact.t) (answers : list (bool * str))
      (seq : Z) (clk : nat) :
  List.length answers = List.length rs ->
  let recs := logged utcnow cid rs answers seq clk in
  List.length recs = List.length rs
  /\ map SendRecord.email recs = map Contact.email rs
  /\ map SendRecord.contact_id recs = map (fun r => Some (Contact.id r)) rs
  /\ Forall (fun r => SendRecord.campaign_id r = Some cid) recs.
Proof.
  revert answers seq clk.
  induction rs as [|r rs IH]; intros [|a answers] seq clk E; try discriminate.
  - simpl. repeat split; constructor.
  - simpl in E. injection E as E.
    destruct (IH answers (seq + 1)%Z (S clk) E) as (H1 & H2 & H3 & H4).
    cbn [logged List.length map SendRecord.email SendRecord.contact_id].
    repeat split; [now rewrite H1 | now rewrite H2 | now rewrite H3 |].
    constructor; [reflexivity | exact H4].
Qed.

Lemma logged_statuses (rs : list Contact.t) (answers : list (bool * str))
      (seq : Z) (clk : nat) :
  List.length answers = List.length rs ->
  let recs := logged utcnow cid rs answers seq clk in
  List.length (filter (has_status SENT) recs)
  = List.length (filter (fun a => fst a) answers)
  /\ List.length (filter (has_status ERROR) recs)
     = List.length (filter failed answers)
  /\ map SendRecord.error (filter (has_status ERROR) recs)
     = map snd (filter failed answers).
Proof.
  revert answers seq clk.
  induction rs as [|r rs IH]; intros [|[ok err] answers] seq clk E; try discriminate.
  - simpl. auto.
  - simpl in E. injection E as E.
    destruct (IH answers (seq + 1)%Z (S clk) E) as (H1 & H2 & H3).
    cbn [logged fst snd filter].
    destruct (has_status_outcome (seq + 1) (Some cid) (Some (Contact.id r))
                (Contact.email r) ok err (utcnow clk)) as [-> ->].
    change (failed (ok, err)) with (negb ok).
    destruct ok; cbn [negb List.length map SendRecord.error snd];
      repeat split; congruence.
Qed.

End Logged.

Section Dispatch.

Variable utcnow : nat -> str.
Variable smtp_try : list SmtpAttempt -> SmtpAttempt -> option str.
Variable cfg : Config.

Lemma log_send_frame (campaign_id contact_id : option Z) (email status error : str)
      (w : World) :
  let w' := log_send utcnow campaign_id contact_id email status error w in
  sends (db w') = sends (db w) ++
                  [SendRecord.mk (sends_seq (db w) + 1) campaign_id contact_id
                                 email status error (utcnow (clock w))]
  /\ sends_seq (db w') = (sends_seq (db w) + 1)%Z
  /\ clock w' = S (clock w)
  /\ attempts w' = attempts w
  /\ contacts (db w') = contacts (db w)
  /\ contacts_seq (db w') = contacts_seq (db w).
Proof. simpl. repeat split. Qed.

(** The loop, from any count and any world. *)
Lemma send_loop_spec (campaign : Campaign.t) (rs : list Contact.t)
      (acc : nat) (w : World) :
  let answers := transport_answers smtp_try cfg campaign rs w in
  let res := send_loop utcnow smtp_try cfg campaign rs acc w in
  fst res = acc + List.length (filter (fun a => fst a) answers)
  /\ sends (db (snd res))
     = sends (db w) ++ logged utcnow (Campaign.id campaign) rs answers
                               (sends_seq (db w)) (clock w)
  /\ attempts (snd res)
     = attempts w ++ (if credentials_set cfg
                      then map (attempt_for cfg campaign) rs else [])
  /\ contacts (db (snd res)) = contacts (db w)
  /\ contacts_seq (db (snd res)) = contacts_seq (db w).
Proof.
  revert acc w. induction rs as [|r rs IH]; intros acc w.
  - simpl. rewrite !app_nil_r. destruct (credentials_set cfg); rewrite ?app_nil_r.
    all: repeat split; lia.
  - cbn [transport_answers send_loop].
    pose proof (send_frame smtp_try cfg (Contact.email r) (Campaign.subject campaign)
                  (render (Campaign.body campaign) (Py.or_else (Contact.name r) []))
                  w) as (F1 & F2 & F3).
    destruct (send_email_smtp smtp_try cfg (Contact.email r) _ _ w)
      as [[ok err] w1] eqn:E.
    cbn [snd] in F1, F2, F3.
    set (w2 := log_send utcnow (Some (Campaign.id campaign)) (Some (Contact.id r))
                        (Contact.email r) (if ok then SENT else ERROR) err w1).
    destruct (log_send_frame (Some (Campaign.id campaign)) (Some (Contact.id r))
                (Contact.email r) (if ok then SENT else ERROR) err w1)
      as (L1 & L2 & L3 & L4 & L5 & L6).
    fold w2 in L1, L2, L3, L4, L5, L6.
    specialize (IH (if ok then S acc else acc) w2).
    cbv zeta in IH. destruct IH as (I1 & I2 & I3 & I4 & I5).
    rewrite (transport_answers_ext smtp_try cfg campaign rs w2 w1 L4) in I1, I2.
    cbn [logged filter fst snd List.length].
    repeat split.
    + rewrite I1. destruct ok; simpl; lia.
    + rewrite I2, L1, L2, L3, F1, F2, <- app_assoc. reflexivity.
    + rewrite I3, L4, F3, <- app_assoc.
      destruct (credentials_set cfg); reflexivity.
    + now rewrite I4, L5, F1.
    + now rewrite I5, L6, F1.
Qed.

(** The rows the button adds to [sends]. *)
Lemma page_send_all_sends (campaign : Campaign.t) (rs : list Contact.t)
      (w : World) :
  sends (db (snd (page_send_all utcnow smtp_try cfg campaign rs w)))
  = sends (db w) ++
    logged utcnow (Campaign.id campaign) rs
           (transport_answers smtp_try cfg campaign rs w)
           (sends_seq (db w)) (clock w).
Proof.
  destruct (send_loop_spec campaign rs 0 w) as (_ & S2 & _).
  unfold page_send_all.
  now destruct (send_loop utcnow smtp_try cfg campaign rs 0 w).
Qed.

(** C2: over n recipients of which the transport fails k, the
    dispatcher goes through all of them in the order given, adds n rows
    to [sends], one per recipient and in that order, all with the
    campaign's id, n-k of them SENT and k of them ERROR with the
    transport's error text, and reports n-k out of n. *)
Theorem dispatcher_aggregate (campaign : Campaign.t) (rs : list Contact.t)
        (w : World) :
  let answers := transport_answers smtp_try cfg campaign rs w in
  let n := List.length rs in
  let k := List.length (filter failed answers) in
  let res := page_send_all utcnow smtp_try cfg campaign rs w in
  let recs := logged utcnow (Campaign.id campaign) rs answers
                     (sends_seq (db w)) (clock w) in
  k <= n
  /\ fst res = (n - k, n)
  /\ sends (db (snd res)) = sends (db w) ++ recs
  /\ List.length recs = n
  /\ map SendRecord.email recs = map Contact.email rs
  /\ map SendRecord.contact_id recs = map (fun r => Some (Contact.id r)) rs
  /\ Forall (fun r => SendRecord.campaign_id r = Some (Campaign.id campaign)) recs
  /\ List.length (filter (has_status SENT) recs) = n - k
  /\ List.length (filter (has_status ERROR) recs) = k
  /\ map SendRecord.error (filter (has_status ERROR) recs)
     = map snd (filter failed answers)
  /\ attempts (snd res)
     = attempts w ++ (if credentials_set cfg
                      then map (attempt_for cfg campaign) rs else [])
  /\ contacts (db (snd res)) = contacts (db w).
Proof.
  intros answers n k res recs.
  pose proof (transport_answers_length smtp_try cfg campaign rs w) as Hlen.
  fold answers in Hlen.
  pose proof (filter_split_length (fun a : bool * str => fst a) answers) as Hsplit.
  fold failed in Hsplit.
  destruct (send_loop_spec campaign rs 0 w) as (S1 & S2 & S3 & S4 & _).
  fold answers in S1, S2.
  destruct (logged_shape utcnow (Campaign.id campaign) rs answers
              (sends_seq (db w)) (clock w) Hlen) as (G1 & G2 & G3 & G4).
  destruct (logged_statuses utcnow (Campaign.id campaign) rs answers
              (sends_seq (db w)) (clock w) Hlen) as (T1 & T2 & T3).
  fold recs in G1, G2, G3, G4, T1, T2, T3.
  assert (Hk : List.length (filter (fun a : bool * str => fst a) answers) = n - k).
  { unfold failed in k. subst k n. unfold failed. lia. }
  assert (Hres : res = (fst (send_loop utcnow smtp_try cfg campaign rs 0 w), n,
                        snd (send_loop utcnow smtp_try cfg campaign rs 0 w))).
  { subst res. unfold page_send_all.
    now destruct (send_loop utcnow smtp_try cfg campaign rs 0 w). }
  rewrite Hres. cbn [fst snd]. rewrite S1, Hk.
  repeat split; auto; try congruence.
  subst k n. unfold failed. unfold failed in Hsplit. lia.
Qed.

End Dispatch.

(** Three recipients, the transport failing for the second: 2 out of
    3, three rows for campaign 7, in order SENT, ERROR, SENT. *)
Example dispatcher_three_recipients :
  let res := page_send_all sample_clock (server_rejecting (lit "bob@example.org"))
               (load_config (fun k => if Py.str_eqb k (lit "FROM_EMAIL")
                                      then None else smtp_env k))
               sample_campaign sample_recipients empty_world in
  fst res = (2, 3)
  /\ map (fun r => (SendRecord.campaign_id r, SendRecord.contact_id r,
                    SendRecord.status r, SendRecord.error r))
         (sends (db (snd res)))
     = [(Some 7%Z, Some 1%Z, SENT, []);
        (Some 7%Z, Some 2%Z, ERROR, lit "550 mailbox unavailable");
        (Some 7%Z, Some 3%Z, SENT, [])]
  /\ map att_body_html (attempts (snd res))
     = [lit "Hola Ana"; lit "Hola "; lit "Hola "].
Proof. repeat split; reflexivity. Qed.

Section SendRecords.

Variable utcnow : nat -> str.
Variable smtp_try : list SmtpAttempt -> SmtpAttempt -> option str.
Variable cfg : Config.

Lemma appended_sends_app (w w' : World) (recs : list SendRecord.t) :
  sends (db w') = sends (db w) ++ recs -> appended_sends w w' = recs.
Proof.
  intros E. unfold appended_sends. rewrite E, skipn_app, skipn_all, Nat.sub_diag.
  reflexivity.
Qed.

Lemma record_ok_of_answer (i : Z) (c k : option Z) (e : str) (a : bool * str)
      (t : str) :
  (fst a = true -> snd a = if credentials_set cfg then [] else SIMULATED) ->
  record_ok cfg (SendRecord.mk i c k e (if fst a then SENT else ERROR) (snd a) t).
Proof.
  intros H. unfold record_ok. destruct a as [[|] err]; simpl in *.
  - left. split; [reflexivity | now apply H].
  - now right.
Qed.

Lemma transport_answers_text (campaign : Campaign.t) (rs : list Contact.t)
      (w : World) :
  Forall (fun a => fst a = true ->
                   snd a = if credentials_set cfg then [] else SIMULATED)
         (transport_answers smtp_try cfg campaign rs w).
Proof.
  revert w. induction rs as [|r rs IH]; intros w; [constructor|].
  cbn [transport_answers].
  pose proof (send_success_text smtp_try cfg (Contact.email r)
                (Campaign.subject campaign)
                (render (Campaign.body campaign) (Py.or_else (Contact.name r) []))
                w) as Hs.
  destruct (send_email_smtp smtp_try cfg (Contact.email r) _ _ w) as [a w1].
  constructor; [exact Hs | apply IH].
Qed.

Lemma logged_ok (cid : Z) (rs : list Contact.t) (answers : list (bool * str))
      (seq : Z) (clk : nat) :
  Forall (fun a => fst a = true ->
                   snd a = if credentials_set cfg then [] else SIMULATED) answers ->
  Forall (record_ok cfg) (logged utcnow cid rs answers seq clk).
Proof.
  revert answers seq clk.
  induction rs as [|r rs IH]; intros [|a answers] seq clk H; try constructor.
  - apply record_ok_of_answer. now inversion H.
  - apply IH. now inversion H.
Qed.

(** What the test button does with a non-empty address. *)
Lemma page_send_test_spec (campaign : Campaign.t) (test_email : str) (w : World) :
  test_email <> [] ->
  let body := render (Campaign.body campaign) (lit "Prueba") in
  let sent := send_email_smtp smtp_try cfg test_email
                (Campaign.subject campaign) body w in
  let res := page_send_test utcnow smtp_try cfg campaign test_email w in
  fst res = Some (fst sent)
  /\ attempts (snd res)
     = attempts w ++ (if credentials_set cfg
                      then [attempt_of cfg test_email (Campaign.subject campaign) body]
                      else [])
  /\ sends (db (snd res))
     = sends (db w) ++
       [SendRecord.mk (sends_seq (db w) + 1) (Some (Campaign.id campaign)) None
                      test_email (if fst (fst sent) then SENT else ERROR)
                      (snd (fst sent)) (utcnow (clock w))]
  /\ contacts (db (snd res)) = contacts (db w).
Proof.
  intros Hne body sent res. subst res. unfold page_send_test.
  destruct test_email as [|c e]; [contradiction|]. cbn [Py.truthy].
  fold body. fold sent.
  pose proof (send_frame smtp_try cfg (c :: e) (Campaign.subject campaign) body w)
    as (F1 & F2 & F3).
  fold sent in F1, F2, F3.
  destruct sent as [[ok err] w1]. cbn [fst snd] in *.
  destruct (log_send_frame utcnow (Some (Campaign.id campaign)) None (c :: e)
              (if ok then SENT else ERROR) err w1) as (L1 & L2 & L3 & L4 & L5 & L6).
  cbv zeta in L1, L4, L5.
  repeat split.
  - now rewrite L4, F3.
  - now rewrite L1, F1, F2.
  - now rewrite L5, F1.
Qed.

(** C9, amended: every row the dispatcher or the test button adds to
    [sends] has status SENT or ERROR; a SENT row carries the text the
    transport returned with its success, which is empty after a real
    delivery and [SIMULATED] in simulated mode. *)
Theorem send_record_status_and_error (campaign : Campaign.t) (w : World) :
  (forall rs,
      Forall (record_ok cfg)
             (appended_sends w (snd (page_send_all utcnow smtp_try cfg campaign rs w))))
  /\ (forall test_email,
         Forall (record_ok cfg)
                (appended_sends w
                   (snd (page_send_test utcnow smtp_try cfg campaign test_email w)))).
Proof.
  split.
  - intros rs.
    rewrite (appended_sends_app _ _ _
               (page_send_all_sends utcnow smtp_try cfg campaign rs w)).
    apply logged_ok, transport_answers_text.
  - intros [|c e].
    + unfold appended_sends. simpl. rewrite skipn_all. constructor.
    + assert (Hne : c :: e <> []) by discriminate.
      destruct (page_send_test_spec campaign w Hne) as (_ & _ & S & _).
      rewrite (appended_sends_app _ _ _ S).
      constructor; [|constructor].
      apply record_ok_of_answer.
      apply (send_success_text smtp_try cfg).
Qed.

End SendRecords.

(** C9, as stated, fails: out of the box the transport simulates, and
    the row of a simulated send is SENT with the error text
    [SIMULATED], not the empty string. *)
Lemma simulated_send_logs_marker :
  let w' := snd (page_send_test sample_clock server_up (load_config bare_env)
                   sample_campaign (lit "qa@example.com") empty_world) in
  map (fun r => (SendRecord.status r, SendRecord.error r)) (sends (db w'))
  = [(SENT, SIMULATED)]
  /\ SIMULATED <> [].
Proof. split; [reflexivity | discriminate]. Qed.

(** C8, as stated, fails in two places.  On the placeholder name: the
    test button writes [Prueba], not [Test], where the body says
    [{{name}}].  And on "every test email": with the address field
    left empty the button hands nothing to the transport and adds no
    row to [sends]. *)
Lemma test_send_says_prueba :
  let w' := snd (page_send_test sample_clock server_up (load_config smtp_env)
                   sample_campaign (lit "qa@example.com") empty_world) in
  let blank := page_send_test sample_clock server_up (load_config smtp_env)
                 sample_campaign [] empty_world in
  map att_body_html (attempts w') = [lit "Hola Prueba"]
  /\ render (Campaign.body sample_campaign) (lit "Test") = lit "Hola Test"
  /\ lit "Hola Prueba" <> lit "Hola Test"
  /\ fst blank = None
  /\ sends (db (snd blank)) = []
  /\ attempts (snd blank) = [].
Proof.
  intros w' blank. split_all; try reflexivity. discriminate.
Qed.

(** C8, amended: for every campaign and every non-empty test address,
    the test button renders the body with the fixed name [Prueba] for
    [{{name}}], hands that one message to the transport, and adds one
    row to [sends] whose contact id is null and whose email is the test
    address; with no test address typed it answers with the hint alone:
    nothing is sent, nothing is recorded, the world is as it was. *)
Theorem test_send_with_prueba
        (utcnow : nat -> str)
        (smtp_try : list SmtpAttempt -> SmtpAttempt -> option str)
        (cfg : Config) (campaign : Campaign.t) (test_email : str) (w : World) :
  let body := Py.replace PLACEHOLDER (lit "Prueba") (Campaign.body campaign) in
  let sent := send_email_smtp smtp_try cfg test_email
                (Campaign.subject campaign) body w in
  let res := page_send_test utcnow smtp_try cfg campaign test_email w in
  (test_email <> [] ->
   fst res = Some (fst sent)
   /\ attempts (snd res)
      = attempts w ++ (if credentials_set cfg
                       then [attempt_of cfg test_email (Campaign.subject campaign) body]
                       else [])
   /\ (exists r,
          sends (db (snd res)) = sends (db w) ++ [r]
          /\ SendRecord.contact_id r = None
          /\ SendRecord.email r = test_email
          /\ SendRecord.campaign_id r = Some (Campaign.id campaign)
          /\ SendRecord.status r = (if fst (fst sent) then SENT else ERROR)
          /\ SendRecord.error r = snd (fst sent)))
  /\ page_send_test utcnow smtp_try cfg campaign [] w = (None, w).
Proof.
  intros body sent res. split.
  - intros Hne.
    destruct (page_send_test_spec utcnow smtp_try cfg campaign w Hne)
      as (H1 & H2 & H3 & _).
    split; [exact H1|]. split; [exact H2|].
    eexists. split; [exact H3|]. now split_all.
  - reflexivity.
Qed.

Lemma test_send_with_prueba_witness :
  lit "qa@example.com" <> []
  /\ attempts (snd (page_send_test sample_clock server_up (load_config smtp_env)
                      sample_campaign (lit "qa@example.com") empty_world))
     = attempts empty_world ++
       (if credentials_set (load_config smtp_env)
        then [attempt_of (load_config smtp_env) (lit "qa@example.com")
                (Campaign.subject sample_campaign)
                (Py.replace PLACEHOLDER (lit "Prueba") (Campaign.body sample_campaign))]
        else []).
Proof.
  assert (H : lit "qa@example.com" <> []) by discriminate.
  split; [exact H|].
  exact (proj1 (proj2 (proj1 (test_send_with_prueba sample_clock server_up
                                (load_config smtp_env) sample_campaign
                                (lit "qa@example.com") empty_world) H))).
Defined.

(** ** The contact store *)

Section Store.

Variable utcnow : nat -> str.

Lemma insert_contact_returns (name email tags : str) (w : World) :
  snd (insert_contact utcnow name email tags w) = Returned tt.
Proof.
  unfold insert_contact, execute_insert_contact.
  now destruct (email_taken _ (db w)).
Qed.

Lemma insert_contact_taken (name email tags : str) (w : World) :
  email_taken (Py.lower (Py.strip email)) (db w) = true ->
  db (fst (insert_contact utcnow name email tags w)) = id_used_up (db w).
Proof.
  intros H. unfold insert_contact, execute_insert_contact. now rewrite H.
Qed.

(** Whatever the store held, the address is in it after the insert. *)
Lemma insert_contact_takes (name email tags : str) (w : World) :
  email_taken (Py.lower (Py.strip email))
              (db (fst (insert_contact utcnow name email tags w))) = true.
Proof.
  unfold insert_contact, execute_insert_contact.
  destruct (email_taken _ (db w)) eqn:H; cbn [fst with_db db]; [exact H|].
  unfold email_taken. cbn [contacts]. rewrite existsb_app. simpl.
  now rewrite str_eqb_refl, orb_true_r.
Qed.

(** C4: the insert never raises; on a store that holds the address
    (trimmed, lower-cased) already the contact table comes out as it
    was, no row more and no field of a row changed; and on any store a
    second insert of the same contact leaves the table that the first
    one left.  What an ignored insert does move is the counter of the
    ids, which SQLite keeps beside the table: one id is used up. *)
Theorem insert_contact_or_ignore (name email tags : str) (w : World) :
  let once := insert_contact utcnow name email tags w in
  let twice := insert_contact utcnow name email tags (fst once) in
  snd once = Returned tt
  /\ (email_taken (Py.lower (Py.strip email)) (db w) = true ->
      List.length (contacts (db (fst once))) = List.length (contacts (db w))
      /\ contacts (db (fst once)) = contacts (db w)
      /\ db (fst once) = id_used_up (db w))
  /\ contacts (db (fst twice)) = contacts (db (fst once))
  /\ db (fst twice) = id_used_up (db (fst once))
  /\ snd twice = Returned tt.
Proof.
  intros once twice.
  assert (T : db (fst twice) = id_used_up (db (fst once))).
  { apply insert_contact_taken, insert_contact_takes. }
  split; [apply insert_contact_returns|].
  split.
  - intros H. pose proof (insert_contact_taken name email tags w H) as K.
    fold once in K. rewrite K. now split_all.
  - split_all; [now rewrite T | exact T | apply insert_contact_returns].
Qed.

End Store.

Lemma insert_contact_or_ignore_witness :
  email_taken (Py.lower (Py.strip (lit " ANA@Example.com "))) (db world_with_ana) = true
  /\ contacts (db (fst (insert_contact sample_clock (lit "Ana B.")
                          (lit " ANA@Example.com ") (lit "news") world_with_ana)))
     = contacts (db world_with_ana).
Proof.
  assert (H : email_taken (Py.lower (Py.strip (lit " ANA@Example.com ")))
                          (db world_with_ana) = true) by reflexivity.
  split; [exact H|].
  exact (proj1 (proj2 (proj1 (proj2 (insert_contact_or_ignore sample_clock
                                       (lit "Ana B.") (lit " ANA@Example.com ")
                                       (lit "news") world_with_ana)) H))).
Defined.

(** ** Trimming and lower-casing *)

Lemma lower_chr_idem (c : ascii) : Py.lower_chr (Py.lower_chr c) = Py.lower_chr c.
Proof. destruct c as [[] [] [] [] [] [] [] []]; reflexivity. Qed.

Lemma isspace_lower_chr (c : ascii) : Py.isspace (Py.lower_chr c) = Py.isspace c.
Proof. destruct c as [[] [] [] [] [] [] [] []]; reflexivity. Qed.

Lemma lower_idem (s : str) : Py.lower (Py.lower s) = Py.lower s.
Proof.
  unfold Py.lower. rewrite map_map. apply map_ext. intros c. apply lower_chr_idem.
Qed.

Lemma lstrip_lower (s : str) : Py.lstrip (Py.lower s) = Py.lower (Py.lstrip s).
Proof.
  induction s as [|c s IH]; [reflexivity|].
  simpl. rewrite isspace_lower_chr. now destruct (Py.isspace c).
Qed.

Lemma rstrip_lower (s : str) : Py.rstrip (Py.lower s) = Py.lower (Py.rstrip s).
Proof.
  unfold Py.rstrip, Py.lower. rewrite <- map_rev.
  fold (Py.lower (rev s)). rewrite lstrip_lower. unfold Py.lower. now rewrite map_rev.
Qed.

Lemma strip_lower (s : str) : Py.strip (Py.lower s) = Py.lower (Py.strip s).
Proof. unfold Py.strip. now rewrite lstrip_lower, rstrip_lower. Qed.

Lemma lstrip_idem (s : str) : Py.lstrip (Py.lstrip s) = Py.lstrip s.
Proof.
  induction s as [|c s IH]; [reflexivity|].
  simpl. destruct (Py.isspace c) eqn:E; [exact IH|]. simpl. now rewrite E.
Qed.

Lemma lstrip_snoc (l : str) (c : ascii) :
  Py.isspace c = false -> Py.lstrip (l ++ [c]) = Py.lstrip l ++ [c].
Proof.
  intros H. induction l as [|x l IH]; simpl.
  - now rewrite H.
  - now destruct (Py.isspace x).
Qed.

Lemma rstrip_cons (c : ascii) (t : str) :
  Py.isspace c = false -> Py.rstrip (c :: t) = c :: Py.rstrip t.
Proof.
  intros H. unfold Py.rstrip. simpl. rewrite lstrip_snoc by exact H.
  now rewrite rev_app_distr.
Qed.

Lemma rstrip_idem (s : str) : Py.rstrip (Py.rstrip s) = Py.rstrip s.
Proof. unfold Py.rstrip. now rewrite rev_involutive, lstrip_idem. Qed.

Lemma strip_idem (s : str) : Py.strip (Py.strip s) = Py.strip s.
Proof.
  unfold Py.strip.
  assert (H : Py.lstrip s = [] \/
              exists c t, Py.lstrip s = c :: t /\ Py.isspace c = false).
  { induction s as [|c s IH]; [now left|].
    simpl. destruct (Py.isspace c) eqn:E; [exact IH|]. right. eauto. }
  destruct H as [-> | (c & t & -> & Hc)]; [reflexivity|].
  rewrite rstrip_cons by exact Hc. simpl. rewrite Hc.
  rewrite rstrip_cons by exact Hc. now rewrite rstrip_idem.
Qed.

(** Cleaning an address twice is cleaning it once. *)
Lemma clean_idem (s : str) :
  Py.lower (Py.strip (Py.lower (Py.strip s))) = Py.lower (Py.strip s).
Proof. now rewrite strip_lower, strip_idem, lower_idem. Qed.

(** ** Bulk import *)

Section BulkImport.

Variable utcnow : nat -> str.
Variable str_of_series : list str -> str.

Lemma import_rows_skip (cols : list str) (row : list str) (rs : list (list str))
      (count : nat) (w : World) :
  has_address str_of_series cols row = false ->
  import_rows utcnow str_of_series cols (row :: rs) count w
  = import_rows utcnow str_of_series cols rs count w.
Proof.
  unfold has_address, row_email. intros H. cbn [import_rows]. now rewrite H.
Qed.

Lemma import_rows_try (cols : list str) (row : list str) (rs : list (list str))
      (count : nat) (w : World) :
  has_address str_of_series cols row = true ->
  import_rows utcnow str_of_series cols (row :: rs) count w
  = import_rows utcnow str_of_series cols rs (S count)
      (fst (insert_contact utcnow
              (Py.strip (row_get str_of_series cols row "name" []))
              (row_email str_of_series cols row)
              (Py.strip (row_get str_of_series cols row "tags" [])) w)).
Proof.
  unfold has_address, row_email. intros H. cbn [import_rows]. rewrite H.
  pose proof (insert_contact_returns utcnow
                (Py.strip (row_get str_of_series cols row "name" []))
                (Py.lower (Py.strip (row_get str_of_series cols row "email" [])))
                (Py.strip (row_get str_of_series cols row "tags" [])) w) as R.
  destruct (insert_contact utcnow _ _ _ w) as [w' res]. simpl in R. now subst res.
Qed.

(** The world the loop leaves does not depend on where the count
    started. *)
Lemma import_rows_world (cols : list str) (rs : list (list str)) (c c' : nat)
      (w : World) :
  snd (import_rows utcnow str_of_series cols rs c w)
  = snd (import_rows utcnow str_of_series cols rs c' w).
Proof.
  revert c c' w. induction rs as [|row rs IH]; intros c c' w; [reflexivity|].
  destruct (has_address str_of_series cols row) eqn:T.
  - rewrite !import_rows_try by exact T. apply IH.
  - rewrite !import_rows_skip by exact T. apply IH.
Qed.

Lemma filter_idem {A : Type} (f : A -> bool) (l : list A) :
  filter f (filter f l) = filter f l.
Proof.
  induction l as [|x l IH]; [reflexivity|].
  simpl. destruct (f x) eqn:E; simpl; rewrite ?E, IH; reflexivity.
Qed.

(** The loop is the row-by-row insert of the rows it tries, and its
    count their number. *)
Lemma import_rows_spec (cols : list str) (rs : list (list str)) (count : nat)
      (w : World) :
  let tried := filter (has_address str_of_series cols) rs in
  let res := import_rows utcnow str_of_series cols rs count w in
  fst res = count + List.length tried
  /\ snd res = fold_left (insert_row utcnow str_of_series cols) tried w.
Proof.
  revert count w. induction rs as [|row rs IH]; intros count w.
  - simpl. split; [lia | reflexivity].
  - cbn [filter]. destruct (has_address str_of_series cols row) eqn:T.
    + rewrite import_rows_try by exact T.
      destruct (IH (S count) (insert_row utcnow str_of_series cols w row)) as [I1 I2].
      unfold insert_row in I1, I2 at 1. cbn [List.length fold_left]. split.
      * rewrite I1. lia.
      * exact I2.
    + rewrite import_rows_skip by exact T. apply IH.
Qed.

Lemma email_taken_held (e : str) (d : DB) :
  email_taken e d
  = existsb (fun x => Py.str_eqb x e) (map Contact.email (contacts d)).
Proof.
  unfold email_taken. induction (contacts d) as [|c cs IH]; [reflexivity|].
  simpl. now rewrite IH.
Qed.

Lemma new_addresses_cons (held : list str) (e : str) (rest : list str) :
  new_addresses held (e :: rest)
  = new_addresses held [e] ++ new_addresses (held ++ new_addresses held [e]) rest.
Proof.
  simpl. destruct (existsb _ held); simpl; [now rewrite app_nil_r | reflexivity].
Qed.

Lemma new_addresses_held (held offered : list str) :
  Forall (fun e => existsb (fun x => Py.str_eqb x e) held = true) offered ->
  new_addresses held offered = [].
Proof.
  induction 1 as [|e rest He _ IH]; [reflexivity|]. simpl. now rewrite He.
Qed.

Lemma new_addresses_length (held offered : list str) :
  List.length (new_addresses held offered) <= List.length offered.
Proof.
  revert held. induction offered as [|e rest IH]; intros held; [reflexivity|].
  simpl. destruct (existsb _ held); simpl.
  - specialize (IH held). lia.
  - specialize (IH (held ++ [e])). lia.
Qed.

(** One row tried: an id is used up and the clock read, whether the
    row is stored or dropped; it is stored when its address is new. *)
Lemma insert_row_step (cols : list str) (row : list str) (w : World) :
  let w1 := insert_row utcnow str_of_series cols w row in
  contacts_seq (db w1) = (contacts_seq (db w) + 1)%Z
  /\ clock w1 = S (clock w)
  /\ sends (db w1) = sends (db w)
  /\ sends_seq (db w1) = sends_seq (db w)
  /\ attempts w1 = attempts w
  /\ exists added,
      contacts (db w1) = contacts (db w) ++ added
      /\ map Contact.email added
         = new_addresses (map Contact.email (contacts (db w)))
                         [row_email str_of_series cols row].
Proof.
  unfold insert_row, insert_contact, execute_insert_contact.
  assert (E : Py.lower (Py.strip (row_email str_of_series cols row))
              = row_email str_of_series cols row).
  { unfold row_email. apply clean_idem. }
  rewrite !E. cbn [new_addresses]. rewrite <- email_taken_held.
  destruct (email_taken (row_email str_of_series cols row) (db w));
    cbn [fst with_db tick db clock attempts contacts contacts_seq sends sends_seq];
    split_all; try reflexivity.
  - exists []. now rewrite app_nil_r.
  - eexists. split; reflexivity.
Qed.

(** The rows tried, one after the other: as many ids used up and as
    many readings of the clock as rows; the table keeps its rows and
    gains one for each new address, where it first comes. *)
Lemma insert_rows_store (cols : list str) (tried : list (list str)) (w : World) :
  let w' := fold_left (insert_row utcnow str_of_series cols) tried w in
  contacts_seq (db w') = (contacts_seq (db w) + Z.of_nat (List.length tried))%Z
  /\ clock w' = clock w + List.length tried
  /\ sends (db w') = sends (db w)
  /\ sends_seq (db w') = sends_seq (db w)
  /\ attempts w' = attempts w
  /\ exists added,
      contacts (db w') = contacts (db w) ++ added
      /\ map Contact.email added
         = new_addresses (map Contact.email (contacts (db w)))
                         (map (row_email str_of_series cols) tried).
Proof.
  revert w. induction tried as [|row tried IH]; intros w.
  - cbn [fold_left List.length map new_addresses]. split_all; try reflexivity; try lia.
    exists []. now rewrite app_nil_r.
  - cbn [fold_left].
    destruct (insert_row_step cols row w) as (S1 & S2 & S3 & S4 & S5 & a1 & Sa & Se).
    destruct (IH (insert_row utcnow str_of_series cols w row))
      as (I1 & I2 & I3 & I4 & I5 & a2 & Ia & Ie).
    split_all.
    + rewrite I1, S1. cbn [List.length]. lia.
    + rewrite I2, S2. cbn [List.length]. lia.
    + now rewrite I3.
    + now rewrite I4.
    + now rewrite I5.
    + exists (a1 ++ a2). split.
      * rewrite Ia, Sa. now rewrite app_assoc.
      * cbn [map]. rewrite new_addresses_cons, map_app, Se, Ie.
        rewrite Sa, map_app, Se. reflexivity.
Qed.

(** C10: the count the bulk import returns is the number of rows whose
    address is not empty, whatever the store holds.  Each of these
    rows is handed to [insert_contact], in the order of the frame: the
    world that comes out is the one these calls leave, one id used up
    and the clock read once for each.  The table keeps the rows it had
    and gains one row for each address it did not hold, where the
    address first comes: a row whose address the store has already is
    counted although the insert drops it, so when the store has all of
    them the table comes out as it was, with the full count.  A row
    without address changes neither the count nor the world; and the
    page's figure of skipped rows is the one of the preview, whatever
    the import passes over. *)
Theorem bulk_import_counts_attempts (df : DataFrame) (w : World) :
  let rows_tried := attempted str_of_series df in
  let res := bulk_import_contacts utcnow str_of_series df w in
  fst res = List.length rows_tried
  /\ (forall w', fst (bulk_import_contacts utcnow str_of_series df w') = fst res)
  /\ snd res = fold_left (insert_row utcnow str_of_series (columns df)) rows_tried w
  /\ contacts_seq (db (snd res)) = (contacts_seq (db w) + Z.of_nat (fst res))%Z
  /\ clock (snd res) = clock w + fst res
  /\ (exists added,
         contacts (db (snd res)) = contacts (db w) ++ added
         /\ map Contact.email added
            = new_addresses (map Contact.email (contacts (db w)))
                            (map (row_email str_of_series (columns df)) rows_tried))
  /\ (Forall (fun row =>
                email_taken (row_email str_of_series (columns df) row) (db w) = true)
             rows_tried ->
      contacts (db (snd res)) = contacts (db w))
  /\ List.length (contacts (db (snd res)))
     <= List.length (contacts (db w)) + fst res
  /\ bulk_import_contacts utcnow str_of_series
       {| columns := columns df; rows := rows_tried |} w = res
  /\ (forall file shown_df skipped,
         page_contacts_upload utcnow str_of_series file false w
         = (ShownPreview shown_df skipped, w) ->
         fst (page_contacts_upload utcnow str_of_series file true w)
         = ShownImported (List.length (attempted str_of_series shown_df)) skipped).
Proof.
  intros rows_tried res. subst res rows_tried.
  unfold bulk_import_contacts, attempted. cbn [columns rows].
  destruct (import_rows_spec (columns df) (rows df) 0 w) as (H1 & H2).
  destruct (insert_rows_store (columns df)
              (filter (has_address str_of_series (columns df)) (rows df)) w)
    as (K1 & K2 & _ & _ & _ & added & Ka & Ke).
  simpl in H1. rewrite H2, H1. split_all.
  - reflexivity.
  - intros w'. destruct (import_rows_spec (columns df) (rows df) 0 w') as (H1' & _).
    exact H1'.
  - reflexivity.
  - exact K1.
  - exact K2.
  - exists added. now split.
  - intros Hall. rewrite Ka.
    rewrite new_addresses_held in Ke.
    + apply map_eq_nil in Ke. subst added. apply app_nil_r.
    + apply Forall_map. eapply Forall_impl; [|exact Hall].
      intros row Hrow. now rewrite <- email_taken_held.
  - rewrite Ka, length_app.
    assert (L : List.length added
                <= List.length (filter (has_address str_of_series (columns df))
                                       (rows df))).
    { rewrite <- (length_map Contact.email added), Ke.
      etransitivity; [apply new_addresses_length|]. now rewrite length_map. }
    lia.
  - destruct (import_rows_spec (columns df)
                (filter (has_address str_of_series (columns df)) (rows df)) 0 w)
      as (P1 & P2).
    rewrite filter_idem in P1, P2. simpl in P1.
    apply injective_projections; [now rewrite P1, H1 | now rewrite P2, H2].
  - intros file shown_df skipped. unfold page_contacts_upload.
    destruct (match file with
              | CsvFile df0 => Some (csv_branch df0)
              | TxtFile text => Some (txt_branch text)
              | OtherFile => None
              end) as [[msg| |df0 k]|]; try discriminate.
    destruct (negb (Pd.empty df0)); [|discriminate].
    intros E. injection E as -> ->.
    unfold bulk_import_contacts.
    destruct (import_rows_spec (columns shown_df) (rows shown_df) 0 w) as (P1 & _).
    destruct (import_rows utcnow str_of_series (columns shown_df) (rows shown_df) 0 w)
      as [count w'].
    simpl in P1. cbn [fst]. now rewrite P1.
Qed.

End BulkImport.

Lemma bulk_import_counts_attempts_witness :
  Forall (fun row =>
            email_taken (row_email no_series (columns sample_batch) row)
                        (db world_with_ana) = true)
         (attempted no_series
            {| columns := columns sample_batch; rows := firstn 2 (rows sample_batch) |})
  /\ contacts (db (snd (bulk_import_contacts sample_clock no_series
                          {| columns := columns sample_batch;
                             rows := firstn 2 (rows sample_batch) |} world_with_ana)))
     = contacts (db world_with_ana).
Proof.
  assert (H : Forall (fun row =>
            email_taken (row_email no_series (columns sample_batch) row)
                        (db world_with_ana) = true)
         (attempted no_series
            {| columns := columns sample_batch;
               rows := firstn 2 (rows sample_batch) |})).
  { repeat constructor. }
  split; [exact H|].
  exact (proj1 (proj2 (proj2 (proj2 (proj2 (proj2 (proj2
           (bulk_import_counts_attempts sample_clock no_series
              {| columns := columns sample_batch;
                 rows := firstn 2 (rows sample_batch) |}
              world_with_ana))))))) H).
Defined.

(** Ana is in the store: of the three rows the import reports two,
    passes over the row without address, and adds one contact. *)
Example bulk_import_sample :
  let res := bulk_import_contacts sample_clock no_series sample_batch world_with_ana in
  fst res = 2
  /\ map Contact.email (contacts (db (snd res)))
     = [lit "ana@example.com"; lit "bob@example.org"]
  /\ map Contact.name (contacts (db (snd res)))
     = [Some (lit "Ana"); Some (lit "Bob")].
Proof. repeat split; reflexivity. Qed.

(** ** The TXT upload *)

Lemma cell_txt (r : list str) : Pd.cell TXT_COLUMNS r (lit "email") = address r.
Proof. destruct r as [|x [|y [|z r]]]; reflexivity. Qed.

Lemma overwrite_txt (v : str) (r : list str) :
  Pd.overwrite TXT_COLUMNS (lit "email") v r
  = match r with [] => [] | _ :: rest => v :: rest end.
Proof. destruct r as [|x [|y [|z r]]]; reflexivity. Qed.

Lemma clean_row_overwrite (r : list str) :
  Pd.overwrite TXT_COLUMNS (lit "email")
    (Py.lower (Py.strip (Pd.cell TXT_COLUMNS r (lit "email")))) r
  = clean_row r.
Proof. rewrite overwrite_txt, cell_txt. now destruct r. Qed.

Lemma valid_row_clean (r : list str) :
  is_valid_email (Some (Py.lower (Py.strip (Pd.cell TXT_COLUMNS r (lit "email")))))
  = valid_row (clean_row r).
Proof. rewrite cell_txt. now destruct r. Qed.

Lemma validate_emails_txt (r0 : list str) (rs : list (list str)) :
  validate_emails {| columns := TXT_COLUMNS; rows := r0 :: rs |}
  = Some ({| columns := TXT_COLUMNS;
             rows := filter valid_row (map clean_row (r0 :: rs)) |},
          List.length (filter (fun r => negb (valid_row r))
                              (map clean_row (r0 :: rs)))).
Proof.
  unfold validate_emails, Pd.series, Pd.assign_series, Pd.mask_rows.
  cbn [columns rows]. change (filter _ TXT_COLUMNS) with [lit "email"].
  generalize (r0 :: rs) as l. intros l.
  f_equal. f_equal.
  - f_equal. induction l as [|r l IH]; [reflexivity|].
    cbn [map combine Pd.select fst snd filter].
    rewrite clean_row_overwrite, valid_row_clean.
    destruct (valid_row (clean_row r)); now rewrite IH.
  - induction l as [|r l IH]; [reflexivity|].
    cbn [map filter]. rewrite valid_row_clean.
    destruct (valid_row (clean_row r)); cbn [negb List.length]; now rewrite IH.
Qed.

Lemma existsb_seen (k : str) (seen : list str) (pre : list (list str)) :
  (forall e, In e seen <-> In e (map address pre)) ->
  existsb (Py.str_eqb k) seen
  = existsb (fun r => Py.str_eqb (address r) k) pre.
Proof.
  intros H. apply eq_true_iff_eq. rewrite !existsb_exists. split.
  - intros (e & He & Hk). apply str_eqb_eq in Hk. subst e.
    apply H, in_map_iff in He as (r & Hr & Hin). exists r. split; [exact Hin|].
    now apply str_eqb_eq.
  - intros (r & Hin & Hk). apply str_eqb_eq in Hk. exists k. split.
    + apply H, in_map_iff. eauto.
    + apply str_eqb_refl.
Qed.

(** The accumulating loop of [drop_duplicates] keeps the rows that are
    first with their address. *)
Lemma drop_dups_from_first (rs pre : list (list str)) (seen : list str) :
  (forall e, In e seen <-> In e (map address pre)) ->
  Pd.drop_dups_from TXT_COLUMNS (lit "email") seen rs
  = map (fun i => nth i (pre ++ rs) [])
        (filter (first_with_its_address (pre ++ rs))
                (seq (List.length pre) (List.length rs))).
Proof.
  revert pre seen. induction rs as [|r rs IH]; intros pre seen Hs; [reflexivity|].
  cbn [Pd.drop_dups_from List.length seq filter].
  assert (F : first_with_its_address (pre ++ r :: rs) (List.length pre)
              = negb (existsb (Py.str_eqb (address r)) seen)).
  { unfold first_with_its_address.
    rewrite nth_middle, firstn_app, firstn_all, Nat.sub_diag. simpl.
    rewrite app_nil_r. f_equal. symmetry. now apply existsb_seen. }
  rewrite F, cell_txt.
  assert (E : pre ++ r :: rs = (pre ++ [r]) ++ rs) by now rewrite <- app_assoc.
  assert (L : S (List.length pre) = List.length (pre ++ [r])).
  { rewrite length_app. simpl. lia. }
  destruct (existsb (Py.str_eqb (address r)) seen) eqn:X; cbn [negb map].
  - rewrite E, L. apply IH. intros e. rewrite map_app, in_app_iff, <- Hs. simpl.
    split; [tauto|]. intros [H | [<- | []]]; [exact H|].
    apply existsb_exists in X as (e & He & Hk). apply str_eqb_eq in Hk. now subst e.
  - f_equal; [now rewrite nth_middle|].
    rewrite E, L. apply IH. intros e. rewrite map_app, in_app_iff, <- Hs. simpl.
    tauto.
Qed.

Lemma drop_duplicates_keeps_first (l : list (list str)) :
  Pd.drop_dups_from TXT_COLUMNS (lit "email") [] l = keep_first_occurrences l.
Proof. apply (drop_dups_from_first l []). simpl. tauto. Qed.

(** The addresses that come out are pairwise distinct, and none of
    them was seen before. *)
Lemma drop_dups_from_nodup (rs : list (list str)) (seen : list str) :
  NoDup (map address (Pd.drop_dups_from TXT_COLUMNS (lit "email") seen rs))
  /\ forall e, In e (map address (Pd.drop_dups_from TXT_COLUMNS (lit "email") seen rs)) ->
               ~ In e seen.
Proof.
  revert seen. induction rs as [|r rs IH]; intros seen.
  - simpl. split; [constructor | tauto].
  - cbn [Pd.drop_dups_from]. rewrite cell_txt.
    destruct (existsb (Py.str_eqb (address r)) seen) eqn:X; [apply IH|].
    destruct (IH (address r :: seen)) as (N & M). cbn [map]. split.
    + constructor; [|exact N]. intros Hin. apply (M _ Hin). now left.
    + intros e [<- | Hin].
      * intros Hs. assert (existsb (Py.str_eqb (address r)) seen = true); [|congruence].
        apply existsb_exists. exists (address r). split; [exact Hs | apply str_eqb_refl].
      * intros Hs. apply (M _ Hin). now right.
Qed.

(** Each row that stays is, among the valid rows, the first with its
    address; and every address of a valid row stays. *)
Lemma keep_first_occurrences_first (l : list (list str)) :
  (forall r, In r (keep_first_occurrences l) ->
             find (fun x => Py.str_eqb (address x) (address r)) l = Some r)
  /\ (forall r, In r l -> In (address r) (map address (keep_first_occurrences l))).
Proof.
  rewrite <- drop_duplicates_keeps_first.
  assert (G : forall rs seen,
             (forall r, In r (Pd.drop_dups_from TXT_COLUMNS (lit "email") seen rs) ->
                        find (fun x => Py.str_eqb (address x) (address r)) rs = Some r)
             /\ (forall r, In r rs -> In (address r) seen \/
                   In (address r)
                      (map address (Pd.drop_dups_from TXT_COLUMNS (lit "email") seen rs)))).
  { induction rs as [|r rs IH]; intros seen.
    - simpl. split; tauto.
    - cbn [Pd.drop_dups_from]. rewrite cell_txt.
      destruct (existsb (Py.str_eqb (address r)) seen) eqn:X.
      + destruct (IH seen) as (I1 & I2). split.
        * intros x Hx. cbn [find].
          destruct (Py.str_eqb (address r) (address x)) eqn:Ex; [|now apply I1].
          exfalso. apply str_eqb_eq in Ex.
          destruct (drop_dups_from_nodup rs seen) as (_ & M).
          apply (M (address x)); [now apply in_map|].
          apply existsb_exists in X as (e & He & Hk). apply str_eqb_eq in Hk.
          congruence.
        * intros x [<- | Hx]; [|now apply I2].
          left. apply existsb_exists in X as (e & He & Hk).
          apply str_eqb_eq in Hk. now subst e.
      + destruct (IH (address r :: seen)) as (I1 & I2). split.
        * intros x [<- | Hx]; cbn [find].
          -- now rewrite str_eqb_refl.
          -- destruct (Py.str_eqb (address r) (address x)) eqn:Ex; [|now apply I1].
             exfalso. apply str_eqb_eq in Ex.
             destruct (drop_dups_from_nodup rs (address r :: seen)) as (_ & M).
             apply (M (address x)); [now apply in_map | now left].
        * intros x [<- | Hx]; [right; now left|].
          destruct (I2 x Hx) as [[E | Hs] | Hin].
          -- right. left. exact E.
          -- now left.
          -- right. now right. }
  destruct (G l []) as (G1 & G2). split; [exact G1|].
  intros r Hr. destruct (G2 r Hr) as [[] | H]. exact H.
Qed.

(** *** Lines of a TXT upload *)

Lemma split_chr_nonempty (sep : ascii) (s : str) : Py.split_chr sep s <> [].
Proof.
  induction s as [|c s IH]; [discriminate|].
  simpl. destruct (Py.chr_eqb c sep); [discriminate|].
  now destruct (Py.split_chr sep s).
Qed.

Lemma split_chr_cut (sep : ascii) (a b : str) :
  ~ In sep a -> Py.split_chr sep (a ++ sep :: b) = a :: Py.split_chr sep b.
Proof.
  induction a as [|x a IH]; intros H; simpl.
  - assert (E : Py.chr_eqb sep sep = true) by now apply chr_eqb_eq.
    now rewrite E.
  - assert (E : Py.chr_eqb x sep = false).
    { destruct (Py.chr_eqb x sep) eqn:E; [|reflexivity].
      apply chr_eqb_eq in E. subst x. elim H. now left. }
    rewrite E, IH; [reflexivity|]. intros Hin. apply H. now right.
Qed.

Lemma split_chr_whole (sep : ascii) (a : str) :
  ~ In sep a -> Py.split_chr sep a = [a].
Proof.
  induction a as [|x a IH]; intros H; simpl; [reflexivity|].
  assert (E : Py.chr_eqb x sep = false).
  { destruct (Py.chr_eqb x sep) eqn:E; [|reflexivity].
    apply chr_eqb_eq in E. subst x. elim H. now left. }
  rewrite E, IH; [reflexivity|]. intros Hin. apply H. now right.
Qed.

Lemma contains_chr_mid (c : ascii) (a b : str) :
  Py.contains_chr c (a ++ c :: b) = true.
Proof.
  unfold Py.contains_chr. rewrite existsb_app. simpl.
  assert (E : Py.chr_eqb c c = true) by now apply chr_eqb_eq.
  now rewrite E, orb_true_r.
Qed.

(** A line [email;name]: the address lower-cased, the name, no tags. *)
Lemma txt_line_two_fields (e n : str) :
  ~ In ";"%char e -> ~ In ";"%char n ->
  txt_line (e ++ ";"%char :: n) = [[Py.lower (Py.strip e); Py.strip n; []]].
Proof.
  intros He Hn. unfold txt_line.
  rewrite contains_chr_mid, split_chr_cut, split_chr_whole by assumption.
  reflexivity.
Qed.

(** A line [email;name;rest]: whatever follows the second semicolon
    is cut at its semicolons, trimmed piece by piece and joined again
    with semicolons as the tags. *)
Lemma txt_line_three_fields (e n t : str) :
  ~ In ";"%char e -> ~ In ";"%char n ->
  txt_line (e ++ ";"%char :: n ++ ";"%char :: t)
  = [[Py.lower (Py.strip e); Py.strip n;
      Py.join (lit ";") (map Py.strip (Py.split_chr ";"%char t))]].
Proof.
  intros He Hn. unfold txt_line.
  rewrite contains_chr_mid, !split_chr_cut by assumption.
  pose proof (split_chr_nonempty ";"%char t) as Hne.
  destruct (Py.split_chr ";"%char t) as [|p ps]; [contradiction|].
  reflexivity.
Qed.

(** C5: the TXT branch cuts the text into trimmed non-empty lines,
    reads each as a record or as a token list ([txt_rows]: a line
    [email;name;rest] gives the address, the name, and the remaining
    positions joined with semicolons as tags), cleans the addresses,
    drops (and counts) the rows whose address fails the validator, and
    of the rows left keeps, in file order, those that are first with
    their address: no address comes out twice, each row that comes out
    is the first valid row with its address, and no valid address is
    lost.  The lines ["a@x.com;A;t1"] and ["A@X.COM"] give the one
    candidate a@x.com, A, t1. *)
Theorem txt_import_keeps_first (text : str) :
  let candidates := map clean_row (txt_rows text) in
  let valid := filter valid_row candidates in
  let kept := keep_first_occurrences valid in
  txt_rows text
  = flat_map txt_line
      (map Py.strip (filter (fun l => Py.truthy (Py.strip l)) (Py.splitlines text)))
  /\ (forall e n t,
        ~ In ";"%char e -> ~ In ";"%char n ->
        txt_line (e ++ ";"%char :: n ++ ";"%char :: t)
        = [[Py.lower (Py.strip e); Py.strip n;
            Py.join (lit ";") (map Py.strip (Py.split_chr ";"%char t))]])
  /\ (forall ln,
        Py.contains_chr ";"%char ln = false ->
        txt_line ln
        = map (fun tok => [Py.lower (Py.strip tok); []; []])
              (filter (fun t => Py.truthy (Py.strip t))
                      (Re.split_runs token_sep ln)))
  /\ txt_branch text
  = Frame {| columns := match candidates with [] => [] | _ => TXT_COLUMNS end;
             rows := kept |}
          (List.length (filter (fun r => negb (valid_row r)) candidates))
  /\ NoDup (map address kept)
  /\ (forall r, In r kept ->
                find (fun x => Py.str_eqb (address x) (address r)) valid = Some r)
  /\ (forall r, In r valid -> In (address r) (map address kept))
  /\ txt_branch (lit "a@x.com;A;t1" ++ ["010"%char] ++ lit "A@X.COM")
     = Frame {| columns := TXT_COLUMNS;
                rows := [[lit "a@x.com"; lit "A"; lit "t1"]] |} 0.
Proof.
  intros candidates valid kept.
  destruct (keep_first_occurrences_first valid) as (K1 & K2).
  split; [reflexivity|].
  split; [intros e n t He Hn; now apply txt_line_three_fields|].
  split.
  { intros ln H. unfold txt_line. rewrite H. now rewrite map_map. }
  repeat split; try assumption.
  - subst kept valid candidates. unfold txt_branch, frame_of_rows.
    destruct (txt_rows text) as [|r0 rs]; [reflexivity|].
    change (Pd.empty {| columns := [lit "email"; lit "name"; lit "tags"];
                        rows := r0 :: rs |}) with false.
    cbn [negb]. fold TXT_COLUMNS. rewrite validate_emails_txt.
    rewrite <- drop_duplicates_keeps_first.
    destruct (filter valid_row (map clean_row (r0 :: rs))) as [|v vs] eqn:V.
    + reflexivity.
    + change (Pd.empty {| columns := TXT_COLUMNS; rows := v :: vs |}) with false.
      reflexivity.
  - subst kept. rewrite <- drop_duplicates_keeps_first.
    apply drop_dups_from_nodup.
Qed.

(** ** Frames *)

Lemma find_none_all {A : Type} (f : A -> bool) (l : list A) :
  (forall x, In x l -> f x = false) -> find f l = None.
Proof.
  induction l as [|x l IH]; intros H; [reflexivity|].
  simpl. rewrite (H x) by now left. apply IH. intros y Hy. apply H. now right.
Qed.

Lemma cols_lower_get_none (cols : list str) (key : str) :
  (forall c, In c cols -> Py.lower c <> key) -> Pd.cols_lower_get cols key = None.
Proof.
  intros H. apply find_none_all. intros c Hc. apply str_eqb_neq, H.
  now apply in_rev.
Qed.

Lemma cols_lower_get_some (cols : list str) (key c : str) :
  Pd.cols_lower_get cols key = Some c -> In c cols /\ Py.lower c = key.
Proof.
  intros H. apply find_some in H as [Hin Heq]. split.
  - now apply in_rev.
  - now apply str_eqb_eq.
Qed.

Lemma cols_lower_get_present (cols : list str) (key : str) :
  (exists c, In c cols /\ Py.lower c = key) ->
  exists c, Pd.cols_lower_get cols key = Some c.
Proof.
  intros (c & Hin & Heq). destruct (Pd.cols_lower_get cols key) as [c'|] eqn:E; [eauto|].
  exfalso. unfold Pd.cols_lower_get in E.
  pose proof (find_none _ _ E c) as N. rewrite <- in_rev in N.
  specialize (N Hin). simpl in N. apply str_eqb_neq in N. contradiction.
Qed.

Lemma has_column_false (df : DataFrame) (label : str) :
  (forall c, In c (columns df) -> c <> label) -> Pd.has_column df label = false.
Proof.
  intros H. unfold Pd.has_column.
  destruct (existsb _ (columns df)) eqn:E; [|reflexivity].
  apply existsb_exists in E as (c & Hin & Heq). apply str_eqb_eq in Heq.
  now elim (H c Hin).
Qed.

Lemma cells_at_absent (cols : list str) (r : list str) (label : str) :
  (forall c, In c cols -> c <> label) -> Pd.cells_at cols r label = [].
Proof.
  revert r. induction cols as [|c cols IH]; intros r H; [reflexivity|].
  destruct r as [|x r]; [reflexivity|]. cbn [Pd.cells_at].
  assert (E : Py.str_eqb c label = false).
  { apply str_eqb_neq, H. now left. }
  rewrite E. apply IH. intros c' Hc'. apply H. now right.
Qed.

Lemma cells_at_app (cols cs : list str) (r rs : list str) (label : str) :
  List.length r = List.length cols ->
  Pd.cells_at (cols ++ cs) (r ++ rs) label
  = Pd.cells_at cols r label ++ Pd.cells_at cs rs label.
Proof.
  revert r. induction cols as [|c cols IH]; intros [|x r] H; try discriminate.
  - reflexivity.
  - simpl in H. injection H as H. cbn [app Pd.cells_at].
    destruct (Py.str_eqb c label); cbn [app]; now rewrite IH.
Qed.

Lemma cells_at_map (f : str -> str) (cols : list str) (r : list str) (label : str) :
  (forall c, In c cols -> Py.str_eqb (f c) label = Py.str_eqb c label) ->
  Pd.cells_at (map f cols) r label = Pd.cells_at cols r label.
Proof.
  revert r. induction cols as [|c cols IH]; intros r H; [reflexivity|].
  destruct r as [|x r]; [reflexivity|]. cbn [map Pd.cells_at].
  rewrite (H c) by now left.
  rewrite IH; [reflexivity|]. intros c' Hc'. apply H. now right.
Qed.

Lemma cells_at_overwrite (cols : list str) (l l' v : str) (r : list str) :
  l <> l' ->
  Pd.cells_at cols (Pd.overwrite cols l v r) l' = Pd.cells_at cols r l'.
Proof.
  intros Hne. revert r. induction cols as [|c cols IH]; intros r; [now destruct r|].
  destruct r as [|x r]; [reflexivity|]. cbn [Pd.overwrite Pd.cells_at].
  rewrite IH. destruct (Py.str_eqb c l') eqn:E; [|reflexivity].
  apply str_eqb_eq in E. subst c.
  assert (E : Py.str_eqb l' l = false) by (apply str_eqb_neq; congruence).
  now rewrite E.
Qed.

Lemma in_select {A : Type} (mask : list bool) (l : list A) (x : A) :
  In x (Pd.select mask l) -> In x l.
Proof.
  revert l. induction mask as [|m mask IH]; intros [|y l] H; try contradiction.
  simpl in H. destruct m.
  - destruct H as [-> | H]; [now left | right; now apply IH].
  - right. now apply IH.
Qed.

(** A renaming whose pairs agree on whether they are [label] does not
    move that label. *)
Lemma rename_label_keeps (m : list (str * str)) (label c : str) :
  (forall k v, In (k, v) m -> Py.str_eqb v label = Py.str_eqb k label) ->
  Py.str_eqb (Pd.rename_label m c) label = Py.str_eqb c label.
Proof.
  intros H. unfold Pd.rename_label.
  destruct (find _ (rev m)) as [[k v]|] eqn:E; [|reflexivity].
  apply find_some in E as [Hin Heq]. simpl in Heq. apply str_eqb_eq in Heq.
  subst k. simpl. apply H. now apply in_rev.
Qed.

(** *** How the steps of the CSV branch treat a column of empty cells *)

Lemma assign_scalar_fresh (df : DataFrame) (label : str) :
  (forall c, In c (columns df) -> c <> label) ->
  well_formed df ->
  well_formed (Pd.assign_scalar df label [])
  /\ empty_under label (Pd.assign_scalar df label []).
Proof.
  intros Hfresh Hwf. unfold Pd.assign_scalar, well_formed, empty_under.
  rewrite has_column_false by exact Hfresh. cbn [columns rows].
  split; apply Forall_forall; intros r' Hr';
    apply in_map_iff in Hr' as (r & <- & Hr);
    pose proof (proj1 (Forall_forall _ _) Hwf r Hr) as Hlen; simpl in Hlen.
  - rewrite !length_app. simpl. lia.
  - rewrite cells_at_app by exact Hlen.
    rewrite cells_at_absent by exact Hfresh. simpl. now rewrite str_eqb_refl.
Qed.

Lemma assign_scalar_other (df : DataFrame) (label other : str) :
  other <> label ->
  (forall c, In c (columns df) -> c <> other) ->
  well_formed df ->
  empty_under label df ->
  empty_under label (Pd.assign_scalar df other []).
Proof.
  intros Hne Hfresh Hwf He. unfold Pd.assign_scalar, empty_under.
  rewrite has_column_false by exact Hfresh. cbn [columns rows].
  apply Forall_forall. intros r' Hr'. apply in_map_iff in Hr' as (r & <- & Hr).
  pose proof (proj1 (Forall_forall _ _) Hwf r Hr) as Hlen. simpl in Hlen.
  rewrite cells_at_app by exact Hlen.
  rewrite (proj1 (Forall_forall _ _) He r Hr). simpl.
  assert (E : Py.str_eqb other label = false) by now apply str_eqb_neq.
  now rewrite E.
Qed.

Lemma rename_keeps_empty (df : DataFrame) (m : list (str * str)) (label : str) :
  (forall k v, In (k, v) m -> Py.str_eqb v label = Py.str_eqb k label) ->
  empty_under label df -> empty_under label (Pd.rename df m).
Proof.
  intros Hm He. unfold empty_under, Pd.rename. cbn [columns rows].
  apply Forall_forall. intros r Hr.
  rewrite cells_at_map; [exact (proj1 (Forall_forall _ _) He r Hr)|].
  intros c _. now apply rename_label_keeps.
Qed.

Lemma validate_emails_keeps_empty (df df' : DataFrame) (skipped : nat) (label : str) :
  label <> lit "email" ->
  validate_emails df = Some (df', skipped) ->
  empty_under label df -> empty_under label df'.
Proof.
  intros Hne Hv He. unfold validate_emails in Hv.
  destruct (Pd.series df (lit "email")) as [col|]; [|discriminate].
  injection Hv as <- _. unfold empty_under, Pd.mask_rows, Pd.assign_series.
  cbn [columns rows]. apply Forall_forall. intros r' Hr'.
  apply in_select, in_map_iff in Hr' as ([r v] & <- & Hin).
  apply in_combine_l in Hin. cbn [fst snd].
  rewrite cells_at_overwrite by (intros X; apply Hne; symmetry; exact X).
  exact (proj1 (Forall_forall _ _) He r Hin).
Qed.

(** *** The CSV branch *)

Lemma cols_lower_get_none_inv (cols : list str) (key c : str) :
  Pd.cols_lower_get cols key = None -> In c cols -> Py.lower c <> key.
Proof.
  intros E Hin. unfold Pd.cols_lower_get in E.
  pose proof (find_none _ _ E c) as N. rewrite <- in_rev in N.
  specialize (N Hin). simpl in N. now apply str_eqb_neq.
Qed.

Lemma lower_ne (c l k : str) : Py.lower c = k -> Py.lower l <> k -> c <> l.
Proof. intros H N E. subst c. contradiction. Qed.

Lemma assign_scalar_columns (df : DataFrame) (label v : str) :
  (forall c, In c (columns df) -> c <> label) ->
  columns (Pd.assign_scalar df label v) = columns df ++ [label].
Proof.
  intros H. unfold Pd.assign_scalar. now rewrite has_column_false by exact H.
Qed.

Lemma csv_branch_found (df : DataFrame) (ec : str) :
  Pd.cols_lower_get (columns df) (lit "email") = Some ec ->
  csv_branch df
  = match validate_emails (csv_renamed df ec) with
    | None => Broke
    | Some (d, k) => Frame d k
    end.
Proof.
  intros E. unfold csv_branch, csv_renamed. rewrite E.
  destruct (Pd.cols_lower_get (columns df) (lit "name"));
    destruct (Pd.cols_lower_get (columns df) (lit "tags")); reflexivity.
Qed.

Section CsvColumns.

Variable df : DataFrame.
Variable ec : str.
Hypothesis wf : well_formed df.
Hypothesis found : Pd.cols_lower_get (columns df) (lit "email") = Some ec.

Lemma ec_lower : Py.lower ec = lit "email".
Proof. now apply cols_lower_get_some in found. Qed.

(** With no column for [name], the added one is the only column that
    ends up labelled [name], and its cells are empty. *)
Lemma csv_renamed_name_empty :
  Pd.cols_lower_get (columns df) (lit "name") = None ->
  empty_under (lit "name") (csv_renamed df ec).
Proof.
  intros Hn. unfold csv_renamed. rewrite Hn.
  assert (Fn : forall c, In c (columns df) -> c <> lit "name").
  { intros c Hc E. apply (@cols_lower_get_none_inv _ _ _ Hn Hc). now subst c. }
  destruct (@assign_scalar_fresh _ _ Fn wf) as (W1 & E1).
  pose proof ec_lower as Hec.
  destruct (Pd.cols_lower_get (columns df) (lit "tags")) as [t|] eqn:Ht.
  - apply cols_lower_get_some in Ht as [_ Ht].
    apply rename_keeps_empty; [|exact E1].
    intros k v [H | [H | [H | []]]]; injection H as <- <-.
    + symmetry. apply str_eqb_neq. apply (lower_ne Hec). discriminate.
    + reflexivity.
    + symmetry. apply str_eqb_neq. apply (lower_ne Ht). discriminate.
  - apply rename_keeps_empty.
    + intros k v [H | [H | [H | []]]]; injection H as <- <-.
      * symmetry. apply str_eqb_neq. apply (lower_ne Hec). discriminate.
      * reflexivity.
      * reflexivity.
    + apply assign_scalar_other; [discriminate | | exact W1 | exact E1].
      intros c Hc. rewrite (@assign_scalar_columns _ _ _ Fn) in Hc.
      apply in_app_or in Hc as [Hc | [<- | []]]; [|discriminate].
      intros E. apply (@cols_lower_get_none_inv _ _ _ Ht Hc). now subst c.
Qed.

(** The same for [tags]. *)
Lemma csv_renamed_tags_empty :
  Pd.cols_lower_get (columns df) (lit "tags") = None ->
  empty_under (lit "tags") (csv_renamed df ec).
Proof.
  intros Ht. unfold csv_renamed. rewrite Ht.
  assert (Ft : forall c, In c (columns df) -> c <> lit "tags").
  { intros c Hc E. apply (@cols_lower_get_none_inv _ _ _ Ht Hc). now subst c. }
  pose proof ec_lower as Hec.
  destruct (Pd.cols_lower_get (columns df) (lit "name")) as [n|] eqn:Hn.
  - apply cols_lower_get_some in Hn as [_ Hn].
    apply rename_keeps_empty; [|now apply assign_scalar_fresh].
    intros k v [H | [H | [H | []]]]; injection H as <- <-.
    + symmetry. apply str_eqb_neq. apply (lower_ne Hec). discriminate.
    + symmetry. apply str_eqb_neq. apply (lower_ne Hn). discriminate.
    + reflexivity.
  - assert (Fn : forall c, In c (columns df) -> c <> lit "name").
    { intros c Hc E. apply (@cols_lower_get_none_inv _ _ _ Hn Hc). now subst c. }
    destruct (@assign_scalar_fresh _ _ Fn wf) as (W1 & _).
    apply rename_keeps_empty.
    + intros k v [H | [H | [H | []]]]; injection H as <- <-.
      * symmetry. apply str_eqb_neq. apply (lower_ne Hec). discriminate.
      * reflexivity.
      * reflexivity.
    + apply assign_scalar_fresh; [|exact W1].
      intros c Hc. rewrite (@assign_scalar_columns _ _ _ Fn) in Hc.
      apply in_app_or in Hc as [Hc | [<- | []]]; [now apply Ft | discriminate].
Qed.

End CsvColumns.

Lemma filter_map_length {A B : Type} (p : B -> bool) (g : A -> B) (l : list A) :
  List.length (filter p (map g l)) = List.length (filter (fun x => p (g x)) l).
Proof.
  induction l as [|x l IH]; [reflexivity|].
  simpl. destruct (p (g x)); simpl; now rewrite IH.
Qed.

Lemma filter_single {A : Type} (q : A -> bool) (l : list A) (x y : A) :
  List.length (filter q l) = 1 ->
  In x l -> q x = true -> In y l -> q y = true -> x = y.
Proof.
  intros H Hx Qx Hy Qy.
  assert (Fx : In x (filter q l)) by now apply filter_In.
  assert (Fy : In y (filter q l)) by now apply filter_In.
  destruct (filter q l) as [|z [|z' f]]; try discriminate.
  destruct Fx as [<- | []]. now destruct Fy as [<- | []].
Qed.

(** The columns of the renamed frame: those of the upload, then the
    added ones, each passed through the renaming. *)
Lemma csv_renamed_columns (df : DataFrame) (ec : str) :
  exists ex nc tc,
    columns (csv_renamed df ec)
    = map (Pd.rename_label [(ec, lit "email"); (nc, lit "name"); (tc, lit "tags")])
          (columns df ++ ex)
    /\ Py.lower nc = lit "name"
    /\ Py.lower tc = lit "tags"
    /\ (forall c, In c ex -> c = lit "name" \/ c = lit "tags").
Proof.
  unfold csv_renamed.
  destruct (Pd.cols_lower_get (columns df) (lit "name")) as [n|] eqn:Hn;
    destruct (Pd.cols_lower_get (columns df) (lit "tags")) as [t|] eqn:Ht.
  - exists [], n, t. rewrite app_nil_r.
    apply cols_lower_get_some in Hn as [_ Hn]. apply cols_lower_get_some in Ht as [_ Ht].
    repeat split; auto. intros c [].
  - assert (Ft : forall c, In c (columns df) -> c <> lit "tags").
    { intros c Hc E. apply (@cols_lower_get_none_inv _ _ _ Ht Hc). now subst c. }
    exists [lit "tags"], n, (lit "tags").
    apply cols_lower_get_some in Hn as [_ Hn].
    cbn [Pd.rename columns]. rewrite (@assign_scalar_columns _ _ _ Ft).
    repeat split; auto. intros c [<- | []]. now right.
  - assert (Fn : forall c, In c (columns df) -> c <> lit "name").
    { intros c Hc E. apply (@cols_lower_get_none_inv _ _ _ Hn Hc). now subst c. }
    exists [lit "name"], (lit "name"), t.
    apply cols_lower_get_some in Ht as [_ Ht].
    cbn [Pd.rename columns]. rewrite (@assign_scalar_columns _ _ _ Fn).
    repeat split; auto. intros c [<- | []]. now left.
  - assert (Fn : forall c, In c (columns df) -> c <> lit "name").
    { intros c Hc E. apply (@cols_lower_get_none_inv _ _ _ Hn Hc). now subst c. }
    assert (Ft : forall c, In c (columns (Pd.assign_scalar df (lit "name") [])) ->
                           c <> lit "tags").
    { intros c Hc. rewrite (@assign_scalar_columns _ _ _ Fn) in Hc.
      apply in_app_or in Hc as [Hc | [<- | []]]; [|discriminate].
      intros E. apply (@cols_lower_get_none_inv _ _ _ Ht Hc). now subst c. }
    exists [lit "name"; lit "tags"], (lit "name"), (lit "tags").
    cbn [Pd.rename columns].
    rewrite (@assign_scalar_columns _ _ _ Ft), (@assign_scalar_columns _ _ _ Fn).
    rewrite <- app_assoc. repeat split; auto.
    intros c [<- | [<- | []]]; auto.
Qed.

Lemma rename_email_agree (ec nc tc c : str) :
  Py.lower ec = lit "email" ->
  Py.lower nc = lit "name" ->
  Py.lower tc = lit "tags" ->
  (c <> ec -> Py.lower c <> lit "email") ->
  Py.str_eqb (Pd.rename_label [(ec, lit "email"); (nc, lit "name"); (tc, lit "tags")] c)
             (lit "email")
  = Py.str_eqb (Py.lower c) (lit "email").
Proof.
  intros He Hn Ht Hc. unfold Pd.rename_label. cbn [rev app find fst snd].
  destruct (Py.str_eqb tc c) eqn:E1.
  { apply str_eqb_eq in E1. subst c. now rewrite Ht. }
  destruct (Py.str_eqb nc c) eqn:E2.
  { apply str_eqb_eq in E2. subst c. now rewrite Hn. }
  destruct (Py.str_eqb ec c) eqn:E3.
  { apply str_eqb_eq in E3. subst c. now rewrite He. }
  apply str_eqb_neq in E3.
  assert (N : Py.lower c <> lit "email") by (apply Hc; congruence).
  apply str_eqb_neq in N. rewrite N. apply str_eqb_neq.
  intros E. subst c. now apply str_eqb_neq in N.
Qed.

(** With one column that lower-cases to [email], the renamed frame has
    one column labelled [email], and the branch goes through. *)
Lemma csv_branch_goes_through (df : DataFrame) :
  List.length (filter (fun c => Py.str_eqb (Py.lower c) (lit "email")) (columns df)) = 1 ->
  exists df' skipped, csv_branch df = Frame df' skipped.
Proof.
  intros Hone.
  destruct (Pd.cols_lower_get (columns df) (lit "email")) as [ec|] eqn:Hfound.
  2:{ exfalso.
      destruct (filter _ (columns df)) as [|x f] eqn:F; [discriminate|].
      assert (Hx : In x (x :: f)) by now left.
      rewrite <- F in Hx. apply filter_In in Hx as [Hx Qx].
      apply str_eqb_eq in Qx.
      exact (@cols_lower_get_none_inv _ _ _ Hfound Hx Qx). }
  rewrite (csv_branch_found _ Hfound).
  destruct (cols_lower_get_some _ _ Hfound) as [Hin Hec].
  destruct (csv_renamed_columns df ec) as (ex & nc & tc & Hcols & Hn & Ht & Hex).
  assert (L : List.length (filter (fun c => Py.str_eqb c (lit "email"))
                                  (columns (csv_renamed df ec))) = 1).
  { rewrite Hcols, filter_map_length.
    rewrite (filter_ext_in _ (fun c => Py.str_eqb (Py.lower c) (lit "email"))).
    - rewrite filter_app, length_app, Hone.
      assert (Z : filter (fun c => Py.str_eqb (Py.lower c) (lit "email")) ex = []).
      { clear - Hex. induction ex as [|e ex IH]; [reflexivity|].
        simpl. destruct (Hex e (or_introl eq_refl)) as [-> | ->]; simpl;
          apply IH; intros c Hc; apply Hex; now right. }
      now rewrite Z.
    - intros c Hc. apply rename_email_agree; auto.
      intros Hne Hl. apply in_app_or in Hc as [Hc | Hc].
      + apply Hne. apply (@filter_single _ _ _ c ec Hone); auto; now apply str_eqb_eq.
      + destruct (Hex c Hc) as [-> | ->]; discriminate. }
  unfold validate_emails, Pd.series.
  destruct (filter _ (columns (csv_renamed df ec))) as [|x [|y f]]; try discriminate.
  eauto.
Qed.

Lemma row_get_empty (str_of_series : list str -> str) (cols : list str)
      (row : list str) (label : string) :
  Pd.cells_at cols row (lit label) = [[]] ->
  row_get str_of_series cols row label [] = [].
Proof. intros H. unfold row_get. now rewrite H. Qed.

(** C6: a CSV none of whose column names lower-cases to [email] is
    refused: the page shows the error and, import button pressed or
    not, leaves the world as it was.  A CSV that has such a column is
    never refused; with exactly one such column the branch yields its
    frame; and in the frame it yields, every row reads the empty
    string under [name] (under [tags]) when the CSV had no such
    column. *)
Theorem csv_email_column_required
        (utcnow : nat -> str) (str_of_series : list str -> str) (df : DataFrame) :
  ((forall c, In c (columns df) -> Py.lower c <> lit "email") ->
   csv_branch df = Refused MISSING_EMAIL
   /\ forall pressed w,
       page_contacts_upload utcnow str_of_series (CsvFile df) pressed w
       = (ShownError MISSING_EMAIL, w))
  /\ ((exists c, In c (columns df) /\ Py.lower c = lit "email") ->
      (forall msg, csv_branch df <> Refused msg)
      /\ (List.length (filter (fun c => Py.str_eqb (Py.lower c) (lit "email"))
                              (columns df)) = 1 ->
          exists df' skipped, csv_branch df = Frame df' skipped)
      /\ (well_formed df ->
          forall df' skipped,
            csv_branch df = Frame df' skipped ->
            ((forall c, In c (columns df) -> Py.lower c <> lit "name") ->
             Forall (fun row => row_get str_of_series (columns df') row "name" [] = [])
                    (rows df'))
            /\ ((forall c, In c (columns df) -> Py.lower c <> lit "tags") ->
                Forall (fun row => row_get str_of_series (columns df') row "tags" [] = [])
                       (rows df')))).
Proof.
  split.
  - intros Hno.
    assert (R : csv_branch df = Refused MISSING_EMAIL).
    { unfold csv_branch. now rewrite (cols_lower_get_none _ Hno). }
    split; [exact R|]. intros pressed w. unfold page_contacts_upload. now rewrite R.
  - intros Hhas. apply cols_lower_get_present in Hhas as (ec & Hfound).
    pose proof (csv_branch_found _ Hfound) as B.
    assert (Nn : lit "name" <> lit "email") by discriminate.
    assert (Nt : lit "tags" <> lit "email") by discriminate.
    split; [|split].
    + intros msg. rewrite B.
      destruct (validate_emails (csv_renamed df ec)) as [[d k]|]; discriminate.
    + apply csv_branch_goes_through.
    + intros Hwf df' skipped Hframe. rewrite B in Hframe.
      destruct (validate_emails (csv_renamed df ec)) as [[d k]|] eqn:V; [|discriminate].
      injection Hframe as -> ->.
      split; intros Hno; apply Forall_forall; intros row Hrow; apply row_get_empty.
      * assert (E : empty_under (lit "name") df').
        { apply (@validate_emails_keeps_empty _ _ _ _ Nn V).
          apply csv_renamed_name_empty; auto. now apply cols_lower_get_none. }
        exact (proj1 (Forall_forall _ _) E row Hrow).
      * assert (E : empty_under (lit "tags") df').
        { apply (@validate_emails_keeps_empty _ _ _ _ Nt V).
          apply csv_renamed_tags_empty; auto. now apply cols_lower_get_none. }
        exact (proj1 (Forall_forall _ _) E row Hrow).
Qed.

Lemma csv_email_column_required_witness :
  page_contacts_upload sample_clock no_series (CsvFile csv_name_tags) true world_with_ana
  = (ShownError MISSING_EMAIL, world_with_ana)
  /\ csv_branch csv_email_only
     = Frame {| columns := TXT_COLUMNS; rows := [[lit "ana@example.com"; []; []]] |} 1
  /\ Forall (fun row => row_get no_series TXT_COLUMNS row "name" [] = [])
            [[lit "ana@example.com"; []; []]].
Proof.
  destruct (csv_email_column_required sample_clock no_series csv_name_tags) as [A _].
  destruct (csv_email_column_required sample_clock no_series csv_email_only) as [_ B].
  split; [|split].
  - apply A. intros c [<- | [<- | []]]; discriminate.
  - reflexivity.
  - destruct B as (_ & _ & B).
    + exists (lit "Email"). split; [now left | reflexivity].
    + refine (proj1 (B _ _ 1 eq_refl) _).
      * repeat constructor.
      * intros c [<- | []]. discriminate.
Defined.

(** The header [email,Email]: the renaming leaves two columns called
    [email], pandas hands back a frame where a Series is needed, and
    the run stops on the exception. *)
Example csv_two_email_columns :
  csv_branch {| columns := [lit "email"; lit "Email"];
                rows := [[lit "ana@example.com"; lit "x"]] |} = Broke.
Proof. reflexivity. Qed.

(** * Further properties *)

(** ** The validator on the addresses its callers hand it *)

Lemma lstrip_head (s : str) (c : ascii) (t : str) :
  Py.lstrip s = c :: t -> Py.isspace c = false.
Proof.
  induction s as [|x s IH]; simpl; [discriminate|].
  destruct (Py.isspace x) eqn:E; [exact IH|]. intros H. now injection H as <- _.
Qed.

(** A stripped string does not end in white space. *)
Lemma strip_last (s t : str) (c : ascii) :
  Py.strip s = t ++ [c] -> Py.isspace c = false.
Proof.
  unfold Py.strip, Py.rstrip. intros H.
  apply (f_equal (@rev ascii)) in H. rewrite rev_involutive, rev_app_distr in H.
  simpl in H. now apply lstrip_head in H.
Qed.

Lemma shape_chr_not_space (c : ascii) : shape_chr c = true -> Py.isspace c = false.
Proof. destruct c as [[] [] [] [] [] [] [] []]; simpl; intros H; solve [reflexivity | discriminate]. Qed.

Lemma lstrip_fixed (s : str) :
  match s with [] => True | c :: _ => Py.isspace c = false end -> Py.lstrip s = s.
Proof. destruct s as [|c s]; [reflexivity|]. simpl. now intros ->. Qed.

(** Stripping leaves a well-shaped address as it is. *)
Lemma strip_shape (s : str) : email_shape s -> Py.strip s = s.
Proof.
  intros H. pose proof (email_shape_chars H) as Hc.
  assert (Hs : forall x, In x s -> Py.isspace x = false).
  { intros x Hx. apply shape_chr_not_space. eapply forallb_forall in Hc; eauto. }
  unfold Py.strip, Py.rstrip.
  rewrite (lstrip_fixed s).
  - rewrite lstrip_fixed; [apply rev_involutive|].
    destruct (rev s) as [|c r] eqn:E; [exact I|].
    apply Hs. apply in_rev. rewrite E. now left.
  - destruct s as [|c r]; [exact I|]. apply Hs. now left.
Qed.

Lemma lstrip_app_keep (s t : str) :
  Py.lstrip s <> [] -> Py.lstrip (s ++ t) = Py.lstrip s ++ t.
Proof.
  induction s as [|c s IH]; simpl; [contradiction|].
  destruct (Py.isspace c); [exact IH | reflexivity].
Qed.

(** Stripping takes the newline off a well-shaped address. *)
Lemma strip_shape_newline (s : str) :
  email_shape s -> Py.strip (s ++ ["010"%char]) = s.
Proof.
  intros H. pose proof (strip_shape H) as Hs.
  assert (Hne : s <> []).
  { destruct H as (loc & dom & tld & -> & _). now destruct loc. }
  unfold Py.strip, Py.rstrip in *.
  assert (L : Py.lstrip s = s).
  { pose proof (email_shape_chars H) as Hc. apply lstrip_fixed.
    destruct s as [|c r]; [exact I|]. apply shape_chr_not_space.
    simpl in Hc. now apply andb_true_iff in Hc as [Hc _]. }
  rewrite lstrip_app_keep by (rewrite L; exact Hne).
  rewrite L, rev_app_distr. simpl. rewrite L in Hs. exact Hs.
Qed.

Lemma class_lower :
  (forall c, local_class (Py.lower_chr c) = local_class c)
  /\ (forall c, domain_class (Py.lower_chr c) = domain_class c)
  /\ (forall c, is_alpha (Py.lower_chr c) = is_alpha c)
  /\ (forall c, Py.chr_eqb "@"%char (Py.lower_chr c) = Py.chr_eqb "@"%char c)
  /\ (forall c, Py.chr_eqb "."%char (Py.lower_chr c) = Py.chr_eqb "."%char c)
  /\ (forall c, Py.chr_eqb "010"%char (Py.lower_chr c) = Py.chr_eqb "010"%char c).
Proof.
  repeat split; intros c; destruct c as [[] [] [] [] [] [] [] []]; reflexivity.
Qed.

Lemma lower_shape (s : str) : email_shape s -> email_shape (Py.lower s).
Proof.
  destruct class_lower as (L & D & A & _).
  intros (loc & dom & tld & -> & Hl1 & Hl2 & Hd1 & Hd2 & Ht1 & Ht2).
  exists (Py.lower loc), (Py.lower dom), (Py.lower tld).
  assert (F : forall (p : ascii -> bool) l,
             (forall c, p (Py.lower_chr c) = p c) ->
             forallb p (Py.lower l) = forallb p l).
  { intros p l Hp. induction l as [|x l IH]; [reflexivity|].
    simpl. now rewrite Hp, IH. }
  unfold Py.lower in *. rewrite !map_app. simpl. rewrite !map_app. simpl.
  repeat split.
  - now destruct loc.
  - fold (Py.lower loc). now rewrite F.
  - now destruct dom.
  - fold (Py.lower dom). now rewrite F.
  - now rewrite length_map.
  - fold (Py.lower tld). now rewrite F.
Qed.

(** What passes the validator is, once stripped and lower-cased, of
    the shape. *)
Lemma clean_of_valid (a : str) :
  is_valid_email (Some a) = true -> email_shape (Py.lower (Py.strip a)).
Proof.
  intros H. apply is_valid_email_accepts in H as [H | (t & -> & H)].
  - rewrite strip_shape by exact H. now apply lower_shape.
  - rewrite strip_shape_newline by exact H. now apply lower_shape.
Qed.

(** X1: the validator accepts exactly the strings of the shape and
    those strings followed by one newline; [None] and the empty string
    are turned down. *)
Theorem validator_accepts_exactly (s : option str) :
  is_valid_email s = true <->
  exists t, s = Some t
            /\ (email_shape t \/ exists u, t = u ++ ["010"%char] /\ email_shape u).
Proof.
  destruct s as [t|].
  - rewrite is_valid_email_accepts. split.
    + intros H. eauto.
    + intros (t' & E & H). now injection E as <-.
  - split; [discriminate | intros (t & E & _); discriminate].
Qed.

(** X2: on an address that was stripped and lower-cased first, as the
    import and the table editor do, the validator is exact: it accepts
    the cleaned address if and only if that address is of the shape. *)
Theorem validator_exact_on_cleaned (s : str) :
  is_valid_email (Some (Py.lower (Py.strip s))) = true
  <-> email_shape (Py.lower (Py.strip s)).
Proof.
  rewrite is_valid_email_accepts. split; [|now left].
  intros [H | (t & E & _)]; [exact H|].
  rewrite <- strip_lower in E. apply strip_last in E. discriminate.
Qed.

(** X3: lower-casing never costs an address its acceptance: what the
    validator accepts, it accepts again in lower case.  The converse
    is not stated: Python lower-cases the Kelvin sign, which the
    pattern turns down, to the letter k, which it takes. *)
Theorem lowercase_keeps_accepted (s : str) :
  is_valid_email (Some s) = true -> is_valid_email (Some (Py.lower s)) = true.
Proof.
  rewrite !is_valid_email_accepts.
  intros [H | (t & -> & H)].
  - left. now apply lower_shape.
  - right. exists (Py.lower t). split; [|now apply lower_shape].
    unfold Py.lower. now rewrite map_app.
Qed.

Lemma lowercase_keeps_accepted_witness :
  is_valid_email (Some (lit "Ana@Example.COM")) = true
  /\ is_valid_email (Some (Py.lower (lit "Ana@Example.COM"))) = true.
Proof.
  assert (H : is_valid_email (Some (lit "Ana@Example.COM")) = true) by reflexivity.
  split; [exact H|].
  exact (@lowercase_keeps_accepted (lit "Ana@Example.COM") H).
Defined.

(** ** Runs of the dispatcher *)

Section Runs.

Variable utcnow : nat -> str.
Variable smtp_try : list SmtpAttempt -> SmtpAttempt -> option str.
Variable cfg : Config.

Lemma transport_answers_simulated (campaign : Campaign.t) (rs : list Contact.t)
      (w : World) :
  credentials_set cfg = false ->
  transport_answers smtp_try cfg campaign rs w = map (fun _ => (true, SIMULATED)) rs.
Proof.
  intros H. revert w. induction rs as [|r rs IH]; intros w; [reflexivity|].
  cbn [transport_answers map]. rewrite send_simulated by exact H. now rewrite IH.
Qed.

Lemma logged_simulated (cid : Z) (rs : list Contact.t) (seq : Z) (clk : nat) :
  map (fun r => (SendRecord.email r, SendRecord.status r, SendRecord.error r))
      (logged utcnow cid rs (map (fun _ => (true, SIMULATED)) rs) seq clk)
  = map (fun r => (Contact.email r, SENT, SIMULATED)) rs.
Proof.
  revert seq clk. induction rs as [|r rs IH]; intros seq clk; [reflexivity|].
  cbn [map logged fst snd SendRecord.email SendRecord.status SendRecord.error].
  now rewrite IH.
Qed.

(** X4: with the credentials not all set, a run over any recipients
    reports every one of them as sent, logs for each, in order, a SENT
    row with the marker [SIMULATED], and makes no SMTP attempt. *)
Theorem simulated_run_all_sent (campaign : Campaign.t) (rs : list Contact.t)
        (w : World) :
  credentials_set cfg = false ->
  let res := page_send_all utcnow smtp_try cfg campaign rs w in
  fst res = (List.length rs, List.length rs)
  /\ attempts (snd res) = attempts w
  /\ map (fun r => (SendRecord.email r, SendRecord.status r, SendRecord.error r))
         (appended_sends w (snd res))
     = map (fun r => (Contact.email r, SENT, SIMULATED)) rs.
Proof.
  intros H res. subst res.
  pose proof (page_send_all_sends utcnow smtp_try cfg campaign rs w) as S.
  rewrite (appended_sends_app _ _ _ S).
  destruct (send_loop_spec utcnow smtp_try cfg campaign rs 0 w) as (S1 & _ & S3 & _).
  rewrite transport_answers_simulated in * by exact H.
  rewrite logged_simulated. rewrite H in S3. rewrite app_nil_r in S3.
  unfold page_send_all.
  destruct (send_loop utcnow smtp_try cfg campaign rs 0 w) as [n w'].
  cbn [fst snd] in *. repeat split; [|exact S3].
  rewrite S1. f_equal. clear. induction rs as [|r rs IH]; simpl; [reflexivity|].
  simpl in IH. lia.
Qed.

Lemma send_loop_acc (campaign : Campaign.t) (rs : list Contact.t) (acc : nat)
      (w : World) :
  send_loop utcnow smtp_try cfg campaign rs acc w
  = (acc + fst (send_loop utcnow smtp_try cfg campaign rs 0 w),
     snd (send_loop utcnow smtp_try cfg campaign rs 0 w)).
Proof.
  revert acc w. induction rs as [|r rs IH]; intros acc w.
  - simpl. f_equal. lia.
  - cbn [send_loop].
    destruct (send_email_smtp smtp_try cfg (Contact.email r) _ _ w) as [[ok err] w1].
    rewrite IH. rewrite (IH (if ok then 1 else 0)). cbn [fst snd].
    f_equal. destruct ok; lia.
Qed.

Lemma send_loop_app (campaign : Campaign.t) (rs1 rs2 : list Contact.t) (acc : nat)
      (w : World) :
  send_loop utcnow smtp_try cfg campaign (rs1 ++ rs2) acc w
  = send_loop utcnow smtp_try cfg campaign rs2
      (fst (send_loop utcnow smtp_try cfg campaign rs1 acc w))
      (snd (send_loop utcnow smtp_try cfg campaign rs1 acc w)).
Proof.
  revert acc w. induction rs1 as [|r rs1 IH]; intros acc w; [reflexivity|].
  cbn [app send_loop].
  destruct (send_email_smtp smtp_try cfg (Contact.email r) _ _ w) as [[ok err] w1].
  apply IH.
Qed.

(** X5: sending to a list in two batches, one after the other, leaves
    the same world as sending to the whole list at once, and the two
    reports add up. *)
Theorem run_in_two_batches (campaign : Campaign.t) (rs1 rs2 : list Contact.t)
        (w : World) :
  let first := page_send_all utcnow smtp_try cfg campaign rs1 w in
  let second := page_send_all utcnow smtp_try cfg campaign rs2 (snd first) in
  let whole := page_send_all utcnow smtp_try cfg campaign (rs1 ++ rs2) w in
  snd whole = snd second
  /\ fst whole = (fst (fst first) + fst (fst second),
                  snd (fst first) + snd (fst second)).
Proof.
  intros first second whole. subst first second whole. unfold page_send_all.
  rewrite send_loop_app.
  destruct (send_loop utcnow smtp_try cfg campaign rs1 0 w) as [n1 w1]. cbn [fst snd].
  rewrite send_loop_acc.
  destruct (send_loop utcnow smtp_try cfg campaign rs2 0 w1) as [n2 w2]. cbn [fst snd].
  now rewrite length_app.
Qed.

Lemma sorted_snoc (l : list Z) (a : Z) :
  StronglySorted Z.lt l -> Forall (fun x => (x < a)%Z) l ->
  StronglySorted Z.lt (l ++ [a]).
Proof.
  induction l as [|x l IH]; intros Hs Hf; simpl.
  - repeat constructor.
  - apply StronglySorted_inv in Hs as [Hs Hx]. inversion Hf as [|? ? Hxa Hf']; subst.
    constructor; [now apply IH|].
    apply Forall_app. split; [exact Hx | now repeat constructor].
Qed.

Lemma log_send_ok (campaign_id contact_id : option Z) (email status error : str)
      (w : World) :
  log_ok (db w) ->
  log_ok (db (log_send utcnow campaign_id contact_id email status error w)).
Proof.
  intros [Hs Hb]. unfold log_ok, log_send, execute_insert_send. cbn [db with_db sends sends_seq].
  rewrite map_app. cbn [map SendRecord.id]. split.
  - apply sorted_snoc; [exact Hs|]. apply Forall_map.
    eapply Forall_impl; [|exact Hb]. simpl. intros r Hr. lia.
  - apply Forall_app. split.
    + eapply Forall_impl; [|exact Hb]. simpl. intros r Hr. lia.
    + repeat constructor. simpl. lia.
Qed.

Lemma send_loop_log_ok (campaign : Campaign.t) (rs : list Contact.t) (acc : nat)
      (w : World) :
  log_ok (db w) -> log_ok (db (snd (send_loop utcnow smtp_try cfg campaign rs acc w))).
Proof.
  revert acc w. induction rs as [|r rs IH]; intros acc w H; [exact H|].
  cbn [send_loop].
  pose proof (send_frame smtp_try cfg (Contact.email r) (Campaign.subject campaign)
                (render (Campaign.body campaign) (Py.or_else (Contact.name r) []))
                w) as (F1 & _).
  destruct (send_email_smtp smtp_try cfg (Contact.email r) _ _ w) as [[ok err] w1].
  cbn [snd] in F1. apply IH. apply log_send_ok. now rewrite F1.
Qed.

(** X6: the send log only grows.  After a run of the dispatcher or a
    test send the rows that were there are still there, unchanged and
    at the head of the table, and the table is still in the order of
    its ids with no id above the last one handed out. *)
Theorem send_log_only_grows (campaign : Campaign.t) (w : World) :
  log_ok (db w) ->
  (forall rs,
      let w' := snd (page_send_all utcnow smtp_try cfg campaign rs w) in
      log_ok (db w')
      /\ firstn (List.length (sends (db w))) (sends (db w')) = sends (db w))
  /\ (forall test_email,
         let w' := snd (page_send_test utcnow smtp_try cfg campaign test_email w) in
         log_ok (db w')
         /\ firstn (List.length (sends (db w))) (sends (db w')) = sends (db w)).
Proof.
  intros H. split.
  - intros rs w'. subst w'. split.
    + unfold page_send_all.
      pose proof (send_loop_log_ok campaign rs 0 w H) as L.
      now destruct (send_loop utcnow smtp_try cfg campaign rs 0 w).
    + rewrite (page_send_all_sends utcnow smtp_try cfg campaign rs w).
      now rewrite firstn_app, firstn_all, Nat.sub_diag, app_nil_r.
  - intros [|c e] w'; subst w'.
    + simpl. split; [exact H | apply firstn_all].
    + assert (Hne : c :: e <> []) by discriminate.
      destruct (page_send_test_spec utcnow smtp_try cfg campaign w Hne)
        as (_ & _ & S & _).
      split.
      * unfold page_send_test. cbn [Py.truthy].
        pose proof (send_frame smtp_try cfg (c :: e) (Campaign.subject campaign)
                      (render (Campaign.body campaign) (lit "Prueba")) w) as (F1 & _).
        destruct (send_email_smtp smtp_try cfg (c :: e) _ _ w) as [[ok err] w1].
        cbn [snd] in *. apply log_send_ok. now rewrite F1.
      * rewrite S. now rewrite firstn_app, firstn_all, Nat.sub_diag, app_nil_r.
Qed.

End Runs.

Lemma simulated_run_all_sent_witness :
  credentials_set (load_config bare_env) = false
  /\ fst (page_send_all sample_clock server_down (load_config bare_env)
            sample_campaign sample_recipients empty_world) = (3, 3).
Proof.
  assert (H : credentials_set (load_config bare_env) = false) by reflexivity.
  split; [exact H|].
  exact (proj1 (simulated_run_all_sent sample_clock server_down (load_config bare_env)
                  sample_campaign sample_recipients empty_world H)).
Defined.

Lemma world_with_log_ok : log_ok (db world_with_log).
Proof.
  unfold log_ok. simpl. split.
  - repeat constructor.
  - repeat constructor; simpl; lia.
Defined.

Lemma send_log_only_grows_witness :
  log_ok (db world_with_log)
  /\ firstn 2 (sends (db (snd (page_send_all sample_clock server_down
                                 (load_config smtp_env) sample_campaign
                                 sample_recipients world_with_log))))
     = sends (db world_with_log).
Proof.
  split; [exact world_with_log_ok|].
  exact (proj2 (proj1 (send_log_only_grows sample_clock server_down
                         (load_config smtp_env) sample_campaign world_with_log
                         world_with_log_ok) sample_recipients)).
Defined.

(** ** The contact store under inserts *)

Lemma email_taken_in (e : str) (d : DB) :
  email_taken e d = true <-> In e (map Contact.email (contacts d)).
Proof.
  unfold email_taken. rewrite existsb_exists, in_map_iff. split.
  - intros (c & Hin & Heq). apply str_eqb_eq in Heq. eauto.
  - intros (c & Heq & Hin). exists c. split; [exact Hin | now apply str_eqb_eq].
Qed.

Lemma nodup_snoc {A : Type} (l : list A) (a : A) :
  NoDup l -> ~ In a l -> NoDup (l ++ [a]).
Proof.
  induction l as [|x l IH]; intros Hn Ha; simpl.
  - constructor; [intros [] | constructor].
  - inversion Hn as [|? ? Hx Hl]; subst. constructor.
    + rewrite in_app_iff. intros [H | [H | []]]; [contradiction|].
      apply Ha. now left.
    + apply IH; [exact Hl|]. intros H. apply Ha. now right.
Qed.

Section StoreInserts.

Variable utcnow : nat -> str.

(** What one insert does to the tables. *)
Lemma insert_contact_effect (name email tags : str) (w : World) :
  let w' := fst (insert_contact utcnow name email tags w) in
  let key := Py.lower (Py.strip email) in
  sends (db w') = sends (db w) /\ sends_seq (db w') = sends_seq (db w)
  /\ attempts w' = attempts w
  /\ ((email_taken key (db w) = true /\ db w' = id_used_up (db w))
      \/ (email_taken key (db w) = false
          /\ contacts (db w')
             = contacts (db w) ++
               [Contact.mk (contacts_seq (db w) + 1) (Some (Py.strip name)) key
                           (Some (Py.strip tags)) (utcnow (clock w))]
          /\ contacts_seq (db w') = (contacts_seq (db w) + 1)%Z)).
Proof.
  unfold insert_contact, execute_insert_contact.
  destruct (email_taken _ (db w)) eqn:E; cbn [fst with_db tick db sends sends_seq
                                              attempts contacts contacts_seq];
    repeat split; auto.
Qed.

(** Using an id up keeps the keys in order: the ids stay below the
    counter. *)
Lemma keys_ok_id_used_up (d : DB) : keys_ok d -> keys_ok (id_used_up d).
Proof.
  intros (Hn & Hs & Hb). unfold keys_ok, id_used_up. cbn [contacts contacts_seq].
  split; [exact Hn|]. split; [exact Hs|].
  eapply Forall_impl; [|exact Hb]. simpl. intros c Hc. lia.
Qed.

Lemma insert_contact_keys_ok (name email tags : str) (w : World) :
  keys_ok (db w) -> keys_ok (db (fst (insert_contact utcnow name email tags w))).
Proof.
  intros K. pose proof K as (Hn & Hs & Hb).
  destruct (insert_contact_effect name email tags w)
    as (_ & _ & _ & [[_ ->] | (E & Hc & Hq)]); [now apply keys_ok_id_used_up|].
  unfold keys_ok. rewrite Hc, Hq, !map_app. cbn [map Contact.email Contact.id].
  repeat split.
  - apply nodup_snoc; [exact Hn|]. intros Hin. apply email_taken_in in Hin. congruence.
  - apply sorted_snoc; [exact Hs|]. apply Forall_map.
    eapply Forall_impl; [|exact Hb]. simpl. intros c Hc'. lia.
  - apply Forall_app. split.
    + eapply Forall_impl; [|exact Hb]. simpl. intros c Hc'. lia.
    + repeat constructor. simpl. lia.
Qed.

Variable str_of_series : list str -> str.

Lemma import_rows_keys_ok (cols : list str) (rs : list (list str)) (count : nat)
      (w : World) :
  keys_ok (db w) ->
  keys_ok (db (snd (import_rows utcnow str_of_series cols rs count w))).
Proof.
  revert count w. induction rs as [|row rs IH]; intros count w H; [exact H|].
  destruct (has_address str_of_series cols row) eqn:T.
  - rewrite import_rows_try by exact T. apply IH. now apply insert_contact_keys_ok.
  - rewrite import_rows_skip by exact T. now apply IH.
Qed.

(** X7: the inserts keep the keys of the contact table in order.  If
    the addresses are pairwise distinct and the ids increasing and not
    above the last id handed out, they are so again after
    [insert_contact] and after [bulk_import_contacts] over any frame,
    whatever the frame repeats. *)
Theorem inserts_keep_keys (w : World) :
  keys_ok (db w) ->
  (forall name email tags,
      keys_ok (db (fst (insert_contact utcnow name email tags w))))
  /\ (forall df,
         keys_ok (db (snd (bulk_import_contacts utcnow str_of_series df w)))).
Proof.
  intros H. split.
  - intros name email tags. now apply insert_contact_keys_ok.
  - intros df. unfold bulk_import_contacts. now apply import_rows_keys_ok.
Qed.

(** X8: the store tells addresses apart after trimming and
    lower-casing only: once a contact is in, an insert whose address
    cleans to the same text raises nothing and leaves every row of the
    table as it was, whatever its name and tags.  It is not without
    effect: it uses up one id, and that is all it does to the
    database. *)
Theorem insert_same_address_ignored (name1 email1 tags1 name2 email2 tags2 : str)
        (w : World) :
  Py.lower (Py.strip email1) = Py.lower (Py.strip email2) ->
  let w1 := fst (insert_contact utcnow name1 email1 tags1 w) in
  let w2 := fst (insert_contact utcnow name2 email2 tags2 w1) in
  contacts (db w2) = contacts (db w1)
  /\ db w2 = id_used_up (db w1)
  /\ snd (insert_contact utcnow name2 email2 tags2 w1) = Returned tt.
Proof.
  intros E w1 w2.
  assert (T : db w2 = id_used_up (db w1)).
  { apply insert_contact_taken. rewrite <- E. apply insert_contact_takes. }
  split_all; [now rewrite T | exact T | apply insert_contact_returns].
Qed.

Lemma email_taken_grows (e : str) (d d' : DB) (added : list Contact.t) :
  contacts d' = contacts d ++ added ->
  email_taken e d = true -> email_taken e d' = true.
Proof.
  intros Hc H. unfold email_taken in *. rewrite Hc, existsb_app, H. reflexivity.
Qed.

Lemma import_rows_addresses (cols : list str) (rs : list (list str)) (count : nat)
      (w : World) :
  let w' := snd (import_rows utcnow str_of_series cols rs count w) in
  exists added,
    contacts (db w') = contacts (db w) ++ added
    /\ Forall (fun c => exists row,
                   In row (filter (has_address str_of_series cols) rs)
                   /\ Contact.email c = row_email str_of_series cols row) added
    /\ (forall row, In row (filter (has_address str_of_series cols) rs) ->
                    email_taken (row_email str_of_series cols row) (db w') = true).
Proof.
  revert count w. induction rs as [|row rs IH]; intros count w.
  - exists []. simpl. rewrite app_nil_r. repeat split; [constructor | tauto].
  - cbn [filter]. destruct (has_address str_of_series cols row) eqn:T.
    + rewrite import_rows_try by exact T.
      set (w1 := fst (insert_contact utcnow _ _ _ w)).
      destruct (IH (S count) w1) as (added & Hc & Ha & Ht).
      assert (H1 : exists a1,
                 contacts (db w1) = contacts (db w) ++ a1
                 /\ Forall (fun c => Contact.email c = row_email str_of_series cols row) a1).
      { subst w1.
        destruct (insert_contact_effect
                    (Py.strip (row_get str_of_series cols row "name" []))
                    (row_email str_of_series cols row)
                    (Py.strip (row_get str_of_series cols row "tags" [])) w)
          as (_ & _ & _ & [[_ ->] | (_ & Hc1 & _)]).
        - exists []. rewrite app_nil_r. split; [reflexivity | constructor].
        - eexists. split; [exact Hc1|]. repeat constructor. simpl.
          unfold row_email. apply clean_idem. }
      destruct H1 as (a1 & Hc1 & Ha1).
      exists (a1 ++ added). repeat split.
      * rewrite Hc, Hc1. now rewrite app_assoc.
      * apply Forall_app. split.
        -- eapply Forall_impl; [|exact Ha1]. simpl. intros c Hc'.
           exists row. split; [now left | exact Hc'].
        -- eapply Forall_impl; [|exact Ha]. simpl. intros c (r & Hr & Hc').
           exists r. split; [now right | exact Hc'].
      * intros r [<- | Hr]; [|now apply Ht].
        apply (@email_taken_grows _ _ _ _ Hc). subst w1.
        pose proof (insert_contact_takes utcnow
                      (Py.strip (row_get str_of_series cols row "name" []))
                      (row_email str_of_series cols row)
                      (Py.strip (row_get str_of_series cols row "tags" [])) w) as K.
        unfold row_email in K at 1. rewrite clean_idem in K. exact K.
    + rewrite import_rows_skip by exact T. apply IH.
Qed.

(** X9: after a bulk import every address the import tried is in the
    store; the contacts that were there are still there, unchanged and
    at the head of the table; and every contact that was added carries
    the address of a row the import tried. *)
Theorem bulk_import_leaves_addresses (df : DataFrame) (w : World) :
  let w' := snd (bulk_import_contacts utcnow str_of_series df w) in
  (forall row, In row (attempted str_of_series df) ->
               email_taken (row_email str_of_series (columns df) row) (db w') = true)
  /\ exists added,
      contacts (db w') = contacts (db w) ++ added
      /\ Forall (fun c => exists row,
                     In row (attempted str_of_series df)
                     /\ Contact.email c = row_email str_of_series (columns df) row)
                added.
Proof.
  intros w'. subst w'. unfold bulk_import_contacts, attempted.
  destruct (import_rows_addresses (columns df) (rows df) 0 w) as (added & Hc & Ha & Ht).
  split; [exact Ht|]. exists added. now split.
Qed.

End StoreInserts.

Lemma world_with_ana_keys_ok : keys_ok (db world_with_ana).
Proof.
  unfold keys_ok. simpl. repeat split.
  - constructor; [intros [] | constructor].
  - repeat constructor.
  - repeat constructor. simpl. lia.
Defined.

Lemma inserts_keep_keys_witness :
  keys_ok (db world_with_ana)
  /\ keys_ok (db (snd (bulk_import_contacts sample_clock no_series sample_batch
                         world_with_ana))).
Proof.
  split; [exact world_with_ana_keys_ok|].
  exact (proj2 (inserts_keep_keys sample_clock no_series world_with_ana
                  world_with_ana_keys_ok) sample_batch).
Defined.

Lemma insert_same_address_ignored_witness :
  Py.lower (Py.strip (lit "bob@example.org")) = Py.lower (Py.strip (lit " BOB@Example.org "))
  /\ contacts (db (fst (insert_contact sample_clock (lit "Robert")
                          (lit " BOB@Example.org ") []
                          (fst (insert_contact sample_clock (lit "Bob")
                                  (lit "bob@example.org") (lit "vip") world_with_ana)))))
     = contacts (db (fst (insert_contact sample_clock (lit "Bob") (lit "bob@example.org")
                            (lit "vip") world_with_ana))).
Proof.
  assert (H : Py.lower (Py.strip (lit "bob@example.org"))
              = Py.lower (Py.strip (lit " BOB@Example.org "))) by reflexivity.
  split; [exact H|].
  exact (proj1 (insert_same_address_ignored sample_clock (lit "Bob")
                  (lit "bob@example.org") (lit "vip") (lit "Robert")
                  (lit " BOB@Example.org ") [] world_with_ana H)).
Defined.

(** ** The upload block as a whole *)

Lemma in_select_pairs {A B C : Type} (p : B -> bool) (f : A * B -> C)
      (rs : list A) (vs : list B) (x : C) :
  In x (Pd.select (map p vs) (map f (combine rs vs))) ->
  exists r v, x = f (r, v) /\ p v = true /\ In r rs.
Proof.
  revert vs. induction rs as [|r rs IH]; intros [|v vs] H; try contradiction.
  cbn [map combine Pd.select] in H. destruct (p v) eqn:E.
  - destruct H as [<- | H]; [exists r, v; repeat split; auto; now left|].
    destruct (IH vs H) as (r' & v' & ? & ? & ?). exists r', v'. repeat split; auto.
    now right.
  - destruct (IH vs H) as (r' & v' & ? & ? & ?). exists r', v'. repeat split; auto.
    now right.
Qed.

Lemma cells_at_overwrite_same (cols : list str) (l v : str) (r : list str) :
  Pd.cells_at cols (Pd.overwrite cols l v r) l
  = map (fun _ => v) (Pd.cells_at cols r l).
Proof.
  revert r. induction cols as [|c cols IH]; intros r; [now destruct r|].
  destruct r as [|x r]; [reflexivity|]. cbn [Pd.overwrite Pd.cells_at].
  destruct (Py.str_eqb c l); cbn [map]; now rewrite IH.
Qed.

Lemma cells_at_length (cols : list str) (r : list str) (l : str) :
  List.length (Pd.cells_at cols r l)
  <= List.length (filter (fun c => Py.str_eqb c l) cols).
Proof.
  revert r. induction cols as [|c cols IH]; intros r; [now destruct r|].
  destruct r as [|x r]; [simpl; lia|]. cbn [Pd.cells_at filter].
  destruct (Py.str_eqb c l); simpl; specialize (IH r); lia.
Qed.

(** In the frame the validation leaves, a row reads under [email]
    nothing at all or one address that passed the validator. *)
Lemma validate_emails_cells (df df' : DataFrame) (k : nat) :
  validate_emails df = Some (df', k) ->
  Forall (fun row =>
            Pd.cells_at (columns df') row (lit "email") = []
            \/ exists v, Pd.cells_at (columns df') row (lit "email") = [v]
                         /\ is_valid_email (Some v) = true)
         (rows df').
Proof.
  unfold validate_emails, Pd.series. intros H.
  destruct (filter (fun c => Py.str_eqb c (lit "email")) (columns df))
    as [|c0 [|c1 f]] eqn:F; try discriminate.
  injection H as <- _. unfold Pd.mask_rows, Pd.assign_series. cbn [columns rows].
  apply Forall_forall. intros row Hrow.
  apply in_select_pairs in Hrow as (r & v & -> & Hv & _). cbn [fst snd].
  rewrite cells_at_overwrite_same.
  pose proof (cells_at_length (columns df) r (lit "email")) as L. rewrite F in L.
  destruct (Pd.cells_at (columns df) r (lit "email")) as [|x [|y t]];
    [now left | right | simpl in L; lia].
  exists v. split; [reflexivity | exact Hv].
Qed.

Lemma drop_dups_from_in (cols : list str) (label : str) (seen : list str)
      (rs : list (list str)) (r : list str) :
  In r (Pd.drop_dups_from cols label seen rs) -> In r rs.
Proof.
  revert seen. induction rs as [|x rs IH]; intros seen H; [contradiction|].
  cbn [Pd.drop_dups_from] in H.
  destruct (existsb _ seen); [right; now apply (IH seen)|].
  destruct H as [<- | H]; [now left | right; now apply (IH _ H)].
Qed.

(** The same for the frame either branch of the upload hands on. *)
Lemma branch_cells (file : upload) (df : DataFrame) (k : nat) :
  match file with
  | CsvFile df0 => csv_branch df0 = Frame df k
  | TxtFile text => txt_branch text = Frame df k
  | OtherFile => False
  end ->
  Forall (fun row =>
            Pd.cells_at (columns df) row (lit "email") = []
            \/ exists v, Pd.cells_at (columns df) row (lit "email") = [v]
                         /\ is_valid_email (Some v) = true)
         (rows df).
Proof.
  destruct file as [df0|text|]; [| |contradiction].
  - unfold csv_branch.
    destruct (Pd.cols_lower_get (columns df0) (lit "email")) as [ec|]; [|discriminate].
    destruct (Pd.cols_lower_get (columns df0) (lit "name"));
      destruct (Pd.cols_lower_get (columns df0) (lit "tags"));
      match goal with
      | |- context [validate_emails ?d] =>
          destruct (validate_emails d) as [[d' k']|] eqn:V; [|discriminate]
      end;
      intros H; injection H as <- <-; exact (validate_emails_cells _ V).
  - unfold txt_branch.
    destruct (negb (Pd.empty (frame_of_rows (txt_rows text)))) eqn:E.
    + destruct (validate_emails (frame_of_rows (txt_rows text))) as [[d' k']|] eqn:V;
        [|discriminate].
      pose proof (validate_emails_cells _ V) as C.
      destruct (negb (Pd.empty d')); intros H; injection H as <- <-; [|exact C].
      unfold Pd.drop_duplicates. cbn [columns rows].
      apply Forall_forall. intros row Hrow. apply drop_dups_from_in in Hrow.
      exact (proj1 (Forall_forall _ _) C row Hrow).
    + assert (R : rows (frame_of_rows (txt_rows text)) = []).
      { unfold frame_of_rows in *. now destruct (txt_rows text). }
      destruct (negb (Pd.empty (frame_of_rows (txt_rows text))));
        intros H; injection H as <- <-.
      * unfold Pd.drop_duplicates. cbn [rows]. rewrite R. constructor.
      * rewrite R. constructor.
Qed.

Section UploadBlock.

Variable utcnow : nat -> str.
Variable str_of_series : list str -> str.

(** The address the import reads off a row of such a frame is empty
    or of the shape. *)
Lemma row_email_shape (cols : list str) (row : list str) :
  (Pd.cells_at cols row (lit "email") = []
   \/ exists v, Pd.cells_at cols row (lit "email") = [v]
                /\ is_valid_email (Some v) = true) ->
  has_address str_of_series cols row = true ->
  email_shape (row_email str_of_series cols row).
Proof.
  unfold has_address, row_email, row_get. intros [-> | (v & -> & Hv)] H.
  - discriminate.
  - now apply clean_of_valid.
Qed.

Lemma import_rows_addresses_ok (cols : list str) (rs : list (list str)) (w : World) :
  Forall (fun row =>
            Pd.cells_at cols row (lit "email") = []
            \/ exists v, Pd.cells_at cols row (lit "email") = [v]
                         /\ is_valid_email (Some v) = true) rs ->
  addresses_ok (db w) ->
  addresses_ok (db (snd (import_rows utcnow str_of_series cols rs 0 w))).
Proof.
  intros Hrows Hw. unfold addresses_ok.
  destruct (import_rows_addresses utcnow str_of_series cols rs 0 w)
    as (added & Hc & Ha & _).
  rewrite Hc. apply Forall_app. split; [exact Hw|].
  eapply Forall_impl; [|exact Ha]. simpl. intros c (row & Hin & ->).
  apply filter_In in Hin as [Hin Htried].
  apply row_email_shape; [|exact Htried].
  exact (proj1 (Forall_forall _ _) Hrows row Hin).
Qed.

(** The world after the block, by what the block ended on. *)
Lemma page_contacts_upload_world (file : upload) (pressed : bool) (w : World) :
  snd (page_contacts_upload utcnow str_of_series file pressed w) = w
  \/ exists df k,
      match file with
      | CsvFile df0 => csv_branch df0 = Frame df k
      | TxtFile text => txt_branch text = Frame df k
      | OtherFile => False
      end
      /\ pressed = true
      /\ snd (page_contacts_upload utcnow str_of_series file pressed w)
         = snd (bulk_import_contacts utcnow str_of_series df w).
Proof.
  unfold page_contacts_upload.
  destruct file as [df0|text|]; [| |now left].
  - destruct (csv_branch df0) as [msg| |df k]; [now left | now left |].
    destruct (negb (Pd.empty df)); [|now left].
    destruct pressed; [|now left]. right. exists df, k. repeat split.
    now destruct (bulk_import_contacts utcnow str_of_series df w).
  - destruct (txt_branch text) as [msg| |df k]; [now left | now left |].
    destruct (negb (Pd.empty df)); [|now left].
    destruct pressed; [|now left]. right. exists df, k. repeat split.
    now destruct (bulk_import_contacts utcnow str_of_series df w).
Qed.

(** X10: the upload block writes nothing until the import button is
    pressed; and pressed, for any file, it leaves the send log and the
    SMTP trace alone, keeps the contacts that were there unchanged at
    the head of the table, and keeps the keys of the table in order. *)
Theorem upload_writes_only_contacts (file : upload) (w : World) :
  snd (page_contacts_upload utcnow str_of_series file false w) = w
  /\ (let w' := snd (page_contacts_upload utcnow str_of_series file true w) in
      sends (db w') = sends (db w)
      /\ attempts w' = attempts w
      /\ (exists added, contacts (db w') = contacts (db w) ++ added)
      /\ (keys_ok (db w) -> keys_ok (db w'))).
Proof.
  split.
  - destruct (page_contacts_upload_world file false w) as [H | (df & k & _ & H & _)];
      [exact H | discriminate].
  - intros w'. subst w'.
    destruct (page_contacts_upload_world file true w) as [-> | (df & k & _ & _ & ->)].
    + split; [reflexivity|]. split; [reflexivity|]. split; [|auto].
      exists []. now rewrite app_nil_r.
    + unfold bulk_import_contacts.
      destruct (import_rows_spec utcnow str_of_series (columns df) (rows df) 0 w)
        as (_ & F).
      destruct (@insert_rows_store utcnow str_of_series (columns df)
                  (filter (has_address str_of_series (columns df)) (rows df)) w)
        as (_ & _ & S & _ & A & _).
      rewrite <- F in S, A.
      destruct (import_rows_addresses utcnow str_of_series (columns df) (rows df) 0 w)
        as (added & Hc & _).
      split; [exact S|]. split; [exact A|]. split; [eauto|].
      apply import_rows_keys_ok.
Qed.

(** X11: the upload block stores well-shaped addresses only.  If every
    address in the store is of the shape, so is every address after
    the block, for any CSV or TXT upload, button pressed or not. *)
Theorem upload_stores_shaped_addresses (file : upload) (pressed : bool) (w : World) :
  addresses_ok (db w) ->
  addresses_ok (db (snd (page_contacts_upload utcnow str_of_series file pressed w))).
Proof.
  intros H.
  destruct (page_contacts_upload_world file pressed w) as [-> | (df & k & B & _ & ->)];
    [exact H|].
  unfold bulk_import_contacts. apply import_rows_addresses_ok; [|exact H].
  exact (@branch_cells file df k B).
Qed.

End UploadBlock.

Lemma upload_stores_shaped_addresses_witness :
  addresses_ok (db empty_world)
  /\ addresses_ok (db (snd (page_contacts_upload sample_clock no_series
                              (CsvFile csv_ana_twice) true empty_world))).
Proof.
  assert (H : addresses_ok (db empty_world)) by constructor.
  split; [exact H|].
  exact (@upload_stores_shaped_addresses sample_clock no_series
           (CsvFile csv_ana_twice) true empty_world H).
Defined.

(** ** The CSV branch keeps every valid row *)

Lemma select_pairs_length {A B C : Type} (p : B -> bool) (f : A * B -> C)
      (rs : list A) (vs : list B) :
  List.length vs = List.length rs ->
  List.length (Pd.select (map p vs) (map f (combine rs vs)))
  = List.length (filter p vs).
Proof.
  revert vs. induction rs as [|r rs IH]; intros [|v vs] H; try discriminate;
    [reflexivity|].
  simpl in H. injection H as H. cbn [map combine Pd.select filter].
  destruct (p v); simpl; now rewrite IH.
Qed.

Lemma validate_emails_counts (df df' : DataFrame) (k : nat) :
  validate_emails df = Some (df', k) ->
  exists col,
    Pd.series df (lit "email") = Some col
    /\ List.length col = List.length (rows df)
    /\ k = List.length
             (filter (fun e => negb (is_valid_email (Some (Py.lower (Py.strip e))))) col)
    /\ List.length (rows df')
       = List.length
           (filter (fun e => is_valid_email (Some (Py.lower (Py.strip e)))) col).
Proof.
  unfold validate_emails. intros H.
  destruct (Pd.series df (lit "email")) as [col|] eqn:S; [|discriminate].
  injection H as <- <-. exists col.
  assert (L : List.length col = List.length (rows df)).
  { unfold Pd.series in S.
    destruct (filter _ (columns df)) as [|c0 [|c1 f]]; try discriminate.
    injection S as <-. apply length_map. }
  repeat split; [exact L | |].
  - clear. induction col as [|e col IH]; [reflexivity|].
    cbn [map filter]. destruct (is_valid_email _); cbn [negb List.length]; now rewrite IH.
  - unfold Pd.mask_rows, Pd.assign_series. cbn [rows].
    rewrite select_pairs_length by now rewrite length_map.
    clear. induction col as [|e col IH]; [reflexivity|].
    cbn [map filter]. destruct (is_valid_email _); cbn [List.length]; now rewrite IH.
Qed.

Lemma assign_scalar_rows (df : DataFrame) (label v : str) :
  List.length (rows (Pd.assign_scalar df label v)) = List.length (rows df).
Proof.
  unfold Pd.assign_scalar. destruct (Pd.has_column df label); cbn [rows];
    apply length_map.
Qed.

Lemma csv_renamed_rows (df : DataFrame) (ec : str) :
  List.length (rows (csv_renamed df ec)) = List.length (rows df).
Proof.
  unfold csv_renamed, Pd.rename. cbn [rows].
  destruct (Pd.cols_lower_get (columns df) (lit "name"));
    destruct (Pd.cols_lower_get (columns df) (lit "tags"));
    now rewrite ?assign_scalar_rows.
Qed.

(** X12: the CSV branch drops a row for one reason only, an address
    that fails the validator once trimmed and lower-cased.  Every row
    of the file is either in the frame it yields or counted as
    skipped, so rows that repeat an address all stay. *)
Theorem csv_rows_shown_or_skipped (df df' : DataFrame) (skipped : nat) :
  csv_branch df = Frame df' skipped ->
  List.length (rows df') + skipped = List.length (rows df)
  /\ exists email_col col,
      Pd.cols_lower_get (columns df) (lit "email") = Some email_col
      /\ Pd.series (csv_renamed df email_col) (lit "email") = Some col
      /\ List.length col = List.length (rows df)
      /\ List.length (rows df')
         = List.length
             (filter (fun e => is_valid_email (Some (Py.lower (Py.strip e)))) col)
      /\ skipped
         = List.length
             (filter (fun e => negb (is_valid_email (Some (Py.lower (Py.strip e)))))
                     col).
Proof.
  intros H.
  destruct (Pd.cols_lower_get (columns df) (lit "email")) as [ec|] eqn:E.
  2:{ unfold csv_branch in H. rewrite E in H. discriminate. }
  rewrite (csv_branch_found _ E) in H.
  destruct (validate_emails (csv_renamed df ec)) as [[d k]|] eqn:V; [|discriminate].
  injection H as -> ->.
  destruct (validate_emails_counts _ V) as (col & S & L & K & R).
  rewrite csv_renamed_rows in L.
  split.
  - rewrite R, K, <- L. apply filter_split_length.
  - exists ec, col. repeat split; auto.
Qed.

Lemma csv_rows_shown_or_skipped_witness :
  csv_branch csv_ana_twice
  = Frame {| columns := TXT_COLUMNS;
             rows := [[lit "ana@example.com"; lit "Ana"; []];
                      [lit "ana@example.com"; lit "Ana B."; []]] |} 1
  /\ 2 + 1 = List.length (rows csv_ana_twice).
Proof.
  assert (H : csv_branch csv_ana_twice
              = Frame {| columns := TXT_COLUMNS;
                         rows := [[lit "ana@example.com"; lit "Ana"; []];
                                  [lit "ana@example.com"; lit "Ana B."; []]] |} 1)
    by reflexivity.
  split; [exact H|].
  exact (proj1 (csv_rows_shown_or_skipped csv_ana_twice H)).
Defined.

(** ** The form for one contact *)

Lemma valid_not_empty (s : str) : is_valid_email (Some s) = true -> s <> [].
Proof. intros H ->. discriminate. Qed.

Lemma shape_head (s : str) :
  email_shape s -> exists c t, s = c :: t /\ Py.isspace c = false.
Proof.
  intros H. pose proof (email_shape_chars H) as Hc.
  destruct H as (loc & dom & tld & -> & Hne & _).
  destruct loc as [|c loc]; [contradiction|].
  exists c, (loc ++ "@"%char :: dom ++ "."%char :: tld). split; [reflexivity|].
  apply shape_chr_not_space. simpl in Hc. now apply andb_true_iff in Hc as [Hc _].
Qed.

(** What the validator accepts does not begin with white space. *)
Lemma valid_head (c : ascii) (t : str) :
  is_valid_email (Some (c :: t)) = true -> Py.isspace c = false.
Proof.
  intros H. apply is_valid_email_accepts in H as [H | (u & E & H)];
    apply shape_head in H as (c' & t' & E' & Hc).
  - now injection E' as <- _.
  - subst u. simpl in E. now injection E as -> _.
Qed.

Section Form.

Variable utcnow : nat -> str.

Lemma page_contacts_add_valid (name email tags : str) (w : World) :
  is_valid_email (Some email) = true ->
  page_contacts_add utcnow name email tags w
  = (FormSaved email, fst (insert_contact utcnow name email tags w)).
Proof.
  intros H. unfold page_contacts_add. rewrite H.
  pose proof (valid_not_empty H) as Hne.
  destruct email as [|c e]; [contradiction|]. cbn [Py.truthy negb].
  pose proof (insert_contact_returns utcnow name (c :: e) tags w) as R.
  destruct (insert_contact utcnow name (c :: e) tags w) as [w' res].
  simpl in R. now subst res.
Qed.

Lemma page_contacts_add_invalid (name email tags : str) (w : World) :
  is_valid_email (Some email) = false ->
  snd (page_contacts_add utcnow name email tags w) = w
  /\ (fst (page_contacts_add utcnow name email tags w) = FormEmailRequired
      \/ fst (page_contacts_add utcnow name email tags w) = FormEmailInvalid).
Proof.
  intros H. unfold page_contacts_add. rewrite H.
  destruct (negb (Py.truthy email)); simpl; auto.
Qed.

(** X13: the form saves a contact exactly when the address as typed
    passes the validator.  Then the address it stores, trimmed and
    lower-cased, is of the shape and is in the store afterwards; an
    address that fails leaves the world as it was.  Either way the
    store keeps its addresses well-shaped and its keys in order. *)
Theorem form_saves_valid_addresses (name email tags : str) (w : World) :
  let res := page_contacts_add utcnow name email tags w in
  (is_valid_email (Some email) = true ->
   fst res = FormSaved email
   /\ email_shape (Py.lower (Py.strip email))
   /\ email_taken (Py.lower (Py.strip email)) (db (snd res)) = true)
  /\ (is_valid_email (Some email) = false ->
      snd res = w /\ (fst res = FormEmailRequired \/ fst res = FormEmailInvalid))
  /\ (addresses_ok (db w) -> addresses_ok (db (snd res)))
  /\ (keys_ok (db w) -> keys_ok (db (snd res))).
Proof.
  intros res. subst res. split; [|split; [|split]].
  - intros V. rewrite page_contacts_add_valid by exact V. cbn [fst snd].
    split; [reflexivity|]. split; [now apply clean_of_valid|].
    apply insert_contact_takes.
  - intros V. now apply page_contacts_add_invalid.
  - intros Ha. destruct (is_valid_email (Some email)) eqn:V.
    + rewrite page_contacts_add_valid by exact V. cbn [snd].
      unfold addresses_ok.
      destruct (insert_contact_effect utcnow name email tags w)
        as (_ & _ & _ & [[_ ->] | (_ & -> & _)]); [exact Ha|].
      apply Forall_app. split; [exact Ha|]. repeat constructor. simpl.
      now apply clean_of_valid.
    + now rewrite (proj1 (@page_contacts_add_invalid name email tags w V)).
  - intros Hk. destruct (is_valid_email (Some email)) eqn:V.
    + rewrite page_contacts_add_valid by exact V. now apply insert_contact_keys_ok.
    + now rewrite (proj1 (@page_contacts_add_invalid name email tags w V)).
Qed.

(** X14: the form checks the address as typed, before any trimming.
    A well-shaped address typed after one or more blanks is turned
    down and nothing is stored, although the same text trimmed and
    lower-cased, as the import does first, passes the validator. *)
Theorem form_refuses_leading_blanks (name tags blanks e : str) (w : World) :
  blanks <> [] -> forallb Py.isspace blanks = true -> email_shape e ->
  page_contacts_add utcnow name (blanks ++ e) tags w = (FormEmailInvalid, w)
  /\ is_valid_email (Some (Py.lower (Py.strip (blanks ++ e)))) = true.
Proof.
  intros Hne Hb He. split.
  - unfold page_contacts_add.
    destruct blanks as [|c b]; [contradiction|]. cbn [app Py.truthy negb].
    simpl in Hb. apply andb_true_iff in Hb as [Hc _].
    destruct (is_valid_email _) eqn:V; [|reflexivity].
    apply valid_head in V. congruence.
  - assert (S : Py.strip (blanks ++ e) = e).
    { unfold Py.strip.
      assert (L : Py.lstrip (blanks ++ e) = Py.lstrip e).
      { clear Hne. induction blanks as [|c b IH]; [reflexivity|].
        simpl in Hb. apply andb_true_iff in Hb as [Hc Hb]. simpl. rewrite Hc. now apply IH. }
      rewrite L. apply (strip_shape He). }
    rewrite S. apply is_valid_email_accepts. left. now apply lower_shape.
Qed.

End Form.

Lemma form_refuses_leading_blanks_witness :
  email_shape (lit "ana@example.com")
  /\ page_contacts_add sample_clock (lit "Ana") (lit "  ana@example.com") [] empty_world
     = (FormEmailInvalid, empty_world).
Proof.
  assert (He : email_shape (lit "ana@example.com")).
  { exists (lit "ana"), (lit "example"), (lit "com"). repeat split; try discriminate.
    simpl. lia. }
  split; [exact He|].
  refine (proj1 (@form_refuses_leading_blanks sample_clock (lit "Ana") [] (lit "  ")
                   (lit "ana@example.com") empty_world _ _ He)).
  - discriminate.
  - reflexivity.
Defined.

(** ** Deleting by id *)

(** Taking contacts away leaves distinct addresses distinct. *)
Lemma addresses_distinct_after_filter (keep : Contact.t -> bool)
      (cs : list Contact.t) :
  NoDup (map Contact.email cs) -> NoDup (map Contact.email (filter keep cs)).
Proof.
  intros Hdistinct. induction cs as [|c cs IH]; [constructor|].
  simpl in Hdistinct. apply NoDup_cons_iff in Hdistinct as [Hfresh Hrest].
  simpl. destruct (keep c); [|now apply IH].
  simpl. apply NoDup_cons; [|now apply IH].
  intros Hin. apply Hfresh. apply in_map_iff in Hin as (y & Hy & Hin).
  apply filter_In in Hin as [Hin _]. apply in_map_iff. eauto.
Qed.

Lemma sorted_map_filter {A : Type} (f : A -> Z) (p : A -> bool) (l : list A) :
  StronglySorted Z.lt (map f l) -> StronglySorted Z.lt (map f (filter p l)).
Proof.
  induction l as [|x l IH]; intros H; [constructor|].
  simpl in H. apply StronglySorted_inv in H as [Hs Hx]. simpl.
  destruct (p x); [|now apply IH]. simpl. constructor; [now apply IH|].
  apply Forall_forall. intros y Hy. apply in_map_iff in Hy as (z & <- & Hz).
  apply filter_In in Hz as [Hz _].
  exact (proj1 (Forall_forall _ _) Hx (f z) (in_map f l z Hz)).
Qed.

Lemma forall_filter {A : Type} (P : A -> Prop) (p : A -> bool) (l : list A) :
  Forall P l -> Forall P (filter p l).
Proof.
  intros H. apply Forall_forall. intros x Hx. apply filter_In in Hx as [Hx _].
  exact (proj1 (Forall_forall _ _) H x Hx).
Qed.

Lemma delete_keys_ok (rid : Z) (d : DB) :
  keys_ok d -> keys_ok (execute_delete_contact rid d).
Proof.
  intros (Hn & Hs & Hb). unfold keys_ok, execute_delete_contact.
  cbn [contacts contacts_seq]. repeat split.
  - now apply addresses_distinct_after_filter.
  - now apply sorted_map_filter.
  - now apply forall_filter.
Qed.

Lemma filter_all {A : Type} (p : A -> bool) (l : list A) :
  (forall x, In x l -> p x = true) -> filter p l = l.
Proof.
  induction l as [|x l IH]; intros H; [reflexivity|].
  simpl. rewrite (H x) by now left. f_equal. apply IH. intros y Hy. apply H. now right.
Qed.

(** X15: deleting by id.  A text that is not all digits gets the
    warning and changes nothing.  A text of the digits 0-9 whose value
    SQLite can hold removes the contacts with that id and no other,
    keeps the rest in order, and reports success even when no contact
    had the id, in which case the database is as it was; the send log,
    the last id handed out, the order of the keys and the shape of the
    addresses are kept.  A text that [isdigit] accepts but that holds a
    superscript digit ends in an exception, with nothing changed. *)
Theorem delete_by_id_outcome (delete_id : str) (w : World) :
  let res := page_contacts_delete_by_id delete_id w in
  (PyNum.isdigit delete_id = false -> res = (DeleteNeedsNumber, w))
  /\ (PyNum.isdigit delete_id = true ->
      forallb (Py.between 48 57) delete_id = false ->
      res = (DeleteRaised, w))
  /\ (forall n,
         PyNum.isdigit delete_id = true ->
         PyNum.int_of_digits delete_id = Some n ->
         (n <= PyNum.SQLITE_MAX)%Z ->
         fst res = DeleteDone delete_id
         /\ contacts (db (snd res))
            = filter (fun c => negb (Z.eqb (Contact.id c) n)) (contacts (db w))
         /\ ((forall c, In c (contacts (db w)) -> Contact.id c <> n) ->
             db (snd res) = db w)
         /\ contacts_seq (db (snd res)) = contacts_seq (db w)
         /\ sends (db (snd res)) = sends (db w)
         /\ (keys_ok (db w) -> keys_ok (db (snd res)))
         /\ (addresses_ok (db w) -> addresses_ok (db (snd res)))).
Proof.
  intros res. subst res. unfold page_contacts_delete_by_id. split; [|split].
  - now intros ->.
  - intros -> H. unfold PyNum.int_of_digits. now rewrite H.
  - intros n -> -> Hn. apply Z.leb_le in Hn. rewrite Hn. cbn [fst snd with_db db].
    split; [reflexivity|]. split; [reflexivity|]. split.
    { intros Hno. unfold execute_delete_contact. rewrite filter_all.
      - now destruct (db w).
      - intros c Hc. apply negb_true_iff, Z.eqb_neq. now apply Hno. }
    split; [reflexivity|]. split; [reflexivity|]. split.
    + apply delete_keys_ok.
    + unfold addresses_ok. cbn [execute_delete_contact contacts]. apply forall_filter.
Qed.

Lemma delete_by_id_outcome_witness :
  PyNum.isdigit (lit "01") = true
  /\ PyNum.int_of_digits (lit "01") = Some 1%Z
  /\ contacts (db (snd (page_contacts_delete_by_id (lit "01") world_with_ana))) = []
  /\ page_contacts_delete_by_id (lit "1x") world_with_ana
     = (DeleteNeedsNumber, world_with_ana)
  /\ page_contacts_delete_by_id ["178"%char] world_with_ana
     = (DeleteRaised, world_with_ana).
Proof.
  destruct (delete_by_id_outcome (lit "01") world_with_ana) as (_ & _ & A).
  destruct (delete_by_id_outcome (lit "1x") world_with_ana) as (B & _).
  destruct (delete_by_id_outcome ["178"%char] world_with_ana) as (_ & C & _).
  split; [reflexivity|]. split; [reflexivity|]. split; [|split].
  - refine (proj1 (proj2 (A 1%Z eq_refl eq_refl _))). unfold PyNum.SQLITE_MAX. lia.
  - now apply B.
  - now apply C.
Defined.

(** X16: ids are not given out twice.  With the keys of the table in
    order, a contact added after a delete gets an id above the id of
    every contact there was before the delete, the deleted one
    included. *)
Theorem ids_not_reused (utcnow : nat -> str) (rid : Z) (name email tags : str)
        (w : World) :
  keys_ok (db w) ->
  let w1 := with_db w (execute_delete_contact rid (db w)) in
  email_taken (Py.lower (Py.strip email)) (db w1) = false ->
  exists c,
    contacts (db (fst (insert_contact utcnow name email tags w1)))
    = contacts (db w1) ++ [c]
    /\ Contact.email c = Py.lower (Py.strip email)
    /\ forall old, In old (contacts (db w)) -> (Contact.id old < Contact.id c)%Z.
Proof.
  intros (_ & _ & Hb) w1 Hfree.
  destruct (insert_contact_effect utcnow name email tags w1)
    as (_ & _ & _ & [[E _] | (_ & Hc & _)]); [congruence|].
  eexists. split; [exact Hc|]. split; [reflexivity|].
  intros old Hold. cbn [Contact.id]. subst w1. cbn [with_db db execute_delete_contact contacts_seq].
  pose proof (proj1 (Forall_forall _ _) Hb old Hold) as Hle. simpl in Hle. lia.
Qed.

Lemma ids_not_reused_witness :
  keys_ok (db world_with_ana)
  /\ exists c,
      contacts (db (fst (insert_contact sample_clock (lit "Bob") (lit "bob@example.org") []
                           (with_db world_with_ana
                              (execute_delete_contact 1 (db world_with_ana))))))
      = [] ++ [c]
      /\ Contact.email c = lit "bob@example.org"
      /\ forall old, In old (contacts (db world_with_ana)) ->
                     (Contact.id old < Contact.id c)%Z.
Proof.
  split; [exact world_with_ana_keys_ok|].
  exact (@ids_not_reused sample_clock 1%Z (lit "Bob") (lit "bob@example.org") []
           world_with_ana world_with_ana_keys_ok eq_refl).
Defined.

(** ** Saving the table editor *)

Lemma filter_one_split {A : Type} (p : A -> bool) (l : list A) (x : A) :
  filter p l = [x] ->
  exists l1 l2,
    l = l1 ++ x :: l2 /\ p x = true
    /\ (forall y, In y l1 -> p y = false) /\ (forall y, In y l2 -> p y = false).
Proof.
  induction l as [|a l IH]; intros H; [discriminate|].
  simpl in H. destruct (p a) eqn:E.
  - injection H as -> H. exists [], l. repeat split; auto; [intros y []|].
    intros y Hy. destruct (p y) eqn:Ey; [|reflexivity].
    assert (Hin : In y (filter p l)) by now apply filter_In.
    rewrite H in Hin. contradiction.
  - destruct (IH H) as (l1 & l2 & -> & Hx & H1 & H2).
    exists (a :: l1), l2. repeat split; auto.
    intros y [<- | Hy]; auto.
Qed.

Lemma nodup_mid {A : Type} (l1 l2 : list A) (a : A) :
  NoDup (l1 ++ l2) -> ~ In a (l1 ++ l2) -> NoDup (l1 ++ a :: l2).
Proof.
  induction l1 as [|x l1 IH]; simpl; intros Hn Ha.
  - now constructor.
  - inversion Hn as [|? ? Hx Hl]; subst. constructor.
    + intros Hin. apply in_app_or in Hin as [H | [H | H]].
      * apply Hx. apply in_or_app. now left.
      * apply Ha. left. now symmetry.
      * apply Hx. apply in_or_app. now right.
    + apply IH; [exact Hl|]. intros H. apply Ha. now right.
Qed.

(** The three ways an UPDATE by id can go: nothing to do or refused,
    the database as it was; or the one row of that id rewritten in
    place, its address being free among the others. *)
Lemma update_cases (rid : Z) (email name tags : str) (d : DB) :
  fst (execute_update_contact rid email name tags d) = d
  \/ exists l1 o l2,
      contacts d = l1 ++ o :: l2
      /\ Contact.id o = rid
      /\ ~ In email (map Contact.email (l1 ++ l2))
      /\ execute_update_contact rid email name tags d
         = ({| contacts := l1 ++ Contact.mk rid (Some name) email (Some tags)
                                            (Contact.created_at o) :: l2;
               contacts_seq := contacts_seq d;
               sends := sends d;
               sends_seq := sends_seq d |}, Returned tt).
Proof.
  unfold execute_update_contact.
  destruct (filter (fun c => Z.eqb (Contact.id c) rid) (contacts d))
    as [|o [|o' f]] eqn:F; [now left | | now left].
  destruct (existsb _ _) eqn:X; [now left|]. right.
  apply filter_one_split in F as (l1 & l2 & E & Ho & H1 & H2).
  assert (U : forall l, (forall y, In y l -> Z.eqb (Contact.id y) rid = false) ->
                        map (fun c => if Z.eqb (Contact.id c) rid
                                      then Contact.mk rid (Some name) email (Some tags)
                                                      (Contact.created_at c)
                                      else c) l = l).
  { intros l Hl. induction l as [|y l IH]; [reflexivity|].
    simpl. rewrite (Hl y) by now left. f_equal. apply IH. intros z Hz. apply Hl. now right. }
  assert (O : filter (fun c => negb (Z.eqb (Contact.id c) rid)) (contacts d) = l1 ++ l2).
  { rewrite E, filter_app. simpl. rewrite Ho. simpl.
    rewrite !filter_all; [reflexivity | |].
    - intros y Hy. now rewrite (H2 y Hy).
    - intros y Hy. now rewrite (H1 y Hy). }
  rewrite O in X.
  exists l1, o, l2. split; [exact E|]. split; [now apply Z.eqb_eq|]. split.
  - intros Hin. apply in_map_iff in Hin as (c & Hc & Hin).
    assert (existsb (fun c => Py.str_eqb (Contact.email c) email) (l1 ++ l2) = true);
      [|congruence].
    apply existsb_exists. exists c. split; [exact Hin | now apply str_eqb_eq].
  - f_equal. f_equal. rewrite E, map_app. cbn [map]. rewrite Ho.
    now rewrite (U l1 H1), (U l2 H2).
Qed.

Lemma update_keys_ok (rid : Z) (email name tags : str) (d : DB) :
  keys_ok d -> keys_ok (fst (execute_update_contact rid email name tags d)).
Proof.
  intros (Hn & Hs & Hb).
  destruct (update_cases rid email name tags d)
    as [-> | (l1 & o & l2 & E & Ho & Hfree & ->)]; [now repeat split|].
  unfold keys_ok. cbn [fst contacts contacts_seq].
  rewrite E in Hn, Hs, Hb. rewrite map_app in Hn, Hs, Hfree. cbn [map] in Hn, Hs.
  rewrite !map_app. cbn [map Contact.email Contact.id]. rewrite <- Ho.
  split; [|split].
  - apply nodup_mid; [|exact Hfree].
    now apply NoDup_remove_1 in Hn.
  - exact Hs.
  - apply Forall_app in Hb as [B1 B2]. inversion B2 as [|? ? Bo B2']; subst.
    apply Forall_app. split; [exact B1|]. constructor; [exact Bo | exact B2'].
Qed.

(** What an UPDATE leaves alone. *)
Lemma update_frame (rid : Z) (email name tags : str) (d : DB) :
  let d' := fst (execute_update_contact rid email name tags d) in
  sends d' = sends d /\ sends_seq d' = sends_seq d
  /\ contacts_seq d' = contacts_seq d
  /\ map Contact.id (contacts d') = map Contact.id (contacts d)
  /\ map Contact.created_at (contacts d') = map Contact.created_at (contacts d).
Proof.
  destruct (update_cases rid email name tags d)
    as [-> | (l1 & o & l2 & E & Ho & Hfree & ->)]; [now repeat split|].
  cbn [fst contacts sends sends_seq contacts_seq]. rewrite E, !map_app.
  cbn [map Contact.id Contact.created_at]. rewrite Ho. now repeat split.
Qed.

(** A clean row in, clean rows out. *)
Lemma update_rows_clean (rid : Z) (email name tags : str) (d : DB) :
  is_valid_email (Some email) = true ->
  Py.lower (Py.strip email) = email -> Py.strip name = name -> Py.strip tags = tags ->
  rows_clean d -> rows_clean (fst (execute_update_contact rid email name tags d)).
Proof.
  intros Hv He Hn Ht Hc.
  destruct (update_cases rid email name tags d)
    as [-> | (l1 & o & l2 & E & Ho & Hfree & ->)]; [exact Hc|].
  unfold rows_clean in *. cbn [fst contacts]. rewrite E in Hc.
  apply Forall_app in Hc as [C1 C2]. inversion C2 as [|? ? _ C2']; subst.
  apply Forall_app. split; [exact C1|]. constructor; [|exact C2'].
  unfold row_clean. cbn [Contact.email Contact.name Contact.tags]. eauto 10.
Qed.

Lemma with_db_same (w : World) : with_db w (db w) = w.
Proof. now destruct w. Qed.

Lemma save_loop_inv (original : list Contact.t) (edited : list EditedRow) :
  forall (u : nat) (e : list edit_error) (d : DB) u' e' d',
    save_loop original edited u e d = Some (u', e', d') ->
    sends d' = sends d /\ sends_seq d' = sends_seq d
    /\ contacts_seq d' = contacts_seq d
    /\ map Contact.id (contacts d') = map Contact.id (contacts d)
    /\ map Contact.created_at (contacts d') = map Contact.created_at (contacts d)
    /\ (keys_ok d -> keys_ok d')
    /\ (rows_clean d -> rows_clean d')
    /\ u' + List.length e' <= u + List.length e + List.length edited
    /\ u <= u' /\ List.length e <= List.length e'.
Proof.
  induction edited as [|row rest IH]; intros u e d u' e' d' H.
  - simpl in H. injection H as <- <- <-. split_all; auto; simpl; lia.
  - cbn [save_loop] in H.
    destruct (is_valid_email (Some (Py.lower (Py.strip (ed_email row))))) eqn:V;
      cbn [negb] in H.
    2:{ apply IH in H as (H1 & H2 & H3 & H4 & H5 & H6 & H7 & H8 & H9 & H10).
        rewrite length_app in *. simpl in *. split_all; auto; lia. }
    destruct (find _ original) as [o|]; [|discriminate].
    destruct (row_changed o _ _ _).
    2:{ apply IH in H as (H1 & H2 & H3 & H4 & H5 & H6 & H7 & H8 & H9 & H10).
        simpl. split_all; auto; lia. }
    pose proof (update_frame (ed_id row) (Py.lower (Py.strip (ed_email row)))
                  (Py.strip (ed_name row)) (Py.strip (ed_tags row)) d)
      as (F1 & F2 & F3 & F4 & F5).
    pose proof (@update_keys_ok (ed_id row) (Py.lower (Py.strip (ed_email row)))
                  (Py.strip (ed_name row)) (Py.strip (ed_tags row)) d) as K.
    pose proof (@update_rows_clean (ed_id row) (Py.lower (Py.strip (ed_email row)))
                  (Py.strip (ed_name row)) (Py.strip (ed_tags row)) d V
                  (clean_idem _) (strip_idem _) (strip_idem _)) as C.
    destruct (execute_update_contact _ _ _ _ d) as [d1 [[]|msg]]; cbn [fst] in *;
      apply IH in H as (H1 & H2 & H3 & H4 & H5 & H6 & H7 & H8 & H9 & H10);
      rewrite ?length_app in *; simpl in *;
      split_all; try congruence; auto; lia.
Qed.

(** X17: saving the table editor rewrites rows in place and nothing
    else.  Whatever the edited rows, the table has the same ids in the
    same order and the same creation times afterwards, the send log,
    the clock and the last id handed out are untouched, the keys stay
    in order (no two contacts with one address), every row counts at
    most once as an update or as an error, and a KeyError leaves the
    database as it was. *)
Theorem save_rewrites_in_place (edited : list EditedRow) (w : World) :
  let res := page_contacts_save edited w in
  map Contact.id (contacts (db (snd res))) = map Contact.id (contacts (db w))
  /\ map Contact.created_at (contacts (db (snd res)))
     = map Contact.created_at (contacts (db w))
  /\ contacts_seq (db (snd res)) = contacts_seq (db w)
  /\ sends (db (snd res)) = sends (db w)
  /\ clock (snd res) = clock w /\ attempts (snd res) = attempts w
  /\ (keys_ok (db w) -> keys_ok (db (snd res)))
  /\ (forall updates errors,
         fst res = SaveDone updates errors ->
         updates + List.length errors <= List.length edited)
  /\ (fst res = SaveKeyError -> snd res = w).
Proof.
  intros res. subst res. unfold page_contacts_save.
  destruct (save_loop (contacts (db w)) edited 0 [] (db w)) as [[[u e] d']|] eqn:S.
  - apply save_loop_inv in S as (H1 & H2 & H3 & H4 & H5 & H6 & H7 & H8 & _).
    cbn [fst snd with_db db clock attempts].
    split; [exact H4|]. split; [exact H5|]. split; [exact H3|]. split; [exact H1|].
    split; [reflexivity|]. split; [reflexivity|]. split; [exact H6|]. split.
    + intros updates errors E. injection E as <- <-. simpl in H8. lia.
    + discriminate.
  - cbn [fst snd]. split_all; auto; discriminate.
Qed.

Lemma save_rewrites_in_place_witness :
  keys_ok (db world_with_ana)
  /\ keys_ok (db (snd (page_contacts_save
                         [mkEdited 1 (lit "Ana@Example.NET ") (lit " Ana B. ") (lit "vip")]
                         world_with_ana))).
Proof.
  split; [exact world_with_ana_keys_ok|].
  exact (proj1 (proj2 (proj2 (proj2 (proj2 (proj2 (proj2
           (save_rewrites_in_place
              [mkEdited 1 (lit "Ana@Example.NET ") (lit " Ana B. ") (lit "vip")]
              world_with_ana)))))))
           world_with_ana_keys_ok).
Defined.

(** ** Clean rows *)

Lemma valid_clean (a : str) :
  is_valid_email (Some a) = true ->
  is_valid_email (Some (Py.lower (Py.strip a))) = true.
Proof. intros H. apply is_valid_email_accepts. left. now apply clean_of_valid. Qed.

Section CleanRows.

Variable utcnow : nat -> str.
Variable str_of_series : list str -> str.

Lemma insert_rows_clean (name email tags : str) (w : World) :
  is_valid_email (Some (Py.lower (Py.strip email))) = true ->
  rows_clean (db w) -> rows_clean (db (fst (insert_contact utcnow name email tags w))).
Proof.
  intros V H. unfold rows_clean.
  destruct (insert_contact_effect utcnow name email tags w)
    as (_ & _ & _ & [[_ ->] | (_ & -> & _)]); [exact H|].
  apply Forall_app. split; [exact H|]. repeat constructor; simpl.
  - exact V.
  - apply clean_idem.
  - exists (Py.strip name). split; [reflexivity | apply strip_idem].
  - exists (Py.strip tags). split; [reflexivity | apply strip_idem].
Qed.

Lemma import_rows_rows_clean (cols : list str) (rs : list (list str)) (count : nat)
      (w : World) :
  Forall (fun row =>
            Pd.cells_at cols row (lit "email") = []
            \/ exists v, Pd.cells_at cols row (lit "email") = [v]
                         /\ is_valid_email (Some v) = true) rs ->
  rows_clean (db w) ->
  rows_clean (db (snd (import_rows utcnow str_of_series cols rs count w))).
Proof.
  revert count w. induction rs as [|row rs IH]; intros count w Hrows H; [exact H|].
  inversion Hrows as [|? ? Hrow Hrest]; subst.
  destruct (has_address str_of_series cols row) eqn:T.
  - rewrite import_rows_try by exact T. apply IH; [exact Hrest|].
    apply insert_rows_clean; [|exact H].
    unfold row_email, row_get in *. unfold has_address, row_email, row_get in T.
    destruct Hrow as [E | (v & E & Hv)]; rewrite E in *; [discriminate|].
    rewrite clean_idem. now apply valid_clean.
  - rewrite import_rows_skip by exact T. now apply IH.
Qed.

(** X18: every way the contacts page writes keeps the rows clean.  If
    each contact has an address that is trimmed, lower-case and
    accepted by the validator, and a name and tags that are present
    and trimmed, then so it is after the form, after an upload, after
    saving the table editor, and after a delete. *)
Theorem contacts_page_keeps_rows_clean (w : World) :
  rows_clean (db w) ->
  (forall name email tags,
      rows_clean (db (snd (page_contacts_add utcnow name email tags w))))
  /\ (forall file pressed,
         rows_clean (db (snd (page_contacts_upload utcnow str_of_series file pressed w))))
  /\ (forall edited, rows_clean (db (snd (page_contacts_save edited w))))
  /\ (forall delete_id,
         rows_clean (db (snd (page_contacts_delete_by_id delete_id w)))).
Proof.
  intros H. split_all.
  - intros name email tags. destruct (is_valid_email (Some email)) eqn:V.
    + rewrite page_contacts_add_valid by exact V. cbn [snd].
      apply insert_rows_clean; [now apply valid_clean | exact H].
    + now rewrite (proj1 (@page_contacts_add_invalid utcnow name email tags w V)).
  - intros file pressed.
    destruct (page_contacts_upload_world utcnow str_of_series file pressed w)
      as [-> | (df & k & B & _ & ->)]; [exact H|].
    unfold bulk_import_contacts. apply import_rows_rows_clean; [|exact H].
    exact (@branch_cells file df k B).
  - intros edited. unfold page_contacts_save.
    destruct (save_loop (contacts (db w)) edited 0 [] (db w)) as [[[u e] d']|] eqn:S;
      [|exact H].
    apply save_loop_inv in S as (_ & _ & _ & _ & _ & _ & C & _). cbn [snd with_db db].
    now apply C.
  - intros delete_id. unfold page_contacts_delete_by_id.
    destruct (PyNum.isdigit delete_id); [|exact H].
    destruct (PyNum.int_of_digits delete_id) as [n|]; [|exact H].
    destruct (n <=? PyNum.SQLITE_MAX)%Z; [|exact H].
    cbn [snd with_db db]. unfold rows_clean. cbn [execute_delete_contact contacts].
    now apply forall_filter.
Qed.

End CleanRows.

Lemma world_with_two_clean : rows_clean (db world_with_two).
Proof.
  unfold rows_clean. simpl. repeat constructor; simpl; try reflexivity.
  - exists (lit "Ana"). split; reflexivity.
  - exists (lit "vip"). split; reflexivity.
  - exists (lit "Bob"). split; reflexivity.
  - exists []. split; reflexivity.
Defined.

Lemma contacts_page_keeps_rows_clean_witness :
  rows_clean (db world_with_two)
  /\ rows_clean (db (snd (page_contacts_save
                            [mkEdited 2 (lit " Bob@Example.ORG") (lit "Robert ") []]
                            world_with_two))).
Proof.
  split; [exact world_with_two_clean|].
  exact (proj1 (proj2 (proj2 (@contacts_page_keeps_rows_clean sample_clock no_series
                                world_with_two world_with_two_clean)))
           [mkEdited 2 (lit " Bob@Example.ORG") (lit "Robert ") []]).
Defined.

(** ** Saving what nobody edited, and an edit onto a taken address *)

Lemma sorted_nodup (l : list Z) : StronglySorted Z.lt l -> NoDup l.
Proof.
  induction l as [|a l IH]; intros H; [constructor|].
  apply StronglySorted_inv in H as [Hs Ha]. constructor; [|now apply IH].
  intros Hin. pose proof (proj1 (Forall_forall _ _) Ha a Hin). lia.
Qed.

Lemma find_by_id (l : list Contact.t) (c : Contact.t) :
  NoDup (map Contact.id l) -> In c l ->
  find (fun x => Z.eqb (Contact.id x) (Contact.id c)) l = Some c.
Proof.
  induction l as [|x l IH]; intros Hn Hin; [contradiction|].
  simpl in Hn. inversion Hn as [|? ? Hx Hl]; subst. simpl.
  destruct Hin as [-> | Hin].
  - now rewrite Z.eqb_refl.
  - destruct (Z.eqb (Contact.id x) (Contact.id c)) eqn:E; [|now apply IH].
    apply Z.eqb_eq in E. exfalso. apply Hx. rewrite E. now apply in_map.
Qed.

Lemma row_unchanged (c : Contact.t) :
  row_clean c ->
  is_valid_email (Some (Py.lower (Py.strip (ed_email (as_edited c))))) = true
  /\ row_changed c (Py.lower (Py.strip (ed_email (as_edited c))))
                   (Py.strip (ed_name (as_edited c)))
                   (Py.strip (ed_tags (as_edited c))) = false.
Proof.
  intros (V & E & (n & Hn & Sn) & (t & Ht & St)).
  unfold as_edited, row_changed. cbn [ed_email ed_name ed_tags].
  rewrite Hn, Ht, E, Sn, St, !str_eqb_refl. now split.
Qed.

Lemma save_loop_unedited (original l : list Contact.t) (u : nat)
      (e : list edit_error) (d : DB) :
  NoDup (map Contact.id original) ->
  (forall c, In c l -> In c original /\ row_clean c) ->
  save_loop original (map as_edited l) u e d = Some (u, e, d).
Proof.
  intros Hn. induction l as [|c l IH]; intros Hl; [reflexivity|].
  destruct (Hl c (or_introl eq_refl)) as [Hin Hc].
  destruct (row_unchanged Hc) as [V R].
  cbn [map save_loop]. rewrite V. cbn [negb].
  change (ed_id (as_edited c)) with (Contact.id c).
  rewrite (find_by_id _ _ Hn Hin), R.
  apply IH. intros x Hx. apply Hl. now right.
Qed.

(** X19: saving a table nobody edited writes nothing.  With clean
    rows and distinct ids, handing the editor's rows back as they were
    shown reports no update and no error and leaves the world as it
    was. *)
Theorem save_unedited_is_noop (w : World) :
  rows_clean (db w) -> NoDup (map Contact.id (contacts (db w))) ->
  page_contacts_save (map as_edited (contacts (db w))) w = (SaveDone 0 [], w).
Proof.
  intros Hc Hn. unfold page_contacts_save.
  rewrite save_loop_unedited; [now rewrite with_db_same | exact Hn |].
  intros c Hin. split; [exact Hin|].
  exact (proj1 (Forall_forall _ _) Hc c Hin).
Qed.

Lemma save_unedited_is_noop_witness :
  rows_clean (db world_with_two)
  /\ page_contacts_save (map as_edited (contacts (db world_with_two))) world_with_two
     = (SaveDone 0 [], world_with_two).
Proof.
  split; [exact world_with_two_clean|].
  apply (@save_unedited_is_noop world_with_two world_with_two_clean).
  simpl. repeat constructor; simpl; intuition discriminate.
Defined.

Lemma filter_none {A : Type} (p : A -> bool) (l : list A) :
  (forall x, In x l -> p x = false) -> filter p l = [].
Proof.
  induction l as [|x l IH]; intros H; [reflexivity|].
  simpl. rewrite (H x) by now left. apply IH. intros y Hy. apply H. now right.
Qed.

Lemma filter_by_id (l : list Contact.t) (c : Contact.t) :
  NoDup (map Contact.id l) -> In c l ->
  filter (fun x => Z.eqb (Contact.id x) (Contact.id c)) l = [c].
Proof.
  induction l as [|x l IH]; intros Hn Hin; [contradiction|].
  simpl in Hn. inversion Hn as [|? ? Hx Hl]; subst. simpl.
  destruct Hin as [-> | Hin].
  - rewrite Z.eqb_refl. f_equal. apply filter_none. intros y Hy.
    apply Z.eqb_neq. intros E. apply Hx. rewrite <- E. now apply in_map.
  - destruct (Z.eqb (Contact.id x) (Contact.id c)) eqn:E; [|now apply IH].
    apply Z.eqb_eq in E. exfalso. apply Hx. rewrite E. now apply in_map.
Qed.

Lemma same_id_same_row (l : list Contact.t) (x y : Contact.t) :
  NoDup (map Contact.id l) -> In x l -> In y l ->
  Contact.id x = Contact.id y -> x = y.
Proof.
  intros Hn Hx Hy E.
  pose proof (find_by_id l x Hn Hx) as Fx. pose proof (find_by_id l y Hn Hy) as Fy.
  rewrite E in Fx. congruence.
Qed.

(** X20: one edited address.  With the keys in order, changing the
    address of a contact to a valid address another contact holds is
    refused by the store: the page reports the failure for that id, no
    update, and the world is as it was.  Changing it to a valid
    address nobody holds rewrites that one row, with the address
    cleaned and name and tags trimmed, and leaves every other row. *)
Theorem edit_address_taken_or_free (c : Contact.t) (e n t : str) (w : World) :
  keys_ok (db w) -> In c (contacts (db w)) ->
  is_valid_email (Some (Py.lower (Py.strip e))) = true ->
  Py.lower (Py.strip e) <> Contact.email c ->
  let res := page_contacts_save [mkEdited (Contact.id c) e n t] w in
  (email_taken (Py.lower (Py.strip e)) (db w) = true ->
   res = (SaveDone 0 [UpdateFailed (Contact.id c)
                        (lit "UNIQUE constraint failed: contacts.email")], w))
  /\ (email_taken (Py.lower (Py.strip e)) (db w) = false ->
      fst res = SaveDone 1 []
      /\ contacts (db (snd res))
         = map (fun x => if Z.eqb (Contact.id x) (Contact.id c)
                         then Contact.mk (Contact.id c) (Some (Py.strip n))
                                         (Py.lower (Py.strip e)) (Some (Py.strip t))
                                         (Contact.created_at c)
                         else x) (contacts (db w))).
Proof.
  intros (Hn & Hs & Hb) Hin V Hne res. subst res.
  assert (Hids : NoDup (map Contact.id (contacts (db w)))) by now apply sorted_nodup.
  assert (Hchanged : row_changed c (Py.lower (Py.strip e)) (Py.strip n) (Py.strip t) = true).
  { unfold row_changed. apply str_eqb_neq in Hne.
    assert (X : Py.str_eqb (Contact.email c) (Py.lower (Py.strip e)) = false).
    { apply str_eqb_neq. intros E. apply str_eqb_neq in Hne. now apply Hne. }
    now rewrite X. }
  unfold page_contacts_save. cbn [save_loop ed_id ed_email ed_name ed_tags].
  rewrite V. cbn [negb]. rewrite (find_by_id _ _ Hids Hin), Hchanged.
  unfold execute_update_contact. rewrite (filter_by_id _ _ Hids Hin).
  split; intros T.
  - assert (X : existsb (fun x => Py.str_eqb (Contact.email x) (Py.lower (Py.strip e)))
                  (filter (fun x => negb (Z.eqb (Contact.id x) (Contact.id c)))
                          (contacts (db w))) = true).
    { unfold email_taken in T. apply existsb_exists in T as (x & Hx & Ex).
      apply existsb_exists. exists x. split; [|exact Ex].
      apply filter_In. split; [exact Hx|]. apply negb_true_iff, Z.eqb_neq.
      intros E. apply (same_id_same_row _ _ _ Hids Hx Hin) in E. subst x.
      apply str_eqb_eq in Ex. congruence. }
    rewrite X. cbn [app]. now rewrite with_db_same.
  - assert (X : existsb (fun x => Py.str_eqb (Contact.email x) (Py.lower (Py.strip e)))
                  (filter (fun x => negb (Z.eqb (Contact.id x) (Contact.id c)))
                          (contacts (db w))) = false).
    { destruct (existsb _ (filter _ _)) eqn:X; [|reflexivity].
      apply existsb_exists in X as (x & Hx & Ex). apply filter_In in Hx as [Hx _].
      assert (email_taken (Py.lower (Py.strip e)) (db w) = true); [|congruence].
      apply existsb_exists. eauto. }
    rewrite X. cbn [fst snd with_db db contacts]. split; [reflexivity|].
    apply map_ext_in. intros x Hx.
    destruct (Z.eqb (Contact.id x) (Contact.id c)) eqn:E; [|reflexivity].
    apply Z.eqb_eq in E. apply (same_id_same_row _ _ _ Hids Hx Hin) in E. now subst x.
Qed.

Lemma world_with_two_keys_ok : keys_ok (db world_with_two).
Proof.
  unfold keys_ok. simpl. split_all.
  - repeat constructor; simpl; intuition discriminate.
  - repeat constructor.
  - repeat constructor; simpl; lia.
Defined.

Lemma edit_address_taken_or_free_witness :
  keys_ok (db world_with_two)
  /\ page_contacts_save [mkEdited 2 (lit "ANA@example.com ") (lit "Bob") []]
                        world_with_two
     = (SaveDone 0 [UpdateFailed 2 (lit "UNIQUE constraint failed: contacts.email")],
        world_with_two).
Proof.
  split; [exact world_with_two_keys_ok|].
  refine (proj1 (@edit_address_taken_or_free
                   (Contact.mk 2 (Some (lit "Bob")) (lit "bob@example.org") (Some [])
                               (lit "2023-12-31T09:05:00"))
                   (lit "ANA@example.com ") (lit "Bob") [] world_with_two
                   world_with_two_keys_ok _ _ _) _).
  - simpl. right. now left.
  - reflexivity.
  - discriminate.
  - reflexivity.
Defined.

(** ** Campaigns *)

Lemma lstrip_blank (s : str) : forallb Py.isspace s = true -> Py.lstrip s = [].
Proof.
  induction s as [|c s IH]; [reflexivity|]. simpl. intros H.
  apply andb_true_iff in H as [Hc Hs]. rewrite Hc. now apply IH.
Qed.

Lemma strip_blank (s : str) : forallb Py.isspace s = true -> Py.strip s = [].
Proof. intros H. unfold Py.strip. now rewrite lstrip_blank. Qed.

(** X21: the campaign form creates a campaign exactly when subject
    and body are not empty as typed.  The new row is added after the
    rows there were, with the next id, the subject trimmed and the
    body as typed, so a subject of blanks only is stored as the empty
    string; the contacts and the send log are not touched, and the ids
    of the campaigns stay increasing.  A refusal changes nothing. *)
Theorem campaign_form_outcome (utcnow : nat -> str) (subject body : str)
        (w : World) (t : CampaignTable) :
  let res := page_campaigns_submit utcnow subject body w t in
  (fst res = true <-> subject <> [] /\ body <> [])
  /\ (fst res = false -> snd res = (w, t))
  /\ (fst res = true ->
      campaign_rows (snd (snd res))
      = campaign_rows t ++ [Campaign.mk (campaigns_seq t + 1) (Py.strip subject) body
                                        (utcnow (clock w))]
      /\ db (fst (snd res)) = db w
      /\ (forallb Py.isspace subject = true ->
          map Campaign.subject (campaign_rows (snd (snd res)))
          = map Campaign.subject (campaign_rows t) ++ [[]]))
  /\ (campaigns_ok t -> campaigns_ok (snd (snd res))).
Proof.
  intros res. subst res. unfold page_campaigns_submit, insert_campaign.
  destruct subject as [|a s]; [|destruct body as [|b r]]; cbn [Py.truthy andb fst snd].
  - split_all; try discriminate; auto. split; [discriminate | intros [H _]; now elim H].
  - split_all; try discriminate; auto. split; [discriminate | intros [_ H]; now elim H].
  - cbn [campaign_rows campaigns_seq tick db]. split_all.
    + split; [intros _; split; discriminate | reflexivity].
    + discriminate.
    + intros _. split_all; [reflexivity | reflexivity |].
      intros B. rewrite map_app. cbn [map Campaign.subject]. now rewrite strip_blank.
    + intros [Hs Hb]. unfold campaigns_ok. cbn [campaign_rows campaigns_seq].
      rewrite map_app. cbn [map Campaign.id]. split.
      * apply sorted_snoc; [exact Hs|]. apply Forall_map.
        eapply Forall_impl; [|exact Hb]. simpl. intros c Hc. lia.
      * apply Forall_app. split.
        -- eapply Forall_impl; [|exact Hb]. simpl. intros c Hc. lia.
        -- repeat constructor. simpl. lia.
Qed.

(** ** The history *)

Lemma insert_desc_last (x : HistoryRow) (l : list HistoryRow) :
  Forall (fun y => (h_id x < h_id y)%Z) l -> insert_desc x l = l ++ [x].
Proof.
  induction l as [|y l IH]; intros H; [reflexivity|].
  inversion H as [|? ? Hy Hl]; subst. simpl.
  assert (E : (h_id y <? h_id x)%Z = false) by (apply Z.ltb_ge; lia).
  rewrite E. now rewrite IH.
Qed.

Lemma order_by_id_desc_rev (l : list HistoryRow) :
  StronglySorted Z.lt (map h_id l) -> order_by_id_desc l = rev l.
Proof.
  induction l as [|x l IH]; intros H; [reflexivity|].
  simpl in H. apply StronglySorted_inv in H as [Hs Hx].
  unfold order_by_id_desc in *. cbn [fold_right rev]. rewrite IH by exact Hs.
  apply insert_desc_last. apply Forall_forall. intros y Hy.
  apply in_rev in Hy.
  exact (proj1 (Forall_forall _ _) Hx (h_id y) (in_map h_id l y Hy)).
Qed.

Lemma filter_find_campaign (rows : list Campaign.t) (cid : Z) :
  NoDup (map Campaign.id rows) ->
  filter (fun c => Z.eqb (Campaign.id c) cid) rows
  = match find (fun c => Z.eqb (Campaign.id c) cid) rows with
    | Some c => [c]
    | None => []
    end.
Proof.
  induction rows as [|x rows IH]; intros Hn; [reflexivity|].
  simpl in Hn. inversion Hn as [|? ? Hx Hl]; subst. simpl.
  destruct (Z.eqb (Campaign.id x) cid) eqn:E; [|now apply IH].
  f_equal. apply filter_none. intros y Hy. apply Z.eqb_neq. intros Ey.
  apply Z.eqb_eq in E. apply Hx. rewrite E, <- Ey. now apply in_map.
Qed.

Lemma left_join_one (t : CampaignTable) (s : SendRecord.t) :
  NoDup (map Campaign.id (campaign_rows t)) ->
  left_join_campaigns t s = [history_line t s].
Proof.
  intros Hn. unfold left_join_campaigns, history_line.
  destruct (SendRecord.campaign_id s) as [cid|]; [|reflexivity].
  rewrite filter_find_campaign by exact Hn.
  now destruct (find _ (campaign_rows t)).
Qed.

(** X22: the history lists the sends newest first, one line for each
    send whether or not its campaign is there (the subject is then
    missing), and stops at 500 lines.  This holds when the log stands
    in the order of its ids and no two campaigns share an id. *)
Theorem history_newest_first (t : CampaignTable) (d : DB) :
  log_ok d -> NoDup (map Campaign.id (campaign_rows t)) ->
  sends_history t d = firstn 500 (rev (map (history_line t) (sends d)))
  /\ List.length (sends_history t d) = Nat.min 500 (List.length (sends d)).
Proof.
  intros [Hs _] Hn.
  assert (E : sends_history t d = firstn 500 (rev (map (history_line t) (sends d)))).
  { unfold sends_history. f_equal.
    assert (F : flat_map (left_join_campaigns t) (sends d)
                = map (history_line t) (sends d)).
    { induction (sends d) as [|s l IH]; [reflexivity|].
      simpl. rewrite left_join_one by exact Hn. simpl. f_equal.
      apply IH. simpl in Hs. now apply StronglySorted_inv in Hs as [Hs _]. }
    rewrite F. apply order_by_id_desc_rev. now rewrite map_map. }
  split; [exact E|].
  rewrite E, length_firstn, length_rev, length_map. reflexivity.
Qed.

Lemma history_newest_first_witness :
  log_ok (db world_with_log)
  /\ map (fun h => (h_id h, h_subject h)) (sends_history one_campaign (db world_with_log))
     = [(4%Z, Some (lit "Hola")); (1%Z, Some (lit "Hola"))]
  /\ map (fun h => (h_id h, h_subject h)) (sends_history no_campaigns (db world_with_log))
     = [(4%Z, None); (1%Z, None)].
Proof.
  split; [exact world_with_log_ok|].
  assert (N1 : NoDup (map Campaign.id (campaign_rows one_campaign))).
  { simpl. constructor; [intros [] | constructor]. }
  assert (N0 : NoDup (map Campaign.id (campaign_rows no_campaigns))) by constructor.
  rewrite (proj1 (@history_newest_first one_campaign (db world_with_log)
                    world_with_log_ok N1)).
  rewrite (proj1 (@history_newest_first no_campaigns (db world_with_log)
                    world_with_log_ok N0)).
  split; reflexivity.
Defined.

(** ** What the dispatcher does not read *)

(** X23: the dispatcher does not look at the contact table.  Two
    worlds that agree on the send log, its last id, the clock and the
    SMTP trace give the same report, the same log and the same trace,
    whatever contacts either holds: a recipient deleted since the list
    was read is mailed and logged like any other. *)
Theorem dispatcher_ignores_contacts
        (utcnow : nat -> str)
        (smtp_try : list SmtpAttempt -> SmtpAttempt -> option str)
        (cfg : Config) (campaign : Campaign.t) (rs : list Contact.t)
        (w w' : World) :
  sends (db w) = sends (db w') -> sends_seq (db w) = sends_seq (db w') ->
  clock w = clock w' -> attempts w = attempts w' ->
  let res := page_send_all utcnow smtp_try cfg campaign rs w in
  let res' := page_send_all utcnow smtp_try cfg campaign rs w' in
  fst res = fst res'
  /\ sends (db (snd res)) = sends (db (snd res'))
  /\ attempts (snd res) = attempts (snd res').
Proof.
  intros Hs Hq Hc Ha res res'. subst res res'.
  rewrite !page_send_all_sends.
  destruct (send_loop_spec utcnow smtp_try cfg campaign rs 0 w) as (S1 & _ & S3 & _).
  destruct (send_loop_spec utcnow smtp_try cfg campaign rs 0 w') as (T1 & _ & T3 & _).
  rewrite (transport_answers_ext smtp_try cfg campaign rs w w' Ha) in *.
  unfold page_send_all.
  destruct (send_loop utcnow smtp_try cfg campaign rs 0 w) as [n x].
  destruct (send_loop utcnow smtp_try cfg campaign rs 0 w') as [n' x'].
  cbn [fst snd] in *. split_all.
  - congruence.
  - now rewrite Hs, Hq, Hc.
  - now rewrite S3, T3, Ha.
Qed.

Lemma dispatcher_ignores_contacts_witness :
  fst (page_send_all sample_clock server_up (load_config smtp_env) sample_campaign
         sample_recipients empty_world)
  = fst (page_send_all sample_clock server_up (load_config smtp_env) sample_campaign
           sample_recipients
           (with_db empty_world
              {| contacts := contacts (db world_with_two);
                 contacts_seq := 2; sends := []; sends_seq := 0 |})).
Proof.
  exact (proj1 (@dispatcher_ignores_contacts sample_clock server_up
                  (load_config smtp_env) sample_campaign sample_recipients
                  empty_world
                  (with_db empty_world
                     {| contacts := contacts (db world_with_two);
                        contacts_seq := 2; sends := []; sends_seq := 0 |})
                  eq_refl eq_refl eq_refl eq_refl)).
Defined.

(** ** A CSV with two address columns *)

Lemma filter_two {A B : Type} (p : B -> bool) (g : A -> B) (l : list A) (x y : A) :
  x <> y -> In x l -> In y l -> p (g x) = true -> p (g y) = true ->
  2 <= List.length (filter p (map g l)).
Proof.
  intros Hne Hx Hy Px Py.
  assert (K : forall z, In z l -> p (g z) = true ->
                        1 <= List.length (filter p (map g l))).
  { clear. intros z Hz Pz. induction l as [|a l IH]; [contradiction|].
    simpl. destruct Hz as [-> | Hz].
    - rewrite Pz. simpl. lia.
    - destruct (p (g a)); simpl; [lia | now apply IH]. }
  induction l as [|a l IH]; [contradiction|]. simpl.
  destruct Hx as [-> | Hx]; destruct Hy as [-> | Hy].
  - now elim Hne.
  - rewrite Px. simpl. clear IH.
    assert (1 <= List.length (filter p (map g l))); [|lia].
    clear K Hne Px. induction l as [|a l IH]; [contradiction|].
    simpl. destruct Hy as [-> | Hy]; [rewrite Py; simpl; lia|].
    destruct (p (g a)); simpl; [lia | now apply IH].
  - rewrite Py. simpl. clear IH.
    assert (1 <= List.length (filter p (map g l))); [|lia].
    clear K Hne Py. induction l as [|a l IH]; [contradiction|].
    simpl. destruct Hx as [-> | Hx]; [rewrite Px; simpl; lia|].
    destruct (p (g a)); simpl; [lia | now apply IH].
  - destruct (p (g a)); simpl.
    + assert (2 <= List.length (filter p (map g l))); [|lia].
      apply IH; auto. intros z Hz Pz.
      clear - Hz Pz. induction l as [|b l IH]; [contradiction|].
      simpl. destruct Hz as [-> | Hz]; [rewrite Pz; simpl; lia|].
      destruct (p (g b)); simpl; [lia | now apply IH].
    + apply IH; auto. intros z Hz Pz.
      clear - Hz Pz. induction l as [|b l IH]; [contradiction|].
      simpl. destruct Hz as [-> | Hz]; [rewrite Pz; simpl; lia|].
      destruct (p (g b)); simpl; [lia | now apply IH].
Qed.

(** X24: a CSV that has a column named [email] and, after it, a last
    column whose name lower-cases to [email] without being [email]
    (say [Email]) is not refused with a message: the renaming leaves
    two columns called [email], and the branch ends in an exception
    that nobody catches. *)
Theorem csv_with_two_address_columns_breaks (df : DataFrame) (ec : str) :
  Pd.cols_lower_get (columns df) (lit "email") = Some ec ->
  ec <> lit "email" ->
  In (lit "email") (columns df) ->
  csv_branch df = Broke.
Proof.
  intros Hfound Hne Hin.
  rewrite (csv_branch_found _ Hfound).
  destruct (cols_lower_get_some _ _ Hfound) as [Hec Hlow].
  destruct (csv_renamed_columns df ec) as (ex & nc & tc & Hcols & Hn & Ht & _).
  assert (R : forall c, c = ec \/ c = lit "email" ->
                        Py.str_eqb
                          (Pd.rename_label [(ec, lit "email"); (nc, lit "name");
                                            (tc, lit "tags")] c) (lit "email") = true).
  { intros c Hc. unfold Pd.rename_label. cbn [rev app find fst snd].
    destruct (Py.str_eqb tc c) eqn:E1.
    { apply str_eqb_eq in E1. subst c. exfalso.
      destruct Hc as [-> | ->]; [rewrite Hlow in Ht | ]; discriminate. }
    destruct (Py.str_eqb nc c) eqn:E2.
    { apply str_eqb_eq in E2. subst c. exfalso.
      destruct Hc as [-> | ->]; [rewrite Hlow in Hn | ]; discriminate. }
    destruct (Py.str_eqb ec c) eqn:E3; [reflexivity|].
    destruct Hc as [-> | ->]; [|reflexivity].
    assert (T : Py.str_eqb ec ec = true) by now apply str_eqb_eq.
    congruence. }
  assert (L : 2 <= List.length (filter (fun c => Py.str_eqb c (lit "email"))
                                       (columns (csv_renamed df ec)))).
  { rewrite Hcols.
    apply (@filter_two _ _ (fun c => Py.str_eqb c (lit "email")) _ _ ec (lit "email"));
      auto using in_or_app. }
  unfold validate_emails, Pd.series.
  destruct (filter _ (columns (csv_renamed df ec))) as [|x [|y f]];
    simpl in L; try lia; reflexivity.
Qed.

Lemma csv_with_two_address_columns_breaks_witness :
  csv_branch {| columns := [lit "email"; lit "Email"];
                rows := [[lit "ana@example.com"; lit "bob@example.org"]] |} = Broke.
Proof.
  apply (@csv_with_two_address_columns_breaks
           {| columns := [lit "email"; lit "Email"];
              rows := [[lit "ana@example.com"; lit "bob@example.org"]] |}
           (lit "Email")).
  - reflexivity.
  - discriminate.
  - simpl. now left.
Defined.
